(** * Hypergraphs of wireless networks: a shallow embedding of
    [hypergraph_wireless.py] and the properties of its hypergraph store,
    its generator of minimal forbidden sets and its interference degree.

    Python integers are [Z]; tuples and lists of vertex ids are [list Z]
    (the store only ever holds tuples, so the tuple/list distinction of
    Python's [==] is not modelled); the dictionary [E] of level sets and the
    dictionary [location] are [gmap]s keyed by [Z]; exceptions are an
    explicit outcome; the mutated object [self] and the console are threaded
    through a state monad that keeps the state reached when an exception is
    raised.  Floating point is not given a semantics here: the operations on
    Python numbers are the members of the interface [PyNum], and the
    properties below hold for every implementation of it. *)

From Stdlib Require Import QArith Qcanon Qround.
From stdpp Require Import sorting numbers gmap list.

Local Open Scope Z_scope.

(** ** Exceptions and the two monads *)

Inductive exn : Set :=
  | ValueError | KeyError | IndexError | ZeroDivisionError | OverflowError.

Inductive outcome (A : Type) : Type :=
  | Ret (a : A)
  | Raise (x : exn).
Arguments Ret {A} a.
Arguments Raise {A} x.

Global Instance outcome_ret : MRet outcome := @Ret.
Global Instance outcome_bind : MBind outcome := λ A B f m,
  match m with Ret a => f a | Raise x => Raise x end.

(** A computation over a mutable state [S]: the state survives a raise. *)
Definition M (S A : Type) : Type := S → outcome A * S.

Global Instance M_ret {S} : MRet (M S) := λ A a s, (Ret a, s).
Global Instance M_bind {S} : MBind (M S) := λ A B f m s,
  match m s with
  | (Ret a, s') => f a s'
  | (Raise x, s') => (Raise x, s')
  end.

Definition lift {S A} (o : outcome A) : M S A := λ s, (o, s).
Definition get {S} : M S S := λ s, (Ret s, s).
Definition modify {S} (f : S → S) : M S unit := λ s, (Ret tt, f s).

(** [for x in l: body x] *)
Fixpoint for_each {S A} (l : list A) (body : A → M S unit) : M S unit :=
  match l with
  | [] => mret tt
  | x :: l' => body x ≫= λ _, for_each l' body
  end.

(** [for x in l: body x], with the loop's local variables as the accumulator *)
Fixpoint fold_M {S A B} (body : B → A → M S B) (l : list A) (b : B)
    : M S B :=
  match l with
  | [] => mret b
  | x :: l' => body b x ≫= fold_M body l'
  end.

(** [for x in l: body x] in a function without side effects, with the loop's
    local variables as the accumulator *)
Fixpoint fold_outcome {A B} (body : B → A → outcome B) (l : list A) (b : B)
  : outcome B :=
  match l with
  | [] => Ret b
  | x :: l' => body b x ≫= fold_outcome body l'
  end.

(** ** Python built-ins *)

(** [range(a, b)] *)
Definition range (a b : Z) : list Z := seqZ a (b - a).

(** [sorted(list(e))] on integers *)
Definition sorted (e : list Z) : list Z := merge_sort Z.le e.

(** [max(e)]: the first largest item; an empty sequence raises *)
Definition py_max (e : list Z) : outcome Z :=
  match e with
  | [] => Raise ValueError
  | x :: xs => Ret (foldl (λ m y, if m <? y then y else m) x xs)
  end.

(** [l.remove(x)]: drops the first item equal to [x], raises without one *)
Fixpoint py_remove {A} `{EqDecision A} (x : A) (l : list A) : outcome (list A) :=
  match l with
  | [] => Raise ValueError
  | y :: l' => if decide (y = x) then Ret l'
               else l'' ← py_remove x l'; Ret (y :: l'')
  end.

(** [set(e).issubset(set(f))] *)
Definition issubset (e f : list Z) : bool :=
  forallb (λ x, bool_decide (x ∈ f)) e.

(** [itertools.combinations(l, k)], in the order itertools emits *)
Fixpoint combinations {A} (l : list A) (k : nat) : list (list A) :=
  match k with
  | O => [[]]
  | S k' =>
      match l with
      | [] => []
      | x :: xs => (cons x <$> combinations xs k') ++ combinations xs k
      end
  end.

(** [l[i]] with Python's negative indices *)
Definition py_index {A} (l : list A) (i : Z) : outcome A :=
  let n := Z.of_nat (length l) in
  let j := if i <? 0 then i + n else i in
  if (0 <=? j) && (j <? n)
  then match l !! Z.to_nat j with Some a => Ret a | None => Raise IndexError end
  else Raise IndexError.

(** [l[i] = a] with Python's negative indices *)
Definition py_setitem {A} (l : list A) (i : Z) (a : A) : outcome (list A) :=
  let n := Z.of_nat (length l) in
  let j := if i <? 0 then i + n else i in
  if (0 <=? j) && (j <? n) then Ret (<[Z.to_nat j := a]> l) else Raise IndexError.

(** [powerset(iterable)] *)
Definition powerset {A} (xs : list A) : list (list A) :=
  n ← seq 0 (length xs + 1); combinations xs n.

(** ** The hypergraph store *)


(** What the program writes to the console. *)
Inductive line (F : Type) : Type :=
  | ErrorEndpoint      (* "Error!  You are trying to add an edge with endpoint > N." *)
  | PrintDelta_p (l : list F)
  | PrintDelta_pp (l : list F).
Arguments ErrorEndpoint {F}.
Arguments PrintDelta_p {F} l.
Arguments PrintDelta_pp {F} l.

Record Hypergraph (loc : Type) : Type := mkHypergraph {
  numVertices : Z;
  V : list Z;
  E : gmap Z (list (list Z));
  location : gmap Z loc
}.
Arguments mkHypergraph {loc}.
Arguments numVertices {loc} h.
Arguments V {loc} h.
Arguments E {loc} h.
Arguments location {loc} h.

Record World (loc F : Type) : Type := mkWorld {
  self : Hypergraph loc;
  stdout : list (line F)
}.
Arguments mkWorld {loc F}.
Arguments self {loc F} w.
Arguments stdout {loc F} w.

Section Store.
Context {loc F : Type}.

Abbreviation Hypergraph := (Hypergraph loc).
Abbreviation World := (World loc F).
Abbreviation M := (M World).

(** [Hypergraph(N)] *)
Definition Hypergraph_init (N : Z) : Hypergraph :=
  {| numVertices := N;
     V := range 1 (N + 1);
     E := foldl (λ E k, <[k := []]> E) ∅ (range 0 (N + 1));
     location := ∅ |}.

Definition set_E (f : gmap Z (list (list Z)) → gmap Z (list (list Z)))
    (H : Hypergraph) : Hypergraph :=
  {| numVertices := numVertices H; V := V H; E := f (E H);
     location := location H |}.

Definition set_location (f : gmap Z loc → gmap Z loc) (H : Hypergraph)
    : Hypergraph :=
  {| numVertices := numVertices H; V := V H; E := E H;
     location := f (location H) |}.

Definition on_self (f : Hypergraph → Hypergraph) (w : World) : World :=
  {| self := f (self w); stdout := stdout w |}.

(** [print(...)] *)
Definition print (s : line F) : M unit :=
  modify (λ w, {| self := self w; stdout := stdout w ++ [s] |}).

(** [self.E[k]] as an expression *)
Definition getE (k : Z) : M (list (list Z)) := λ w,
  match E (self w) !! k with
  | Some l => (Ret l, w)
  | None => (Raise KeyError, w)
  end.

(** [self.E[k] = l] *)
Definition setE (k : Z) (l : list (list Z)) : M unit :=
  modify (on_self (set_E (insert k l))).

Definition setLocation (i : Z) (s : loc) : M unit :=
  modify (on_self (set_location (insert i s))).

Definition getLocation (i : Z) : M loc := λ w,
  match location (self w) !! i with
  | Some s => (Ret s, w)
  | None => (Raise KeyError, w)
  end.

Definition addEdge (e : list Z) : M unit :=
  let edge_tuple := sorted e in
  let k := Z.of_nat (length edge_tuple) in
  m ← lift (py_max e);
  w ← get;
  (if numVertices (self w) <? m then print ErrorEndpoint else mret tt) ≫= λ _,
  Ek ← getE k;
  if bool_decide (edge_tuple ∈ Ek) then mret tt
  else Ek' ← getE k; setE k (Ek' ++ [edge_tuple]).

Definition removeEdge (e : list Z) : M unit :=
  let edge_tuple := sorted e in
  let k := Z.of_nat (length edge_tuple) in
  Ek ← getE k;
  if bool_decide (edge_tuple ∈ Ek)
  then Ek' ← getE k; l ← lift (py_remove edge_tuple Ek'); setE k l
  else mret tt.

Definition addEdges (F' : list (list Z)) : M unit :=
  for_each F' addEdge.

Definition removeSupersetsOf (e : list Z) : M unit :=
  let k := Z.of_nat (length e) in
  w ← get;
  for_each (range (k + 1) (numVertices (self w) + 1)) (λ i,
    Ei ← getE i;
    if 1 <=? Z.of_nat (length Ei) then
      Ei' ← getE i;
      let temp := filter (λ f, issubset e f = false) Ei' in
      setE i temp
    else mret tt).

Definition setLevelSet (k : Z) (F' : list (list Z)) : M unit :=
  setE k F'.

Definition getEdgesLevelSet (k : Z) : M (list (list Z)) := getE k.

(** [isIndependentSet] only reads [self]; [J] is a list or a set, of which
    the method uses [len(J)] and [set(J)]. *)
Fixpoint isIndependentSet_levels (H : Hypergraph) (J : list Z)
    (levels : list Z) : outcome bool :=
  match levels with
  | [] => Ret true
  | i :: rest =>
      match E H !! i with
      | None => Raise KeyError
      | Some Ei =>
          if existsb (λ edge, issubset edge J) Ei then Ret false
          else isIndependentSet_levels H J rest
      end
  end.

Definition isIndependentSet (H : Hypergraph) (J : list Z) : outcome bool :=
  let k := Z.of_nat (length J) in
  isIndependentSet_levels H J (range 1 (k + 1)).

End Store.

(** ** Python numbers

    The arithmetic the program performs on ints and floats.  A value of [F]
    is a Python number up to [==] (so the int [0] and the float [0.0] are
    one value).  [+], [-] and unary [-] never raise on floats; [**],
    [math.sqrt] and [/] may.  The two laws are the facts about [round] and
    the comparisons that the feasibility test relies on; both hold for IEEE
    doubles, NaN included. *)
Class PyNum (F : Type) : Type := {
  num_eq_dec :: EqDecision F;
  of_Z : Z → F;
  fadd : F → F → F;
  fsub : F → F → F;
  fneg : F → F;
  fpow : F → F → outcome F;
  fsqrt : F → outcome F;
  fdiv : F → F → outcome F;
  round3 : F → F;
  fge : F → F → bool;
  fgt : F → F → bool;
  round3_zero : round3 (of_Z 0) = of_Z 0;
  fge_zero_pos : ∀ b, fgt b (of_Z 0) = true → fge (of_Z 0) b = false
}.

(** The laws of the order that the interference degree relies on: [>] is a
    strict total order and sums of non-negative numbers are non-negative.
    They hold for ints and for floats other than NaN, the only numbers the
    interference degree computes with. *)
Class PyNumOrder (F : Type) `{PyNum F} : Prop := {
  fgt_irrefl : ∀ a, fgt a a = false;
  fgt_trans : ∀ a b c, fgt a b = true → fgt b c = true → fgt a c = true;
  fgt_total : ∀ a b, fgt a b = false → fgt b a = false → a = b;
  fadd_nonneg : ∀ a b,
    fgt (of_Z 0) a = false → fgt (of_Z 0) b = false →
    fgt (of_Z 0) (fadd a b) = false;
  one_nonneg : fgt (of_Z 0) (of_Z 1) = false;
  recip_nonneg : ∀ n q,
    0 < n → fdiv (of_Z 1) (of_Z n) = Ret q → fgt (of_Z 0) q = false;
  recip_defined : ∀ n, 0 < n → ∃ q, fdiv (of_Z 1) (of_Z n) = Ret q
}.

(** A location is a 2-tuple of numbers. *)
Definition point (F : Type) : Type := F * F.

Section Wireless.
Context {F : Type} `{PyNum F}.

Abbreviation point := (point F).
Abbreviation Hypergraph := (Hypergraph point).
Abbreviation World := (World point F).
Abbreviation M := (M World).

(** ** The feasibility predicate *)

(** the nested function [EuclidDist] of [isForbidden] *)
Definition EuclidDist (si sj : point) : outcome F :=
  a ← fpow (fsub si.1 sj.1) (of_Z 2);
  b ← fpow (fsub si.2 sj.2) (of_Z 2);
  fsqrt (fadd a b).

(** the nested function [Energy] of [isForbidden], which closes over [alpha] *)
Definition Energy (alpha : F) (W2 : list point) (s : point) : outcome F :=
  fold_outcome (λ res w,
    d ← EuclidDist w s;
    p ← fpow d (fneg alpha);
    Ret (fadd res p)) W2 (of_Z 0).

(** the loop [for w in W] of [isForbidden], from the items [rest] on *)
Fixpoint isForbidden_from (W rest : list point) (alpha beta : F)
    : outcome bool :=
  match rest with
  | [] => Ret false
  | w :: rest' =>
      W_minus_w ← py_remove w W;
      en ← Energy alpha W_minus_w w;
      if fge (round3 en) beta then Ret true
      else isForbidden_from W rest' alpha beta
  end.

Definition isForbidden (W : list point) (alpha beta : F) : outcome bool :=
  isForbidden_from W W alpha beta.

(** ** The generator *)

Definition GenerateHypergraph (S : list point) (alpha beta : F)
    : M Hypergraph :=
  let N := Z.of_nat (length S) in
  (* H = Hypergraph(N) *)
  modify (λ w, {| self := Hypergraph_init N; stdout := stdout w |}) ≫= λ _,
  for_each (range 0 N) (λ i,
    s ← lift (py_index S i); setLocation (i + 1) s) ≫= λ _,
  for_each (range 2 (N + 1)) (λ k,
    addEdges (combinations (range 1 (N + 1)) (Z.to_nat k))) ≫= λ _,
  for_each (range 2 (N + 1)) (λ k,
    Ek ← getEdgesLevelSet k;
    temp ← fold_M (λ temp W,
      stationsW ← mapM getLocation W;
      b ← lift (isForbidden stationsW alpha beta);
      if b : bool then removeSupersetsOf W ≫= λ _, mret (temp ++ [W])
      else mret temp) Ek [];
    setLevelSet k temp) ≫= λ _,
  w ← get; mret (self w).

(** ** The interference degree *)

(** [max(a, b)]: the first of the largest *)
Definition py_max2 (a b : F) : F := if fgt b a then b else a.

(** the nested function [zeros_matrix] of [Delta] *)
Definition zeros_matrix (n m : Z) : list (list F) :=
  replicate (Z.to_nat n) (replicate (Z.to_nat m) (of_Z 0)).

(** the two assignments in the innermost loop of [Delta] *)
Definition Delta_step (len_e : Z) (Delta : list (list F)) (p : list Z)
    : outcome (list (list F)) :=
  match p with
  | [i; j] =>
      row ← py_index Delta (i - 1);
      old ← py_index row (j - 1);
      q ← fdiv (of_Z 1) (of_Z (len_e - 1));
      row' ← py_setitem row (j - 1) (py_max2 old q);
      Delta1 ← py_setitem Delta (i - 1) row';
      row_i ← py_index Delta1 (i - 1);
      v ← py_index row_i (j - 1);
      row_j ← py_index Delta1 (j - 1);
      row_j' ← py_setitem row_j (i - 1) v;
      py_setitem Delta1 (j - 1) row_j'
  | _ => Raise ValueError
  end.

Definition Delta (H : Hypergraph) : outcome (list (list F)) :=
  let N := numVertices H in
  fold_outcome (λ Delta k,
    match E H !! k with
    | None => Raise KeyError
    | Some Ek =>
        fold_outcome (λ Delta e,
          fold_outcome (Delta_step (Z.of_nat (length e))) (combinations e 2) Delta)
          Ek Delta
    end) (range 0 (N + 1)) (zeros_matrix N N).

(** [if a not in Adj[b]: Adj[b].append(a)] *)
Definition Adj_add (a b : Z) (Adj : gmap Z (list Z))
    : outcome (gmap Z (list Z)) :=
  match Adj !! b with
  | None => Raise KeyError
  | Some l =>
      if bool_decide (a ∈ l) then Ret Adj
      else match Adj !! b with
           | None => Raise KeyError
           | Some l' => Ret (<[b := l' ++ [a]]> Adj)
           end
  end.

Definition AdjacencyList (H : Hypergraph) : outcome (gmap Z (list Z)) :=
  let N := numVertices H in
  let Adj0 := foldl (λ Adj i, <[i := []]> Adj) ∅ (range 1 (N + 1)) in
  fold_outcome (λ Adj k,
    match E H !! k with
    | None => Raise KeyError
    | Some Ek =>
        fold_outcome (λ Adj e,
          fold_outcome (λ Adj p,
            match p with
            | [i; j] => Adj' ← Adj_add i j Adj; Adj_add j i Adj'
            | _ => Raise ValueError
            end) (combinations e 2) Adj)
          Ek Adj
    end) (range 0 (N + 1)) Adj0.

(** [s = s0; for j in J: s += Delta[i-1][j-1]] *)
Definition weight_sum (Delta : list (list F)) (i : Z) (s0 : F) (J : list Z)
    : outcome F :=
  fold_outcome (λ s j,
    row ← py_index Delta (i - 1);
    d ← py_index row (j - 1);
    Ret (fadd s d)) J s0.

(** the body of the loop [for K in subsetsNi] of [interferenceDegree] *)
Definition degree_step (H : Hypergraph) (Delta : list (list F)) (i : Z)
    (acc : F * F) (K : list Z) : outcome (F * F) :=
  let '(Delta_i_p, Delta_i_pp) := acc in
  let J := K in
  c1 ← (if 1 <=? Z.of_nat (length J) then isIndependentSet H J else Ret false);
  Delta_i_p ← (if c1 : bool then
                 s ← weight_sum Delta i (of_Z 0) J; Ret (py_max2 Delta_i_p s)
               else Ret Delta_i_p);
  let L := [i] in
  c2 ← (if 1 <=? Z.of_nat (length J)
        then isIndependentSet H (remove_dups (J ++ L)) else Ret false);
  Delta_i_pp ← (if c2 : bool then
                  s ← weight_sum Delta i (of_Z 1) J; Ret (py_max2 Delta_i_pp s)
                else Ret Delta_i_pp);
  Ret (Delta_i_p, Delta_i_pp).

(** the body of the loop [for i in range(1, N+1)] of [interferenceDegree] *)
Definition degree_vertex (H : Hypergraph) (Delta : list (list F))
    (Adj : gmap Z (list Z)) (acc : F * list F * list F) (i : Z)
    : outcome (F * list F * list F) :=
  let '(res, Delta_p, Delta_pp) := acc in
  match Adj !! i with
  | None => Raise KeyError
  | Some Adj_i =>
      '(Delta_i_p, Delta_i_pp) ←
         fold_outcome (degree_step H Delta i) (powerset Adj_i) (of_Z 0, of_Z 0);
      Ret (py_max2 (py_max2 res Delta_i_p) Delta_i_pp,
           Delta_p ++ [Delta_i_p], Delta_pp ++ [Delta_i_pp])
  end.

Definition interferenceDegree : M F :=
  w ← get;
  let H := self w in
  let N := numVertices H in
  Delta ← lift (Delta H);
  Adj ← lift (AdjacencyList H);
  '(res, Delta_p, Delta_pp) ←
     lift (fold_outcome (degree_vertex H Delta Adj) (range 1 (N + 1))
             (of_Z 0, [], []));
  print (PrintDelta_p Delta_p) ≫= λ _,
  print (PrintDelta_pp Delta_pp) ≫= λ _,
  mret res.

End Wireless.

(** ** Exact rational arithmetic

    An implementation of [PyNum] by canonical rationals, used to run the
    program on concrete inputs.  It computes what CPython computes wherever
    the float operations are exact (small integers and dyadic fractions) and
    the exact value where they round.  A root that is not rational and a
    power with a fractional exponent have no value here; the implementation
    raises [OverflowError] for them, and the examples stay away from both. *)
Module Exact.

Local Open Scope Qc_scope.

Definition inj (z : Z) : Qc := Q2Qc (inject_Z z).

Definition gt (a b : Qc) : bool := negb (Qle_bool a b).
Definition ge (a b : Qc) : bool := Qle_bool b a.

Definition pow (x y : Qc) : outcome Qc :=
  if (Z.pos (Qden y) =? 1)%Z then
    let n := Qnum y in
    if (0 <=? n)%Z then Ret (Qcpower x (Z.to_nat n))
    else if decide (x = 0) then Raise ZeroDivisionError
    else Ret (Qcpower (/ x) (Z.to_nat (- n)))
  else Raise OverflowError.

Definition sqrt (x : Qc) : outcome Qc :=
  if gt 0 x then Raise ValueError
  else
    let n := Qnum x in
    let d := Z.pos (Qden x) in
    let rn := Z.sqrt n in
    let rd := Z.sqrt d in
    if ((rn * rn =? n) && (rd * rd =? d))%Z
    then Ret (Q2Qc (rn # Z.to_pos rd))
    else Raise OverflowError.

Definition div (x y : Qc) : outcome Qc :=
  if decide (y = 0) then Raise ZeroDivisionError else Ret (x / y).

(** [round(x, 3)]: the nearest multiple of 1/1000, ties to the even one *)
Definition round (x : Qc) : Qc :=
  let y := (x * inj 1000)%Qc in
  let fl := Qfloor y in
  let frac := (y - inj fl)%Qc in
  let half := Q2Qc (1 # 2) in
  let r := if gt frac half then (fl + 1)%Z
           else if gt half frac then fl
           else if Z.even fl then fl else (fl + 1)%Z in
  Q2Qc (r # 1000).

Lemma round_zero : round (inj 0) = inj 0.
Proof. apply Qc_is_canon. reflexivity. Qed.

Lemma ge_zero_pos b : gt b (inj 0) = true → ge (inj 0) b = false.
Proof. unfold gt, ge. by intros ?%negb_true_iff. Qed.

Global Instance num : PyNum Qc := {|
  of_Z := inj;
  fadd := Qcplus; fsub := Qcminus; fneg := Qcopp;
  fpow := pow; fsqrt := sqrt; fdiv := div;
  round3 := round; fge := ge; fgt := gt;
  round3_zero := round_zero;
  fge_zero_pos := ge_zero_pos
|}.

End Exact.

(** ** Exact arithmetic within the range of the doubles

    The arithmetic of [Exact], except that a power raises [OverflowError]
    when its value is [2^1024] or more in size.  No double holds such a
    value, and CPython raises [OverflowError] for a float power that leaves
    the range of the doubles ([0.5 ** -2000], for instance). *)
Module Bounded.

Local Open Scope Qc_scope.

Definition limit : Qc := Exact.inj (2 ^ 1024).

Definition pow (x y : Qc) : outcome Qc :=
  r ← Exact.pow x y;
  if Exact.ge r limit || Exact.ge (- r) limit then Raise OverflowError
  else Ret r.

Definition num : PyNum Qc := {|
  of_Z := Exact.inj;
  fadd := Qcplus; fsub := Qcminus; fneg := Qcopp;
  fpow := pow; fsqrt := Exact.sqrt; fdiv := Exact.div;
  round3 := Exact.round; fge := Exact.ge; fgt := Exact.gt;
  round3_zero := Exact.round_zero;
  fge_zero_pos := Exact.ge_zero_pos
|}.

End Bounded.

(** ** Vocabulary of the properties *)

(** [l] without the first item equal to [x] *)
Fixpoint remove_first {A} `{EqDecision A} (x : A) (l : list A) : list A :=
  match l with
  | [] => []
  | y :: l' => if decide (y = x) then l' else y :: remove_first x l'
  end.

Section StoreSpec.
Context {loc F : Type}.
Implicit Types (H : Hypergraph loc) (w : World loc F) (e f : list Z)
  (out : list (line F)).

(** The level sets of a hypergraph on [N] vertices are the keys [0..N],
    as [Hypergraph(N)] creates them. *)
Definition levels_ok H : Prop :=
  ∀ k, is_Some (E H !! k) ↔ 0 ≤ k ≤ numVertices H.

(** The effect of [addEdge e] on the level sets when it does not raise. *)
Definition E_addEdge e (E0 : gmap Z (list (list Z))) : gmap Z (list (list Z)) :=
  let k := Z.of_nat (length e) in
  match E0 !! k with
  | Some Ek => if decide (sorted e ∈ Ek) then E0 else <[k := Ek ++ [sorted e]]> E0
  | None => E0
  end.

(** The console after [addEdge e] on [N] vertices. *)
Definition out_addEdge (N : Z) e (out : list (line F)) : list (line F) :=
  if decide (Exists (λ v, N < v) e) then out ++ [ErrorEndpoint] else out.

(** The effect of [removeEdge e] on the level sets. *)
Definition E_removeEdge e (E0 : gmap Z (list (list Z))) : gmap Z (list (list Z)) :=
  let k := Z.of_nat (length e) in
  match E0 !! k with
  | Some Ek =>
      if decide (sorted e ∈ Ek) then <[k := remove_first (sorted e) Ek]> E0 else E0
  | None => E0
  end.

(** The effect of [removeSupersetsOf e] on the level sets it scans. *)
Definition E_prune e (levels : list Z) (E0 : gmap Z (list (list Z)))
    : gmap Z (list (list Z)) :=
  foldl (λ E1 i, alter (filter (λ f, ¬ e ⊆ f)) i E1) E0 levels.

(** An edge of level [k] as the data model has it. *)
Definition sorted_edge (k : Z) e : Prop :=
  Sorted Z.le e ∧ Z.of_nat (length e) = k.

Definition levels_sorted H : Prop :=
  ∀ k Ek, E H !! k = Some Ek → NoDup Ek ∧ Forall (sorted_edge k) Ek.

(** The calls that mutate the store. *)
Inductive call : Type :=
  | CallAddEdge (e : list Z)
  | CallRemoveEdge (e : list Z)
  | CallRemoveSupersetsOf (e : list Z).

Definition do_call (c : call) : M (World loc F) unit :=
  match c with
  | CallAddEdge e => addEdge e
  | CallRemoveEdge e => removeEdge e
  | CallRemoveSupersetsOf e => removeSupersetsOf e
  end.

(** The store after a sequence of calls, each of which may have raised (the
    caller goes on with the object as the call left it). *)
Definition after_calls (cs : list call) w : World loc F :=
  foldl (λ w c, (do_call c w).2) w cs.

(** The ids of every stored edge are pairwise distinct. *)
Definition edges_distinct H : Prop :=
  ∀ k Ek e, E H !! k = Some Ek → e ∈ Ek → NoDup e.

(** A call that inserts is given pairwise distinct ids. *)
Definition distinct_arg (c : call) : Prop :=
  match c with CallAddEdge e => NoDup e | _ => True end.

End StoreSpec.

Definition is_Ret {A} (o : outcome A) : Prop := ∃ a, o = Ret a.

Section WirelessSpec.
Context {F : Type} `{PyNum F}.
Implicit Types (W S : list (point F)) (alpha beta : F).

(** [EuclidDist(s, w) ** (-alpha)]: the interference at [w] from [s] *)
Definition pathloss alpha (s w : point F) : outcome F :=
  d ← EuclidDist s w; fpow d (fneg alpha).

(** The arithmetic does not raise between two distinct points of [W]. *)
Definition pathloss_defined alpha W : Prop :=
  ∀ w s, w ∈ W → s ∈ W → w ≠ s → is_Ret (pathloss alpha s w).

(** *** The feasibility predicate in the words of the specification

    These definitions do not use the program's [EuclidDist] and [Energy];
    [isForbidden] is compared with them. *)

(** The Euclidean distance between two points of the plane. *)
Definition distance_spec (a b : point F) : outcome F :=
  dx2 ← fpow (fsub a.1 b.1) (of_Z 2);
  dy2 ← fpow (fsub a.2 b.2) (of_Z 2);
  fsqrt (fadd dx2 dy2).

(** The interference at the receiver [w] from the sender [s]:
    [1 / dist(s,w)^alpha], which the arithmetic computes as the one power
    [dist(s,w) ** (-alpha)]. *)
Definition received alpha (s w : point F) : outcome F :=
  d ← distance_spec s w; fpow d (fneg alpha).

(** The total interference at [w]: the sum of what it receives from each
    sender, added to 0 in the order of the senders. *)
Definition interference_spec alpha (senders : list (point F)) (w : point F)
    : outcome F :=
  ps ← mapM (λ s, received alpha s w) senders;
  mret (foldl fadd (of_Z 0) ps).

(** The interference between two distinct points of [W] has a value. *)
Definition received_defined alpha W : Prop :=
  ∀ w s, w ∈ W → s ∈ W → w ≠ s → is_Ret (received alpha s w).

(** The total interference at [w] from the other points of [W], rounded to
    3 decimal digits, is at least [beta]. *)
Definition triggers alpha beta W (w : point F) : Prop :=
  ∃ en, interference_spec alpha (filter (λ s, s ≠ w) W) w = Ret en ∧
        fge (round3 en) beta = true.

(** The total interference at [w] from the other points of [W] has a value
    that, rounded to 3 decimal digits, is below [beta]. *)
Definition quiet alpha beta W (w : point F) : Prop :=
  ∃ en, interference_spec alpha (filter (λ s, s ≠ w) W) w = Ret en ∧
        fge (round3 en) beta = false.

(** The locations of the stations of [e], station [i] being at [S[i-1]]. *)
Definition stations S (e : list Z) : list (point F) :=
  omap (λ v, S !! Z.to_nat (v - 1)) e.

End WirelessSpec.

(** ** The hypergraph store: proofs *)

Section StoreProofs.
Context {loc F : Type}.
Implicit Types (H : Hypergraph loc) (w : World loc F) (e f : list Z)
  (out : list (line F)).

Lemma bind_Ret {S A B} (m : M S A) (k : A → M S B) s a s' :
  m s = (Ret a, s') → (m ≫= k) s = k a s'.
Proof. intros Hm. unfold mbind, M_bind. by rewrite Hm. Qed.

Lemma bind_Raise {S A B} (m : M S A) (k : A → M S B) s x s' :
  m s = (Raise x, s') → (m ≫= k) s = (Raise x, s').
Proof. intros Hm. unfold mbind, M_bind. by rewrite Hm. Qed.

Lemma elem_of_range a b k : k ∈ range a b ↔ a ≤ k < b.
Proof. unfold range. rewrite elem_of_seqZ. lia. Qed.

Lemma NoDup_range a b : NoDup (range a b).
Proof. apply NoDup_seqZ. Qed.

Lemma range_cons a b : a < b → range a b = a :: range (a + 1) b.
Proof.
  intros. unfold range. rewrite seqZ_cons by lia.
  f_equal. f_equal; lia.
Qed.

Lemma range_nil a b : b ≤ a → range a b = [].
Proof. intros. unfold range. apply seqZ_nil. lia. Qed.

Lemma length_sorted e : length (sorted e) = length e.
Proof. unfold sorted. by rewrite merge_sort_Permutation. Qed.

Lemma Sorted_sorted e : Sorted Z.le (sorted e).
Proof. unfold sorted. apply (Sorted_merge_sort Z.le). Qed.

Lemma issubset_spec e f : issubset e f = true ↔ e ⊆ f.
Proof.
  unfold issubset. rewrite forallb_forall.
  split.
  - intros Hall x Hx. apply list_elem_of_In, Hall in Hx.
    by apply bool_decide_eq_true in Hx.
  - intros Hsub x Hx. apply bool_decide_eq_true, Hsub. by apply list_elem_of_In.
Qed.

Lemma issubset_false e f : issubset e f = false ↔ ¬ e ⊆ f.
Proof. rewrite <- issubset_spec. by destruct (issubset e f). Qed.

Lemma init_lookup (l : list Z) (m : gmap Z (list (list Z))) k :
  foldl (λ E k, <[k := []]> E) m l !! k
  = if decide (k ∈ l) then Some [] else m !! k.
Proof.
  revert m. induction l as [|x l IH]; intros m; cbn [foldl].
  - case_decide; [set_solver | done].
  - rewrite IH. repeat case_decide; try set_solver.
    + assert (x = k) as -> by set_solver. by rewrite lookup_insert_eq.
    + rewrite lookup_insert_ne; [done | set_solver].
Qed.

Lemma Hypergraph_init_levels N : levels_ok (Hypergraph_init (loc:=loc) N).
Proof.
  intros k. simpl. rewrite init_lookup.
  destruct (decide (k ∈ range 0 (N + 1))) as [Hin|Hin];
    rewrite elem_of_range in Hin.
  - split; [lia | by eauto].
  - rewrite lookup_empty. split; [by intros [? ?] | lia].
Qed.

(** [max(e)] is an item of [e] that bounds the others. *)
Lemma py_max_spec e m :
  py_max e = Ret m → m ∈ e ∧ ∀ v, v ∈ e → v ≤ m.
Proof.
  destruct e as [|x xs]; [done|]. simpl. intros [= <-].
  assert (Hgen : ∀ l a,
    let r := foldl (λ m y, if m <? y then y else m) a l in
    (r = a ∨ r ∈ l) ∧ a ≤ r ∧ ∀ v, v ∈ l → v ≤ r).
  { induction l as [|y l IH]; intros a; simpl.
    - split; [by left | split; [lia | by intros v ?%elem_of_nil]].
    - destruct (IH (if a <? y then y else a)) as (Hr & Hle & Hall).
      destruct (Z.ltb_spec a y).
      + split; [right; apply elem_of_cons; destruct Hr; [by left | by right]|].
        split; [lia|]. intros v [-> | ?]%elem_of_cons; [lia | by apply Hall].
      + split; [destruct Hr; [by left | right; apply elem_of_cons; by right]|].
        split; [lia|]. intros v [-> | ?]%elem_of_cons; [lia | by apply Hall]. }
  destruct (Hgen xs x) as (Hr & Hle & Hall). split.
  - apply elem_of_cons. destruct Hr; [by left | by right].
  - intros v [-> | ?]%elem_of_cons; [lia | by apply Hall].
Qed.

Lemma py_max_nonempty e : e ≠ [] → ∃ m, py_max e = Ret m.
Proof. destruct e; [done | by eauto]. Qed.

Lemma py_max_gt e m N :
  py_max e = Ret m → (N <? m) = bool_decide (Exists (λ v, N < v) e).
Proof.
  intros (Hin & Hmax)%py_max_spec.
  destruct (Z.ltb_spec N m).
  - symmetry. apply bool_decide_eq_true, Exists_exists. eauto.
  - symmetry. apply bool_decide_eq_false. intros (v & Hv & ?)%Exists_exists.
    apply Hmax in Hv. lia.
Qed.

(** [addEdge] when it does not raise: the console gets the error line exactly
    when some id exceeds [N], and the sorted tuple is appended to its level
    unless it is there. *)
Lemma addEdge_run H out e :
  e ≠ [] → is_Some (E H !! Z.of_nat (length e)) →
  addEdge e (mkWorld H out)
  = (Ret tt, mkWorld (set_E (E_addEdge e) H) (out_addEdge (numVertices H) e out)).
Proof.
  intros Hne [Ek HEk]. unfold addEdge.
  destruct (py_max_nonempty e Hne) as [m Hm].
  rewrite length_sorted.
  erewrite bind_Ret; [|unfold lift; by rewrite Hm].
  erewrite bind_Ret; [|done]. cbn [self numVertices].
  rewrite (py_max_gt e m _ Hm). unfold out_addEdge.
  assert (Hget : ∀ o, getE (loc:=loc) (F:=F) (Z.of_nat (length e)) (mkWorld H o)
                      = (Ret Ek, mkWorld H o)).
  { intros o. unfold getE. cbn [self]. by rewrite HEk. }
  assert (Hrest : ∀ o : list (line F),
    (Ek0 ← getE (Z.of_nat (length e));
     if bool_decide (sorted e ∈ Ek0) then mret tt
     else Ek' ← getE (Z.of_nat (length e));
          setE (Z.of_nat (length e)) (Ek' ++ [sorted e])) (mkWorld H o)
    = (Ret tt, mkWorld (set_E (E_addEdge e) H) o)).
  { intros o. erewrite bind_Ret; [|apply Hget].
    unfold set_E, E_addEdge. rewrite HEk.
    destruct (decide (sorted e ∈ Ek)) as [Hin|Hin].
    - rewrite bool_decide_eq_true_2 by done. by destruct H.
    - rewrite bool_decide_eq_false_2 by done.
      erewrite bind_Ret; [|apply Hget]. done. }
  destruct (decide (Exists _ e)) as [Hex|Hex].
  - rewrite bool_decide_eq_true_2 by done.
    erewrite bind_Ret; [|done]. apply Hrest.
  - rewrite bool_decide_eq_false_2 by done.
    erewrite bind_Ret; [|done]. apply Hrest.
Qed.

Lemma addEdge_empty w : addEdge [] w = (Raise ValueError, w).
Proof. done. Qed.

Lemma addEdge_missing_level H out e :
  e ≠ [] → E H !! Z.of_nat (length e) = None →
  addEdge e (mkWorld H out)
  = (Raise KeyError, mkWorld H (out_addEdge (numVertices H) e out)).
Proof.
  intros Hne HEk. unfold addEdge.
  destruct (py_max_nonempty e Hne) as [m Hm].
  rewrite length_sorted.
  erewrite bind_Ret; [|unfold lift; by rewrite Hm].
  erewrite bind_Ret; [|done]. cbn [self numVertices].
  rewrite (py_max_gt e m _ Hm). unfold out_addEdge.
  assert (Hget : ∀ o : list (line F),
    getE (loc:=loc) (Z.of_nat (length e)) (mkWorld H o)
    = (Raise KeyError, mkWorld H o)).
  { intros o. unfold getE. cbn [self]. by rewrite HEk. }
  destruct (decide (Exists _ e)) as [Hex|Hex].
  - rewrite bool_decide_eq_true_2 by done.
    erewrite bind_Ret; [|done]. erewrite bind_Raise; [done | apply Hget].
  - rewrite bool_decide_eq_false_2 by done.
    erewrite bind_Ret; [|done]. erewrite bind_Raise; [done | apply Hget].
Qed.

Lemma set_E_id H : set_E (λ E0, E0) H = H.
Proof. by destruct H. Qed.

(** The object that any call of [addEdge] leaves behind. *)
Lemma addEdge_self H out e :
  self (addEdge e (mkWorld H out)).2
  = if decide (e = []) then H else set_E (E_addEdge e) H.
Proof.
  destruct (decide (e = [])) as [->|Hne]; [done|].
  destruct (E H !! Z.of_nat (length e)) as [Ek|] eqn:HEk.
  - by rewrite addEdge_run.
  - rewrite addEdge_missing_level by done. cbn [snd self].
    unfold set_E, E_addEdge. rewrite HEk. by destruct H.
Qed.

Lemma py_remove_elem {A} `{EqDecision A} (x : A) (l : list A) :
  x ∈ l → py_remove x l = Ret (remove_first x l).
Proof.
  induction l as [|y l IH]; [by intros ?%elem_of_nil|].
  intros Hin. simpl. destruct (decide (y = x)) as [|Hne]; [done|].
  rewrite IH; [done|]. apply elem_of_cons in Hin as [?|?]; [congruence | done].
Qed.

Lemma remove_first_sublist {A} `{EqDecision A} (x : A) (l : list A) :
  remove_first x l `sublist_of` l.
Proof.
  induction l as [|y l IH]; [done|]. simpl.
  destruct (decide (y = x)); [by apply sublist_cons | by apply sublist_skip].
Qed.

(** [removeEdge] raises only for a missing level, before it writes. *)
Lemma removeEdge_run H out e :
  removeEdge e (mkWorld H out)
  = (match E H !! Z.of_nat (length e) with
     | Some _ => Ret tt
     | None => Raise KeyError
     end,
     mkWorld (set_E (E_removeEdge e) H) out).
Proof.
  unfold removeEdge. rewrite length_sorted.
  unfold set_E, E_removeEdge.
  destruct (E H !! Z.of_nat (length e)) as [Ek|] eqn:HEk.
  - assert (Hget : getE (loc:=loc) (F:=F) (Z.of_nat (length e)) (mkWorld H out)
                   = (Ret Ek, mkWorld H out)).
    { unfold getE. cbn [self]. by rewrite HEk. }
    erewrite bind_Ret; [|apply Hget].
    destruct (decide (sorted e ∈ Ek)) as [Hin|Hin].
    + rewrite bool_decide_eq_true_2 by done.
      erewrite bind_Ret; [|apply Hget].
      erewrite bind_Ret; [|unfold lift; by rewrite py_remove_elem]. done.
    + rewrite bool_decide_eq_false_2 by done. by destruct H.
  - erewrite bind_Raise; [by destruct H|]. unfold getE. cbn [self]. by rewrite HEk.
Qed.

Lemma filter_issubset e (l : list (list Z)) :
  filter (λ f, issubset e f = false) l = filter (λ f, ¬ e ⊆ f) l.
Proof. apply list_filter_iff. intros f. apply issubset_false. Qed.

(** The loop of [removeSupersetsOf] over levels that exist. *)
Lemma removeSupersetsOf_loop e (levels : list Z) H out :
  (∀ i, i ∈ levels → is_Some (E H !! i)) →
  for_each levels (λ i,
    Ei ← getE i;
    if 1 <=? Z.of_nat (length Ei) then
      Ei' ← getE i;
      setE i (filter (λ f, issubset e f = false) Ei')
    else mret tt) (mkWorld H out)
  = (Ret tt, mkWorld (set_E (E_prune e levels) H) out).
Proof.
  revert H. induction levels as [|i levels IH]; intros H Hkeys.
  - simpl. by rewrite set_E_id.
  - destruct (Hkeys i) as [Ei HEi]; [by left|].
    cbn [for_each].
    assert (Hget : getE (loc:=loc) (F:=F) i (mkWorld H out)
                   = (Ret Ei, mkWorld H out)).
    { unfold getE. cbn [self]. by rewrite HEi. }
    erewrite bind_Ret; cycle 1.
    { erewrite bind_Ret; [|apply Hget].
      instantiate (1 := mkWorld (set_E (alter (filter (λ f, ¬ e ⊆ f)) i) H) out).
      instantiate (1 := tt).
      destruct (Z.leb_spec 1 (Z.of_nat (length Ei))).
      - erewrite bind_Ret; [|apply Hget].
        unfold setE, modify, on_self, set_E. cbn [self stdout].
        rewrite filter_issubset. do 3 f_equal.
        apply map_eq. intros j. destruct (decide (i = j)) as [<-|].
        + by rewrite lookup_insert_eq, lookup_alter_eq, HEi.
        + by rewrite lookup_insert_ne, lookup_alter_ne.
      - destruct Ei; [|simpl in *; lia].
        unfold set_E. replace (alter _ i (E H)) with (E H); [by destruct H|].
        apply map_eq. intros j. destruct (decide (i = j)) as [<-|].
        + by rewrite lookup_alter_eq, HEi.
        + by rewrite lookup_alter_ne. }
    rewrite IH.
    + by destruct H.
    + intros j Hj. cbn [E set_E]. rewrite lookup_alter.
      case_decide; [subst; rewrite HEi; by eauto | apply Hkeys; by right].
Qed.

Lemma removeSupersetsOf_run H out e :
  levels_ok H →
  removeSupersetsOf e (mkWorld H out)
  = (Ret tt,
     mkWorld (set_E (E_prune e (range (Z.of_nat (length e) + 1)
                                      (numVertices H + 1))) H) out).
Proof.
  intros Hok. unfold removeSupersetsOf.
  erewrite bind_Ret; [|done]. cbn [self].
  apply removeSupersetsOf_loop. intros i Hi%elem_of_range. apply Hok. lia.
Qed.

Lemma E_prune_lookup e (levels : list Z) E0 i :
  NoDup levels →
  E_prune e levels E0 !! i
  = if decide (i ∈ levels) then filter (λ f, ¬ e ⊆ f) <$> E0 !! i else E0 !! i.
Proof.
  unfold E_prune. revert E0.
  induction levels as [|j levels IH]; intros E0 Hnd; cbn [foldl].
  - by rewrite decide_False by apply not_elem_of_nil.
  - apply NoDup_cons in Hnd as [Hj Hnd]. rewrite IH by done.
    destruct (decide (i = j)) as [->|Hne].
    + rewrite decide_False by done. rewrite decide_True by (by left).
      apply lookup_alter_eq.
    + rewrite lookup_alter_ne by done.
      destruct (decide (i ∈ levels)).
      * by rewrite decide_True by (by right).
      * rewrite decide_False; [done|]. by intros [?|?]%elem_of_cons.
Qed.

End StoreProofs.

(** ** The hypergraph store: properties *)

Section StoreClaims.
Context {loc F : Type}.
Implicit Types (H : Hypergraph loc) (w : World loc F) (e f : list Z)
  (out : list (line F)).

Lemma isIndependentSet_levels_spec H (J levels : list Z) :
  (∀ i, i ∈ levels → is_Some (E H !! i)) →
  ∃ b, isIndependentSet_levels H J levels = Ret b ∧
       (b = true ↔
        ∀ i Ei edge, i ∈ levels → E H !! i = Some Ei → edge ∈ Ei → ¬ edge ⊆ J).
Proof.
  induction levels as [|i levels IH]; intros Hkeys.
  - exists true. split; [done|]. split; [|done].
    intros _ i Ei edge Hi. by apply elem_of_nil in Hi.
  - destruct (Hkeys i) as [Ei HEi]; [by left|]. cbn [isIndependentSet_levels].
    rewrite HEi.
    destruct (existsb (λ edge, issubset edge J) Ei) eqn:Hex.
    + exists false. split; [done|]. split; [done|]. intros Hall.
      apply existsb_exists in Hex as (edge & Hin%list_elem_of_In & Hsub).
      apply issubset_spec in Hsub.
      exfalso. by eapply (Hall i Ei edge); [left | | |].
    + destruct IH as (b & Hb & Hspec); [intros; apply Hkeys; by right|].
      exists b. split; [done|]. rewrite Hspec. split.
      * intros Hall j Ej edge [->|Hj]%elem_of_cons HEj Hedge.
        -- assert (Ej = Ei) as -> by congruence.
           intros Hsub%issubset_spec.
           assert (existsb (λ edge, issubset edge J) Ei = true); [|congruence].
           apply existsb_exists. exists edge.
           split; [by apply list_elem_of_In | done].
        -- by eapply Hall.
      * intros Hall j Ej edge Hj. apply Hall. by right.
Qed.

(** C5: on a hypergraph with its level sets [0..N], for a set [J] of at most
    [N] vertices, [isIndependentSet(J)] returns, and it returns [True]
    exactly when no edge of the level sets of cardinality 1 up to [|J|] is
    a subset of [J]. *)
Theorem isIndependentSet_correct H (J : list Z) :
  levels_ok H → Z.of_nat (length J) ≤ numVertices H →
  ∃ b, isIndependentSet H J = Ret b ∧
       (b = true ↔
        ∀ i Ei edge,
          1 ≤ i ≤ Z.of_nat (length J) → E H !! i = Some Ei → edge ∈ Ei →
          ¬ edge ⊆ J).
Proof.
  intros Hok HJ. unfold isIndependentSet.
  destruct (isIndependentSet_levels_spec H J
              (range 1 (Z.of_nat (length J) + 1))) as (b & Hb & Hspec).
  { intros i Hi%elem_of_range. apply Hok. lia. }
  exists b. split; [done|]. rewrite Hspec. split.
  - intros Hall i Ei edge Hi. apply Hall. apply elem_of_range. lia.
  - intros Hall i Ei edge Hi%elem_of_range. apply Hall. lia.
Qed.

(** C4: [removeSupersetsOf(e)] returns; afterwards every level set [E[i]]
    with [i > |e|] holds exactly its previous edges that are not supersets
    of [e], in their previous order, and the level sets [E[i]] with
    [i <= |e|], the vertices, the locations and the console are as before. *)
Theorem removeSupersetsOf_post H out e :
  levels_ok H →
  ∃ H',
    removeSupersetsOf e (mkWorld H out) = (Ret tt, mkWorld H' out) ∧
    numVertices H' = numVertices H ∧ V H' = V H ∧ location H' = location H ∧
    ∀ i, E H' !! i =
         if decide (Z.of_nat (length e) < i)
         then filter (λ f, ¬ e ⊆ f) <$> E H !! i
         else E H !! i.
Proof.
  intros Hok. eexists. split; [by apply removeSupersetsOf_run|].
  do 3 (split; [done|]). intros i. cbn [E set_E].
  rewrite E_prune_lookup by apply NoDup_range.
  destruct (decide (i ∈ range _ _)) as [Hi|Hi]; rewrite elem_of_range in Hi.
  - by rewrite decide_True by lia.
  - destruct (decide (Z.of_nat (length e) < i)); [|done].
    assert (E H !! i = None) as ->; [|done].
    apply eq_None_not_Some. intros ?%Hok. lia.
Qed.

Lemma E_prune_levels_ok H e (levels : list Z) :
  levels_ok H → levels_ok (set_E (E_prune e levels) H).
Proof.
  intros Hok k. unfold levels_ok in Hok.
  cbn [E numVertices set_E]. rewrite <- Hok. unfold E_prune.
  generalize (E H). induction levels as [|i levels IH]; intros E0; [done|].
  cbn [foldl]. rewrite IH, lookup_alter. case_decide; [subst|done].
  by rewrite fmap_is_Some.
Qed.

(** C8: a second [removeSupersetsOf(e)] right after the first leaves the
    hypergraph as the first left it. *)
Theorem removeSupersetsOf_idempotent H out e :
  levels_ok H →
  ∃ w', removeSupersetsOf e (mkWorld H out) = (Ret tt, w') ∧
        removeSupersetsOf e w' = (Ret tt, w').
Proof.
  intros Hok. eexists. split; [by apply removeSupersetsOf_run|].
  set (levels := range _ _).
  rewrite removeSupersetsOf_run by by apply E_prune_levels_ok.
  cbn [numVertices set_E]. fold levels. do 2 f_equal.
  unfold set_E. cbn [numVertices V E location]. f_equal.
  apply map_eq. intros i.
  rewrite !E_prune_lookup by apply NoDup_range.
  case_decide; [|done]. rewrite <- option_fmap_compose.
  apply option_fmap_ext. intros l. simpl.
  rewrite list_filter_filter. apply list_filter_iff. tauto.
Qed.

(** C10: on a hypergraph with its level sets [0..N], [addEdge] raises
    [ValueError] for the empty list and [KeyError] for a list of more than
    [N] entries, and returns for a non-empty list of at most [N] entries. *)
Theorem addEdge_not_total H out :
  levels_ok H →
  (addEdge [] (mkWorld H out)).1 = Raise ValueError ∧
  (∀ e, e ≠ [] → numVertices H < Z.of_nat (length e) →
        (addEdge e (mkWorld H out)).1 = Raise KeyError) ∧
  (∀ e, e ≠ [] → Z.of_nat (length e) ≤ numVertices H →
        (addEdge e (mkWorld H out)).1 = Ret tt).
Proof.
  intros Hok. split; [done|]. split; intros e Hne Hlen.
  - rewrite addEdge_missing_level; [done..|].
    apply eq_None_not_Some. intros ?%Hok. lia.
  - rewrite addEdge_run; [done..|]. apply Hok. lia.
Qed.

(** C7, as the code has it: for a non-empty list [e] of at most [N] entries
    [addEdge(e)] returns; it prints the error line exactly when some id of
    [e] is greater than [N] (an id below 1 is not looked for); and, whether
    or not the line was printed, it appends the sorted tuple to
    [E[len(e)]] unless the tuple is there already, leaving everything else
    of the hypergraph as it was. *)
Theorem addEdge_reports_endpoint_above_N H out e :
  levels_ok H → e ≠ [] → Z.of_nat (length e) ≤ numVertices H →
  ∃ Ek H',
    E H !! Z.of_nat (length e) = Some Ek ∧
    addEdge e (mkWorld H out)
    = (Ret tt,
       mkWorld H' (if decide (Exists (λ v, numVertices H < v) e)
                   then out ++ [ErrorEndpoint] else out)) ∧
    numVertices H' = numVertices H ∧ V H' = V H ∧ location H' = location H ∧
    E H' = if decide (sorted e ∈ Ek) then E H
           else <[Z.of_nat (length e) := Ek ++ [sorted e]]> (E H).
Proof.
  intros Hok Hne Hlen.
  destruct (proj2 (Hok (Z.of_nat (length e)))) as [Ek HEk]; [lia|].
  exists Ek. eexists. split; [done|]. split; [by apply addEdge_run|].
  do 3 (split; [done|]). cbn [E set_E]. unfold E_addEdge. by rewrite HEk.
Qed.

Lemma Forall_subset {A} (P : A → Prop) (l1 l2 : list A) :
  l1 ⊆ l2 → Forall P l2 → Forall P l1.
Proof. rewrite !Forall_forall. intros Hsub Hall x Hx. by apply Hall, Hsub. Qed.

Lemma filter_subset {A} (P : A → Prop) `{∀ x, Decision (P x)} (l : list A) :
  filter P l ⊆ l.
Proof. by intros x [_ ?]%list_elem_of_filter. Qed.

Lemma set_E_levels_ok H (g : gmap Z (list (list Z)) → gmap Z (list (list Z))) :
  (∀ k, is_Some (g (E H) !! k) ↔ is_Some (E H !! k)) →
  levels_ok H → levels_ok (set_E g H).
Proof.
  intros Hg Hok k. unfold levels_ok in Hok. cbn [E numVertices set_E].
  by rewrite Hg.
Qed.

Lemma E_addEdge_keys e (E0 : gmap Z (list (list Z))) k :
  is_Some (E_addEdge e E0 !! k) ↔ is_Some (E0 !! k).
Proof.
  unfold E_addEdge. destruct (E0 !! Z.of_nat (length e)) eqn:HEk; [|done].
  case_decide; [done|]. rewrite lookup_insert. case_decide; [subst|done].
  rewrite HEk. split; by eauto.
Qed.

Lemma E_removeEdge_keys e (E0 : gmap Z (list (list Z))) k :
  is_Some (E_removeEdge e E0 !! k) ↔ is_Some (E0 !! k).
Proof.
  unfold E_removeEdge. destruct (E0 !! Z.of_nat (length e)) eqn:HEk; [|done].
  case_decide; [|done]. rewrite lookup_insert. case_decide; [subst|done].
  rewrite HEk. split; by eauto.
Qed.

Lemma E_addEdge_sorted H e :
  levels_sorted H → levels_sorted (set_E (E_addEdge e) H).
Proof.
  intros Hs k Ek. cbn [E set_E]. unfold E_addEdge.
  destruct (E H !! Z.of_nat (length e)) as [El|] eqn:HEl; [|by apply Hs].
  case_decide as Hin; [by apply Hs|]. rewrite lookup_insert.
  case_decide as Hk; [|by apply Hs]. intros [= <-]. subst k.
  destruct (Hs _ _ HEl) as [Hnd Hall]. split.
  - apply NoDup_app. split; [done|]. split; [|apply NoDup_singleton].
    intros x Hx ->%list_elem_of_singleton. done.
  - apply Forall_app. split; [done|]. apply Forall_singleton.
    split; [apply Sorted_sorted | by rewrite length_sorted].
Qed.

Lemma E_removeEdge_sorted H e :
  levels_sorted H → levels_sorted (set_E (E_removeEdge e) H).
Proof.
  intros Hs k Ek. cbn [E set_E]. unfold E_removeEdge.
  destruct (E H !! Z.of_nat (length e)) as [El|] eqn:HEl; [|by apply Hs].
  case_decide as Hin; [|by apply Hs]. rewrite lookup_insert.
  case_decide as Hk; [|by apply Hs]. intros [= <-]. subst k.
  destruct (Hs _ _ HEl) as [Hnd Hall].
  pose proof (remove_first_sublist (sorted e) El) as Hsub. split.
  - by eapply sublist_NoDup.
  - by eapply Forall_subset; [apply sublist_subseteq|].
Qed.

Lemma E_prune_sorted H e (levels : list Z) :
  NoDup levels → levels_sorted H → levels_sorted (set_E (E_prune e levels) H).
Proof.
  intros Hl Hs k Ek. cbn [E set_E]. rewrite E_prune_lookup by done.
  case_decide; [|by apply Hs].
  destruct (E H !! k) as [El|] eqn:HEl; [|done]. intros [= <-].
  destruct (Hs _ _ HEl) as [Hnd Hall]. split.
  - by apply NoDup_filter.
  - by eapply Forall_subset; [apply filter_subset|].
Qed.

Lemma E_addEdge_distinct H e :
  NoDup e → edges_distinct H → edges_distinct (set_E (E_addEdge e) H).
Proof.
  intros He Hd k Ek f. cbn [E set_E]. unfold E_addEdge.
  destruct (E H !! Z.of_nat (length e)) as [El|] eqn:HEl; [|by apply Hd].
  case_decide as Hin; [by apply Hd|]. rewrite lookup_insert.
  case_decide as Hk; [|by apply Hd]. intros [= <-]. subst k.
  intros [Hf| ->%list_elem_of_singleton]%elem_of_app; [by eapply Hd|].
  unfold sorted. by rewrite merge_sort_Permutation.
Qed.

Lemma E_removeEdge_distinct H e :
  edges_distinct H → edges_distinct (set_E (E_removeEdge e) H).
Proof.
  intros Hd k Ek f. cbn [E set_E]. unfold E_removeEdge.
  destruct (E H !! Z.of_nat (length e)) as [El|] eqn:HEl; [|by apply Hd].
  case_decide as Hin; [|by apply Hd]. rewrite lookup_insert.
  case_decide as Hk; [|by apply Hd]. intros [= <-]. subst k.
  intros Hf. eapply Hd; [done|].
  by eapply sublist_subseteq; [apply remove_first_sublist|].
Qed.

Lemma E_prune_distinct H e (levels : list Z) :
  NoDup levels → edges_distinct H → edges_distinct (set_E (E_prune e levels) H).
Proof.
  intros Hl Hd k Ek f. cbn [E set_E]. rewrite E_prune_lookup by done.
  case_decide; [|by apply Hd].
  destruct (E H !! k) as [El|] eqn:HEl; [|done]. intros [= <-].
  intros [_ Hf]%list_elem_of_filter. by eapply Hd.
Qed.

(** One call, raising or not, keeps the shape of the level sets. *)
Lemma do_call_invariant H out (c : call) :
  let H' := self (do_call (F:=F) c (mkWorld H out)).2 in
  levels_ok H → levels_sorted H →
  levels_ok H' ∧ levels_sorted H' ∧
  (distinct_arg c → edges_distinct H → edges_distinct H') ∧
  numVertices H' = numVertices H.
Proof.
  intros H' Hok Hs. subst H'. destruct c as [e|e|e]; cbn [do_call].
  - rewrite addEdge_self. case_decide; [done|].
    split; [apply set_E_levels_ok; [apply E_addEdge_keys | done]|].
    split; [by apply E_addEdge_sorted|].
    split; [|done]. intros Hne. by apply E_addEdge_distinct.
  - rewrite removeEdge_run. cbn [snd self].
    split; [apply set_E_levels_ok; [apply E_removeEdge_keys | done]|].
    split; [by apply E_removeEdge_sorted|].
    split; [|done]. intros _. by apply E_removeEdge_distinct.
  - rewrite removeSupersetsOf_run by done. cbn [snd self].
    split; [by apply E_prune_levels_ok|].
    split; [apply E_prune_sorted; [apply NoDup_range | done]|].
    split; [|done]. intros _. apply E_prune_distinct. apply NoDup_range.
Qed.

Lemma Hypergraph_init_lookup N k Ek :
  E (Hypergraph_init (loc:=loc) N) !! k = Some Ek → Ek = [].
Proof.
  simpl. rewrite init_lookup. case_decide; [by intros [= <-]|].
  by rewrite lookup_empty.
Qed.

(** C9, as the code has it: from [Hypergraph(N)], after any sequence of
    [addEdge], [removeEdge] and [removeSupersetsOf] calls with arbitrary
    lists of ids, every element of [E[k]] is a sorted tuple of exactly [k]
    ids and no level set holds a tuple twice; the ids of every stored tuple
    are pairwise distinct when every list given to [addEdge] has pairwise
    distinct ids. *)
Theorem level_sets_well_formed (N : Z) out (cs : list call) :
  let H := self (after_calls cs (mkWorld (Hypergraph_init (loc:=loc) N) out)) in
  (∀ k Ek, E H !! k = Some Ek →
     NoDup Ek ∧
     Forall (λ e, Sorted Z.le e ∧ Z.of_nat (length e) = k) Ek) ∧
  (Forall distinct_arg cs →
   ∀ k Ek e, E H !! k = Some Ek → e ∈ Ek → NoDup e).
Proof.
  cbn zeta.
  assert (Hinv : levels_ok (self (after_calls cs (mkWorld (Hypergraph_init (loc:=loc) N) out)))
    ∧ levels_sorted (self (after_calls cs (mkWorld (Hypergraph_init (loc:=loc) N) out)))
    ∧ (Forall distinct_arg cs →
       edges_distinct (self (after_calls cs (mkWorld (Hypergraph_init (loc:=loc) N) out))))).
  { induction cs as [|c cs IH] using rev_ind.
    - split; [apply Hypergraph_init_levels|]. split.
      + intros k Ek ->%Hypergraph_init_lookup. split; [apply NoDup_nil_2 | done].
      + intros _ k Ek e ->%Hypergraph_init_lookup. by intros ?%elem_of_nil.
    - unfold after_calls in *. rewrite foldl_app. cbn [foldl].
      destruct IH as (Hok & Hs & Hd).
      destruct (foldl _ _ cs) as [H0 out0]. cbn [self] in *.
      destruct (do_call_invariant H0 out0 c Hok Hs) as (? & ? & Hd' & _).
      split; [done|]. split; [done|].
      intros Hall. apply Forall_app in Hall as [Hcs Hc].
      apply Hd'; [by eapply Forall_inv | by apply Hd]. }
  destruct Hinv as (_ & Hs & Hd). split; [exact Hs | exact Hd].
Qed.

End StoreClaims.

(** ** The hypergraph store on concrete inputs *)

(** C7, an id below 1 goes unreported: on one vertex, [addEdge([0])] prints
    nothing and stores the tuple [(0,)]. *)
Lemma addEdge_id_below_one_unreported :
  Exists (λ v, ¬ 1 ≤ v ≤ 1) [0] ∧
  addEdge [0] (mkWorld (Hypergraph_init (loc:=unit) 1) ([] : list (line unit)))
  = (Ret tt, mkWorld (set_E (insert 1 [[0]]) (Hypergraph_init 1)) []).
Proof. split; [apply Exists_cons_hd; lia | by vm_compute]. Qed.

Lemma addEdge_reports_endpoint_above_N_witness :
  ∃ Ek (H' : Hypergraph unit),
    E (Hypergraph_init (loc:=unit) 2) !! 1 = Some Ek ∧
    addEdge [5] (mkWorld (Hypergraph_init 2) ([] : list (line unit)))
    = (Ret tt, mkWorld H' [ErrorEndpoint]) ∧
    numVertices H' = 2 ∧ V H' = [1; 2] ∧ location H' = ∅ ∧
    E H' = if decide ([5] ∈ Ek) then E (Hypergraph_init (loc:=unit) 2)
           else <[1 := Ek ++ [[5]]]> (E (Hypergraph_init (loc:=unit) 2)).
Proof.
  apply (addEdge_reports_endpoint_above_N
           (Hypergraph_init 2) [] [5] (Hypergraph_init_levels 2));
    [done | simpl; lia].
Defined.

(** C9, repeated ids are stored: on two vertices, [addEdge([1,1])] puts the
    tuple [(1,1)] in [E[2]]. *)
Lemma addEdge_stores_repeated_ids :
  E (self (after_calls [CallAddEdge [1; 1]]
             (mkWorld (Hypergraph_init (loc:=unit) 2) ([] : list (line unit)))))
    !! 2 = Some [[1; 1]] ∧
  ¬ NoDup [1; 1].
Proof.
  split; [by vm_compute|].
  intros [Hin _]%NoDup_cons. apply Hin. by left.
Qed.

Lemma level_sets_well_formed_witness :
  let H := self (after_calls
                   [CallAddEdge [2; 1]; CallAddEdge [1; 2]; CallAddEdge [3; 1; 2];
                    CallRemoveSupersetsOf [1]; CallAddEdge [2]; CallRemoveEdge [2]]
                   (mkWorld (Hypergraph_init (loc:=unit) 3)
                            ([] : list (line unit)))) in
  (∀ k Ek, E H !! k = Some Ek →
     NoDup Ek ∧ Forall (λ e, Sorted Z.le e ∧ Z.of_nat (length e) = k) Ek) ∧
  ∀ k Ek e, E H !! k = Some Ek → e ∈ Ek → NoDup e.
Proof.
  intros H.
  destruct (level_sets_well_formed (loc:=unit) (F:=unit) 3 []
    [CallAddEdge [2; 1]; CallAddEdge [1; 2]; CallAddEdge [3; 1; 2];
     CallRemoveSupersetsOf [1]; CallAddEdge [2]; CallRemoveEdge [2]])
    as [Hs Hd].
  split; [exact Hs|]. apply Hd. clear.
  repeat (apply Forall_cons; split; [cbn [distinct_arg]|]);
    [..|apply Forall_nil_2]; try exact I;
    repeat (apply NoDup_cons; split; [set_solver|]); apply NoDup_nil_2.
Defined.

Lemma removeSupersetsOf_post_witness :
  levels_ok (set_E (E_addEdge [1; 2]) (Hypergraph_init (loc:=unit) 2)) ∧
  ∃ H' : Hypergraph unit,
    removeSupersetsOf [1]
      (mkWorld (set_E (E_addEdge [1; 2]) (Hypergraph_init 2))
               ([] : list (line unit)))
    = (Ret tt, mkWorld H' []) ∧
    numVertices H' = 2 ∧ V H' = [1; 2] ∧ location H' = ∅ ∧
    ∀ i, E H' !! i =
         if decide (1 < i)
         then filter (λ f, ¬ [1] ⊆ f)
                <$> E (set_E (E_addEdge [1; 2]) (Hypergraph_init (loc:=unit) 2)) !! i
         else E (set_E (E_addEdge [1; 2]) (Hypergraph_init (loc:=unit) 2)) !! i.
Proof.
  assert (Hok : levels_ok (set_E (E_addEdge [1; 2]) (Hypergraph_init (loc:=unit) 2))).
  { apply set_E_levels_ok; [apply E_addEdge_keys | apply Hypergraph_init_levels]. }
  split; [exact Hok|].
  apply (removeSupersetsOf_post _ ([] : list (line unit)) [1] Hok).
Defined.

Lemma removeSupersetsOf_idempotent_witness :
  levels_ok (set_E (E_addEdge [1; 2]) (Hypergraph_init (loc:=unit) 2)) ∧
  ∃ w' : World unit unit,
    removeSupersetsOf [1]
      (mkWorld (set_E (E_addEdge [1; 2]) (Hypergraph_init 2))
               ([] : list (line unit)))
    = (Ret tt, w') ∧
    removeSupersetsOf [1] w' = (Ret tt, w').
Proof.
  assert (Hok : levels_ok (set_E (E_addEdge [1; 2]) (Hypergraph_init (loc:=unit) 2))).
  { apply set_E_levels_ok; [apply E_addEdge_keys | apply Hypergraph_init_levels]. }
  split; [exact Hok|].
  apply (removeSupersetsOf_idempotent _ ([] : list (line unit)) [1] Hok).
Defined.

Lemma isIndependentSet_correct_witness :
  levels_ok (set_E (E_addEdge [1; 2]) (Hypergraph_init (loc:=unit) 3)) ∧
  Z.of_nat (length [1; 3]) ≤ 3 ∧
  ∃ b,
    isIndependentSet (set_E (E_addEdge [1; 2]) (Hypergraph_init (loc:=unit) 3))
      [1; 3] = Ret b ∧
    (b = true ↔
     ∀ i Ei edge,
       1 ≤ i ≤ Z.of_nat (length [1; 3]) →
       E (set_E (E_addEdge [1; 2]) (Hypergraph_init (loc:=unit) 3)) !! i = Some Ei →
       edge ∈ Ei → ¬ edge ⊆ [1; 3]).
Proof.
  assert (Hok : levels_ok (set_E (E_addEdge [1; 2]) (Hypergraph_init (loc:=unit) 3))).
  { apply set_E_levels_ok; [apply E_addEdge_keys | apply Hypergraph_init_levels]. }
  split; [exact Hok|]. split; [simpl; lia|].
  apply (isIndependentSet_correct _ [1; 3] Hok). simpl. lia.
Defined.

Lemma addEdge_not_total_witness :
  levels_ok (Hypergraph_init (loc:=unit) 1) ∧
  (addEdge [] (mkWorld (Hypergraph_init (loc:=unit) 1) ([] : list (line unit)))).1
  = Raise ValueError ∧
  (addEdge [1; 1] (mkWorld (Hypergraph_init (loc:=unit) 1) ([] : list (line unit)))).1
  = Raise KeyError ∧
  (addEdge [1] (mkWorld (Hypergraph_init (loc:=unit) 1) ([] : list (line unit)))).1
  = Ret tt.
Proof.
  split; [apply Hypergraph_init_levels|].
  destruct (addEdge_not_total (Hypergraph_init (loc:=unit) 1)
              ([] : list (line unit)) (Hypergraph_init_levels 1))
    as (Hempty & Hlong & Hgood).
  split; [exact Hempty|]. split.
  - apply Hlong; [done | simpl; lia].
  - apply Hgood; [done | simpl; lia].
Defined.

(** ** The feasibility predicate: proofs *)

Section ForbiddenProofs.
Context {F : Type} `{PyNum F}.
Implicit Types (W S : list (point F)) (alpha beta : F).

Lemma py_remove_NoDup {A} `{EqDecision A} (x : A) (l : list A) :
  NoDup l → x ∈ l → py_remove x l = Ret (filter (λ y, y ≠ x) l).
Proof.
  induction l as [|y l IH]; [by intros _ ?%elem_of_nil|].
  intros [Hy Hnd]%NoDup_cons Hin. cbn [py_remove].
  destruct (decide (y = x)) as [->|Hne].
  - rewrite filter_cons_False by (by intros ?). f_equal. symmetry.
    clear IH Hnd Hin. induction l as [|z l IH]; [done|].
    apply not_elem_of_cons in Hy as [??].
    rewrite filter_cons_True by done. f_equal. by apply IH.
  - rewrite filter_cons_True by done. rewrite IH; [done..|].
    apply elem_of_cons in Hin as [?|?]; [congruence | done].
Qed.

Lemma Energy_Ret alpha W (w : point F) :
  (∀ s, s ∈ W → is_Ret (pathloss alpha s w)) → is_Ret (Energy alpha W w).
Proof.
  unfold Energy. generalize (of_Z 0).
  induction W as [|s W IH]; intros acc Hdef; [by eexists|].
  destruct (Hdef s) as [p Hp]; [by left|]. cbn [fold_outcome].
  unfold pathloss in Hp.
  destruct (EuclidDist s w) as [d|] eqn:Hd; [|done]. simpl in Hp.
  simpl. rewrite Hp. simpl. apply IH. intros. apply Hdef. by right.
Qed.

(** The program's [Energy] is the total interference. *)
Lemma Energy_spec alpha W (w : point F) :
  Energy alpha W w = interference_spec alpha W w.
Proof.
  unfold Energy, interference_spec. generalize (of_Z 0).
  induction W as [|s W IH]; intros acc; [done|].
  cbn [fold_outcome mapM].
  change (received alpha s w) with (EuclidDist s w ≫= λ d, fpow d (fneg alpha)).
  destruct (EuclidDist s w) as [d|]; [|done]. simpl.
  destruct (fpow d (fneg alpha)) as [p|]; [|done]. simpl.
  rewrite IH. by destruct (mapM _ W).
Qed.

Lemma received_defined_pathloss alpha W :
  received_defined alpha W ↔ pathloss_defined alpha W.
Proof. done. Qed.

Lemma short_not_triggers alpha beta W (w : point F) :
  fgt beta (of_Z 0) = true → (length W ≤ 1)%nat → w ∈ W →
  ¬ triggers alpha beta W w.
Proof.
  intros Hpos Hlen Hw (en & Hen & Hge). rewrite <- Energy_spec in Hen.
  destruct W as [|p [|q W]]; [by apply elem_of_nil in Hw | | simpl in Hlen; lia].
  apply list_elem_of_singleton in Hw as ->.
  rewrite filter_cons_False in Hen by (by intros ?).
  injection Hen as <-. by rewrite round3_zero, fge_zero_pos in Hge.
Qed.

(** The loop of [isForbidden] over the items [rest] of [W]: it returns at
    the first item that triggers. *)
Lemma isForbidden_from_spec alpha beta W (rest : list (point F)) :
  NoDup W → pathloss_defined alpha W → rest ⊆ W →
  ∃ b, isForbidden_from W rest alpha beta = Ret b ∧
       (b = true ↔ ∃ w, w ∈ rest ∧ triggers alpha beta W w) ∧
       (b = true →
        ∃ pre w post, rest = pre ++ w :: post ∧ triggers alpha beta W w ∧
                      ∀ u, u ∈ pre → ¬ triggers alpha beta W u).
Proof.
  intros Hnd Hdef. induction rest as [|w rest IH]; intros Hsub.
  - exists false. split; [done|]. split; [|done].
    split; [done|]. by intros (w & ?%elem_of_nil & _).
  - assert (Hw : w ∈ W) by (apply Hsub; by left).
    cbn [isForbidden_from]. rewrite py_remove_NoDup by done. simpl.
    destruct (Energy_Ret alpha (filter (λ s, s ≠ w) W) w) as [en Hen].
    { intros s [Hne Hs]%list_elem_of_filter. by apply Hdef. }
    rewrite Hen. simpl.
    destruct (fge (round3 en) beta) eqn:Hge.
    + exists true. split; [done|].
      assert (Ht : triggers alpha beta W w).
      { exists en. by rewrite <- Energy_spec. }
      split; [split; [|done]; intros _; exists w; split; [by left | done]|].
      intros _. exists [], w, rest. split; [done|]. split; [done|].
      by intros u ?%elem_of_nil.
    + assert (Hnt : ¬ triggers alpha beta W w).
      { intros (en' & Hen' & Hge'). rewrite <- Energy_spec in Hen'. congruence. }
      destruct IH as (b & Hb & Hiff & Hfirst).
      { intros u Hu. apply Hsub. by right. }
      exists b. split; [done|]. split.
      * rewrite Hiff. split.
        -- intros (u & Hu & Ht). exists u. split; [by right | done].
        -- intros (u & [->|Hu]%elem_of_cons & Ht); [done | by exists u].
      * intros Htrue. destruct (Hfirst Htrue) as (pre & u & post & -> & Ht & Hpre).
        exists (w :: pre), u, post. split; [done|]. split; [done|].
        intros v [->|Hv]%elem_of_cons; [done | by apply Hpre].
Qed.

Lemma isForbidden_short alpha beta W :
  NoDup W → pathloss_defined alpha W →
  fgt beta (of_Z 0) = true → (length W ≤ 1)%nat →
  isForbidden W alpha beta = Ret false.
Proof.
  intros Hnd Hdef Hpos Hlen.
  destruct (isForbidden_from_spec alpha beta W W Hnd Hdef)
    as (b & Hb & Hiff & _); [done|].
  unfold isForbidden. rewrite Hb. destruct b; [|done].
  destruct (proj1 Hiff eq_refl) as (w & Hw & Ht).
  by destruct (short_not_triggers alpha beta W w).
Qed.

(** The loop of [isForbidden] stops at a receiver that triggers when the
    receivers before it are quiet; it does not look at the ones after it. *)
Lemma isForbidden_from_quiet alpha beta W pre post (w : point F) :
  NoDup W → (∀ u, u ∈ pre → u ∈ W ∧ quiet alpha beta W u) →
  w ∈ W → triggers alpha beta W w →
  isForbidden_from W (pre ++ w :: post) alpha beta = Ret true.
Proof.
  intros Hnd Hpre Hw (en & Hen & Hge). induction pre as [|u pre IH].
  - cbn [app isForbidden_from]. rewrite py_remove_NoDup by done. simpl.
    rewrite Energy_spec, Hen. simpl. by rewrite Hge.
  - destruct (Hpre u) as (Hu & en' & Hen' & Hge'); [by left|].
    cbn [app isForbidden_from]. rewrite py_remove_NoDup by done. simpl.
    rewrite Energy_spec, Hen'. simpl. rewrite Hge'. apply IH.
    intros v Hv. apply Hpre. by right.
Qed.

(** C3: on pairwise distinct points, [isForbidden(W, alpha, beta)]
    - when the interference between any two points of [W] has a value:
      returns, and returns [True] exactly when for some [w] of [W] the sum
      over the other points [s] of [W] of [1 / dist(s,w)^alpha] (computed as
      [dist(s,w) ** (-alpha)] and added to 0 in the order of [W]), rounded to
      3 decimal digits, is at least [beta];
    - returns [True] at the first such [w] in the order of [W], when the
      interference at the points before it has a value that, rounded, is
      below [beta]: the points after [w] are not looked at, and nothing is
      asked of them;
    - for [beta > 0] returns [False] when [W] is empty or a singleton. *)
Theorem isForbidden_correct alpha beta W :
  NoDup W →
  (received_defined alpha W →
   ∃ b, isForbidden W alpha beta = Ret b ∧
        (b = true ↔ ∃ w, w ∈ W ∧ triggers alpha beta W w)) ∧
  (∀ pre w post,
     W = pre ++ w :: post →
     (∀ u, u ∈ pre → quiet alpha beta W u) → triggers alpha beta W w →
     isForbidden W alpha beta = Ret true) ∧
  (fgt beta (of_Z 0) = true → (length W ≤ 1)%nat →
   isForbidden W alpha beta = Ret false).
Proof.
  intros Hnd. split; [|split].
  - intros Hdef%received_defined_pathloss.
    destruct (isForbidden_from_spec alpha beta W W Hnd Hdef)
      as (b & Hb & Hiff & _); [done|].
    by exists b.
  - intros pre w post HW Hpre Hw. unfold isForbidden.
    rewrite HW at 2. apply isForbidden_from_quiet; [done | | |done].
    + intros u Hu. split; [|by apply Hpre].
      rewrite HW. apply elem_of_app. by left.
    + rewrite HW. apply elem_of_app. right. by left.
  - intros Hpos Hlen. apply isForbidden_short; [done | |done..].
    intros w s Hw Hs Hne. destruct W as [|p [|q W']]; [| |simpl in Hlen; lia].
    + by apply elem_of_nil in Hw.
    + apply list_elem_of_singleton in Hw, Hs. congruence.
Qed.

End ForbiddenProofs.

(** ** Combinations and sets of ids: proofs *)

Section ListFacts.
Context {A : Type}.
Implicit Types (l e f : list A) (k : nat).

Lemma elem_of_combinations l k e :
  e ∈ combinations l k ↔ e `sublist_of` l ∧ length e = k.
Proof.
  revert k e. induction l as [|x l IH]; intros [|k] e; cbn [combinations].
  - rewrite list_elem_of_singleton, sublist_nil_r. split; [by intros ->|].
    by intros [-> _].
  - rewrite sublist_nil_r. split; [by intros ?%elem_of_nil|]. by intros [-> ?].
  - rewrite list_elem_of_singleton. split.
    + intros ->. split; [apply sublist_nil_l | done].
    + intros [_ Hlen]. by destruct e.
  - rewrite elem_of_app, list_elem_of_fmap, sublist_cons_r. setoid_rewrite IH.
    split.
    + intros [(e' & -> & Hsub & Hlen) | [Hsub Hlen]].
      * split; [right; by exists e' | simpl; lia].
      * split; [by left | done].
    + intros [[Hsub | (e' & -> & Hsub)] Hlen].
      * by right.
      * left. exists e'. split; [done|]. split; [done|]. simpl in Hlen. lia.
Qed.

Lemma NoDup_combinations l k : NoDup l → NoDup (combinations l k).
Proof.
  revert k. induction l as [|x l IH]; intros [|k] Hnd; cbn [combinations].
  - apply NoDup_singleton.
  - apply NoDup_nil_2.
  - apply NoDup_singleton.
  - apply NoDup_cons in Hnd as [Hx Hnd]. apply NoDup_app. split; [|split].
    + apply (NoDup_fmap_2 _). by apply IH.
    + intros e (e' & -> & _)%list_elem_of_fmap [Hsub _]%elem_of_combinations.
      apply Hx. eapply sublist_subseteq; [done | by left].
    + by apply IH.
Qed.

Lemma StronglySorted_sublist (R : relation A) l1 l2 :
  l1 `sublist_of` l2 → StronglySorted R l2 → StronglySorted R l1.
Proof.
  induction 1 as [|x l1 l2 Hsub IH|x l1 l2 Hsub IH]; intros Hs.
  - done.
  - apply StronglySorted_inv in Hs as [Hs Hall]. constructor; [by apply IH|].
    eapply Forall_subset; [by apply sublist_subseteq | done].
  - apply StronglySorted_inv in Hs as [Hs _]. by apply IH.
Qed.

(** A set without repeated items inside a list of the same length fills it. *)
Lemma NoDup_subseteq_same_length `{EqDecision A} e f :
  NoDup e → e ⊆ f → (length f ≤ length e)%nat → f ⊆ e.
Proof.
  intros Hnd Hsub Hlen.
  assert (Hperm : e ≡ₚ f).
  { apply submseteq_length_Permutation; [by apply NoDup_submseteq | lia]. }
  intros x. by rewrite Hperm.
Qed.

Lemma NoDup_subseteq_length e f :
  NoDup e → e ⊆ f → (length e ≤ length f)%nat.
Proof. intros Hnd Hsub. by apply submseteq_length, NoDup_submseteq. Qed.

Lemma length_filter_ne `{EqDecision A} (x : A) l :
  NoDup l → x ∈ l →
  Datatypes.S (length (filter (λ y, y ≠ x) l)) = length l.
Proof.
  induction l as [|y l IH]; [by intros _ ?%elem_of_nil|].
  intros [Hy Hnd]%NoDup_cons Hin.
  destruct (decide (y = x)) as [->|Hne].
  - rewrite filter_cons_False by (by intros ?). simpl. f_equal.
    f_equal. clear IH Hnd Hin. induction l as [|z l IH]; [done|].
    apply not_elem_of_cons in Hy as [??].
    rewrite filter_cons_True by done. f_equal. by apply IH.
  - rewrite filter_cons_True by done. simpl. f_equal. apply IH; [done|].
    apply elem_of_cons in Hin as [?|?]; [congruence | done].
Qed.

End ListFacts.

Lemma StronglySorted_range a b : StronglySorted Z.le (range a b).
Proof.
  unfold range. destruct (Z.le_gt_cases (b - a) 0) as [Hle|Hgt].
  { rewrite seqZ_nil by done. constructor. }
  rewrite <- (Z2Nat.id (b - a)) by lia. generalize (Z.to_nat (b - a)) as n.
  clear Hgt. intros n. revert a. induction n as [|n IH]; intros a.
  { rewrite seqZ_nil by done. constructor. }
  rewrite seqZ_cons by lia. constructor.
  - replace (Z.pred (Z.of_nat (S n))) with (Z.of_nat n) by lia. apply IH.
  - apply Forall_seqZ. lia.
Qed.

Lemma sorted_Sorted e : StronglySorted Z.le e → sorted e = e.
Proof.
  intros Hs. unfold sorted.
  apply (Sorted_unique Z.le).
  - apply (Sorted_merge_sort Z.le).
  - by apply StronglySorted_Sorted.
  - apply merge_sort_Permutation.
Qed.

(** ** The generator: its effect on the level sets as a function *)

Section GeneratorSpec.
Context {F : Type} `{PyNum F}.
Variables (S : list (point F)) (alpha beta : F).

(** the answer of [isForbidden] on the stations of [W] *)
Definition forb (W : list Z) : bool :=
  match isForbidden (stations S W) alpha beta with
  | Ret b => b
  | Raise _ => false
  end.

(** a candidate of level [k]: [k] of the vertices [1..N], in increasing order *)
Definition cand (k : Z) (e : list Z) : Prop :=
  e `sublist_of` range 1 (Z.of_nat (length S) + 1) ∧ Z.of_nat (length e) = k.

(** the level sets after [removeSupersetsOf(W)] for each [W] of [temp] *)
Definition prune_all (levels : list Z) (temp : list (list Z))
    (E0 : gmap Z (list (list Z))) : gmap Z (list (list Z)) :=
  foldl (λ E1 W, E_prune W levels E1) E0 temp.

(** the level sets after the pass of the last loop over level [k] *)
Definition level_pass (k : Z) (E0 : gmap Z (list (list Z)))
    : gmap Z (list (list Z)) :=
  match E0 !! k with
  | Some Ek =>
      let temp := filter (λ W, forb W = true) Ek in
      <[k := temp]> (prune_all (range (k + 1) (Z.of_nat (length S) + 1)) temp E0)
  | None => E0
  end.

(** the locations after the first loop *)
Definition located (L : gmap Z (point F)) : Prop :=
  ∀ v, 1 ≤ v ≤ Z.of_nat (length S) → L !! v = S !! Z.to_nat (v - 1).

End GeneratorSpec.

(** ** The generator: proofs *)

Section GeneratorProofs.
Context {F : Type} {num : PyNum F}.
Variables (S : list (point F)) (alpha beta : F).
Implicit Types (H : Hypergraph (point F)) (out : list (line F))
  (e f W : list Z).

Abbreviation N := (Z.of_nat (length S)).

Lemma py_index_in_range {A} (l : list A) (i : Z) :
  0 ≤ i < Z.of_nat (length l) →
  ∃ a, l !! Z.to_nat i = Some a ∧ py_index l i = Ret a.
Proof.
  intros Hi. unfold py_index.
  destruct (Z.ltb_spec i 0); [lia|].
  destruct (Z.leb_spec 0 i); [|lia].
  destruct (Z.ltb_spec i (Z.of_nat (length l))); [|lia]. simpl.
  destruct (lookup_lt_is_Some_2 l (Z.to_nat i)) as [a Ha]; [lia|].
  exists a. by rewrite Ha.
Qed.

(** The first loop stores [S[i]] as the location of vertex [i+1]. *)
Lemma setLocation_loop (idx : list Z) H out :
  (∀ i, i ∈ idx → 0 ≤ i < N) →
  ∃ L, for_each idx (λ i, s ← lift (py_index S i); setLocation (i + 1) s)
         (mkWorld H out)
       = (Ret tt, mkWorld (set_location (λ _, L) H) out) ∧
       ∀ v, L !! v = if decide (v - 1 ∈ idx) then S !! Z.to_nat (v - 1)
                     else location H !! v.
Proof.
  revert H. induction idx as [|i idx IH]; intros H Hidx.
  - exists (location H). split; [by destruct H|].
    intros v. by rewrite decide_False by apply not_elem_of_nil.
  - destruct (py_index_in_range S i) as (s & Hs & Hpy); [apply Hidx; by left|].
    destruct (IH (set_location (insert (i + 1) s) H)) as (L & Hrun & HL).
    { intros. apply Hidx. by right. }
    exists L. split.
    + cbn [for_each]. erewrite bind_Ret; cycle 1.
      { erewrite bind_Ret; [|unfold lift; by rewrite Hpy]. done. }
      unfold on_self. cbn [self stdout]. rewrite Hrun. by destruct H.
    + intros v. rewrite HL. cbn [location set_location].
      destruct (decide (v - 1 ∈ idx)) as [Hin|Hin].
      * by rewrite decide_True by (by right).
      * destruct (decide (v - 1 = i)) as [<-|Hne].
        -- rewrite decide_True by (by left).
           replace (v - 1 + 1) with v by lia. by rewrite lookup_insert_eq.
        -- rewrite decide_False by (by intros [?|?]%elem_of_cons).
           rewrite lookup_insert_ne; [done | lia].
Qed.

(** [[H.getLocation(w) for w in W]] on vertices that have a location *)
Lemma getLocation_list H out W :
  located S (location H) → Forall (λ v, 1 ≤ v ≤ N) W →
  mapM getLocation W (mkWorld H out) = (Ret (stations S W), mkWorld H out).
Proof.
  intros Hloc. induction 1 as [|v W Hv HW IH]; [done|].
  destruct (lookup_lt_is_Some_2 S (Z.to_nat (v - 1))) as [s Hs]; [lia|].
  cbn [mapM]. erewrite bind_Ret; cycle 1.
  { unfold getLocation. cbn [self]. rewrite Hloc, Hs by done. done. }
  erewrite bind_Ret; [|apply IH].
  unfold stations. cbn [omap list_omap]. by rewrite Hs.
Qed.

Lemma addEdges_run H out k (L pre : list (list Z)) :
  E H !! k = Some pre →
  Forall (λ e, e ≠ [] ∧ Z.of_nat (length e) = k ∧ sorted e = e ∧
               Forall (λ v, v ≤ numVertices H) e) L →
  NoDup (pre ++ L) →
  addEdges (F:=F) L (mkWorld H out)
  = (Ret tt, mkWorld (set_E (insert k (pre ++ L)) H) out).
Proof.
  unfold addEdges. revert H pre.
  induction L as [|e L IH]; intros H pre Hpre Hall Hnd.
  - rewrite app_nil_r. unfold set_E. rewrite insert_id by done. by destruct H.
  - apply Forall_cons in Hall as [(Hne & Hlen & Hsorted & Hmax) Hall].
    assert (He : e ∉ pre).
    { apply NoDup_app in Hnd as (_ & Hdisj & _). intros Hin.
      apply (Hdisj e Hin). by left. }
    cbn [for_each]. erewrite bind_Ret; cycle 1.
    { apply addEdge_run; [done|]. rewrite Hlen, Hpre. by eexists. }
    assert (out_addEdge (numVertices H) e out = out) as ->.
    { unfold out_addEdge. rewrite decide_False; [done|].
      intros (v & Hv & Hgt)%Exists_exists.
      rewrite Forall_forall in Hmax. apply Hmax in Hv. lia. }
    assert (set_E (E_addEdge e) H = set_E (insert k (pre ++ [e])) H) as ->.
    { unfold set_E, E_addEdge. rewrite Hlen, Hpre, Hsorted.
      by rewrite decide_False by done. }
    rewrite (IH _ (pre ++ [e])).
    + unfold set_E. cbn [numVertices V E location].
      rewrite insert_insert_eq. by rewrite <- app_assoc.
    + cbn [E set_E]. by rewrite lookup_insert_eq.
    + done.
    + by rewrite <- app_assoc.
Qed.

Lemma cand_facts k e :
  cand S k e →
  StronglySorted Z.le e ∧ NoDup e ∧ Forall (λ v, 1 ≤ v ≤ N) e.
Proof.
  intros [Hsub _]. split; [|split].
  - eapply StronglySorted_sublist; [exact Hsub | apply StronglySorted_range].
  - eapply sublist_NoDup; [apply NoDup_range | exact Hsub].
  - apply Forall_forall. intros v Hv.
    apply (sublist_subseteq _ _ Hsub), elem_of_range in Hv. lia.
Qed.

(** The second loop fills level [k] with the combinations of size [k]. *)
Lemma candidates_loop (ks : list Z) H out :
  NoDup ks → (∀ k, k ∈ ks → 2 ≤ k) → numVertices H = N →
  (∀ k, k ∈ ks → E H !! k = Some []) →
  for_each ks (λ k, addEdges (F:=F)
                      (combinations (range 1 (N + 1)) (Z.to_nat k)))
    (mkWorld H out)
  = (Ret tt,
     mkWorld (set_E (λ E0, foldl (λ E1 k,
                <[k := combinations (range 1 (N + 1)) (Z.to_nat k)]> E1) E0 ks)
                H) out).
Proof.
  revert H. induction ks as [|k ks IH]; intros H Hnd Hks HN Hempty.
  - simpl. by rewrite set_E_id.
  - apply NoDup_cons in Hnd as [Hk Hnd].
    assert (2 ≤ k) by (apply Hks; by left).
    cbn [for_each]. erewrite bind_Ret; cycle 1.
    { apply (addEdges_run _ _ k _ []).
      - apply Hempty. by left.
      - apply Forall_forall. intros e [Hsub Hlen]%elem_of_combinations.
        assert (Hc : cand S k e) by (split; [done | lia]).
        destruct (cand_facts k e Hc) as (Hs & _ & Hr).
        split; [intros ->; simpl in Hlen; lia|]. split; [lia|].
        split; [by apply sorted_Sorted|].
        rewrite HN. eapply Forall_impl; [done|]. simpl. lia.
      - simpl. apply NoDup_combinations, NoDup_range. }
    simpl app. rewrite IH; [by destruct H | done | | done |].
    + intros. apply Hks. by right.
    + intros j Hj. cbn [E set_E]. rewrite lookup_insert_ne.
      * apply Hempty. by right.
      * intros ->. done.
Qed.

Lemma candidates_lookup (ks : list Z) (E0 : gmap Z (list (list Z))) j :
  foldl (λ E1 k, <[k := combinations (range 1 (N + 1)) (Z.to_nat k)]> E1) E0 ks
    !! j
  = if decide (j ∈ ks)
    then Some (combinations (range 1 (N + 1)) (Z.to_nat j)) else E0 !! j.
Proof.
  revert E0. induction ks as [|k ks IH]; intros E0; cbn [foldl].
  - by rewrite decide_False by apply not_elem_of_nil.
  - rewrite IH. destruct (decide (j ∈ ks)).
    + by rewrite decide_True by (by right).
    + destruct (decide (j = k)) as [->|Hne].
      * rewrite decide_True by (by left). by rewrite lookup_insert_eq.
      * rewrite decide_False by (by intros [?|?]%elem_of_cons).
        by rewrite lookup_insert_ne.
Qed.

(** The loop over the candidates [todo] of level [k]. *)
Lemma level_loop k (todo temp : list (list Z)) H out :
  levels_ok H → numVertices H = N → located S (location H) →
  Forall (cand S k) todo →
  Forall (λ W, is_Ret (isForbidden (stations S W) alpha beta)) todo →
  fold_M (λ temp W,
      stationsW ← mapM getLocation W;
      b ← lift (isForbidden stationsW alpha beta);
      if b : bool then removeSupersetsOf W ≫= λ _, mret (temp ++ [W])
      else mret temp) todo temp (mkWorld H out)
  = (Ret (temp ++ filter (λ W, forb S alpha beta W = true) todo),
     mkWorld (set_E (prune_all (range (k + 1) (N + 1))
                       (filter (λ W, forb S alpha beta W = true) todo)) H) out).
Proof.
  revert temp H. induction todo as [|W todo IH]; intros temp H Hok HN Hloc Hc Hdef.
  - simpl. rewrite app_nil_r. unfold prune_all. simpl. by rewrite set_E_id.
  - apply Forall_cons in Hc as [HW Hc]. apply Forall_cons in Hdef as [[b Hb] Hdef].
    destruct (cand_facts k W HW) as (_ & _ & Hr).
    assert (Hforb : forb S alpha beta W = b) by (unfold forb; by rewrite Hb).
    cbn [fold_M]. erewrite bind_Ret; cycle 1.
    { erewrite bind_Ret; [|by apply getLocation_list].
      erewrite bind_Ret; [|unfold lift; by rewrite Hb].
      instantiate (1 := mkWorld (if b then set_E (E_prune W (range (k + 1) (N + 1))) H
                                 else H) out).
      instantiate (1 := if b then temp ++ [W] else temp).
      destruct b; [|done].
      erewrite bind_Ret; [done|]. rewrite removeSupersetsOf_run by done.
      destruct HW as [_ ->]. by rewrite HN. }
    destruct b.
    + rewrite filter_cons_True by done. rewrite IH; try done.
      * by rewrite <- app_assoc.
      * by apply E_prune_levels_ok.
    + rewrite filter_cons_False by (rewrite Hforb; done). by rewrite IH.
Qed.

Lemma prune_all_lookup (levels : list Z) (temp : list (list Z)) E0 j :
  NoDup levels →
  prune_all levels temp E0 !! j
  = if decide (j ∈ levels)
    then filter (λ f, Forall (λ W, ¬ W ⊆ f) temp) <$> E0 !! j
    else E0 !! j.
Proof.
  intros Hnd. unfold prune_all. revert E0.
  induction temp as [|W temp IH]; intros E0; cbn [foldl].
  - case_decide; [|done]. destruct (E0 !! j) as [Ej|]; [|done]. simpl. f_equal.
    induction Ej as [|f Ej IHj]; [done|].
    rewrite filter_cons_True by constructor. by f_equal.
  - rewrite IH, E_prune_lookup by done. case_decide; [|done].
    destruct (E0 !! j) as [Ej|]; [|done]. simpl. f_equal.
    rewrite list_filter_filter. apply list_filter_iff. intros f.
    rewrite Forall_cons. tauto.
Qed.

Lemma level_pass_lookup k E0 Ek j :
  E0 !! k = Some Ek →
  level_pass S alpha beta k E0 !! j
  = if decide (j = k) then Some (filter (λ W, forb S alpha beta W = true) Ek)
    else if decide (j ∈ range (k + 1) (N + 1))
         then filter (λ f, Forall (λ W, ¬ W ⊆ f)
                        (filter (λ W, forb S alpha beta W = true) Ek))
                <$> E0 !! j
         else E0 !! j.
Proof.
  intros HEk. unfold level_pass. rewrite HEk. cbn zeta.
  destruct (decide (j = k)) as [->|Hne].
  - by rewrite lookup_insert_eq.
  - rewrite lookup_insert_ne by done. apply prune_all_lookup, NoDup_range.
Qed.

(** What the last loop keeps true of the object it works on. *)
Definition generating H : Prop :=
  levels_ok H ∧ numVertices H = N ∧ located S (location H) ∧
  ∀ k Ek e, E H !! k = Some Ek → e ∈ Ek → cand S k e.

Lemma level_pass_generating k H :
  generating H → generating (set_E (level_pass S alpha beta k) H).
Proof.
  intros (Hok & HN & Hloc & Hc). unfold levels_ok in Hok.
  destruct (E H !! k) as [Ek|] eqn:HEk; cycle 1.
  { unfold set_E, level_pass. rewrite HEk. by destruct H. }
  split; [|split; [done|split; [done|]]].
  - intros j. cbn [E numVertices set_E]. rewrite (level_pass_lookup _ _ Ek) by done.
    rewrite <- Hok. destruct (decide (j = k)) as [->|]; [rewrite HEk; split; by eauto|].
    case_decide; [by rewrite fmap_is_Some | done].
  - intros j Ej e. cbn [E set_E]. rewrite (level_pass_lookup _ _ Ek) by done.
    repeat case_decide; subst.
    + intros [= <-] [_ He]%list_elem_of_filter. by eapply Hc.
    + destruct (E H !! j) as [El|] eqn:HEl; [|done].
      intros [= <-] [_ He]%list_elem_of_filter. by eapply Hc.
    + apply Hc.
Qed.

(** The last loop, over the levels [ks]. *)
Lemma pruning_loop (ks : list Z) H out :
  generating H →
  (∀ k W, cand S k W → is_Ret (isForbidden (stations S W) alpha beta)) →
  (∀ k, k ∈ ks → 0 ≤ k ≤ N) →
  for_each ks (λ k,
    Ek ← getEdgesLevelSet k;
    temp ← fold_M (λ temp W,
      stationsW ← mapM getLocation W;
      b ← lift (isForbidden stationsW alpha beta);
      if b : bool then removeSupersetsOf W ≫= λ _, mret (temp ++ [W])
      else mret temp) Ek [];
    setLevelSet k temp) (mkWorld H out)
  = (Ret tt,
     mkWorld (set_E (λ E0, foldl (λ E1 k, level_pass S alpha beta k E1) E0 ks) H)
             out).
Proof.
  intros Hgen Hdef. revert H Hgen.
  induction ks as [|k ks IH]; intros H Hgen Hks.
  - simpl. by rewrite set_E_id.
  - pose proof Hgen as (Hok & HN & Hloc & Hc).
    destruct (proj2 (Hok k)) as [Ek HEk]; [rewrite HN; apply Hks; by left|].
    cbn [for_each]. erewrite bind_Ret; cycle 1.
    { erewrite bind_Ret; cycle 1.
      { unfold getEdgesLevelSet, getE. cbn [self]. by rewrite HEk. }
      erewrite bind_Ret; cycle 1.
      { apply (level_loop k); try done.
        - apply Forall_forall. intros e He. by eapply Hc.
        - apply Forall_forall. intros e He. eapply Hdef. by eapply Hc. }
      simpl app. unfold setLevelSet, setE, modify, on_self. cbn [self stdout].
      instantiate (1 := mkWorld (set_E (level_pass S alpha beta k) H) out).
      instantiate (1 := tt).
      unfold set_E, level_pass. cbn [numVertices V E location]. by rewrite HEk. }
    rewrite IH.
    + by destruct H.
    + by apply level_pass_generating.
    + intros. apply Hks. by right.
Qed.

Lemma omap_sublist {A B} (g : A → option B) (l1 l2 : list A) :
  l1 `sublist_of` l2 → omap g l1 `sublist_of` omap g l2.
Proof.
  induction 1 as [|x l1 l2 _ IH|x l1 l2 _ IH]; cbn [omap list_omap].
  - done.
  - destruct (g x); [by apply sublist_skip | done].
  - destruct (g x); [by apply sublist_cons | done].
Qed.

Lemma omap_ext_in {A B} (g1 g2 : A → option B) (l : list A) :
  (∀ x, x ∈ l → g1 x = g2 x) → omap g1 l = omap g2 l.
Proof.
  induction l as [|x l IH]; intros Hext; [done|]. cbn [omap list_omap].
  rewrite (Hext x) by (by left). rewrite IH; [done|].
  intros. apply Hext. by right.
Qed.

Lemma omap_lookup_seqZ {A} (l : list A) (a : Z) :
  omap (λ v, l !! Z.to_nat (v - a)) (seqZ a (Z.of_nat (length l))) = l.
Proof.
  revert a. induction l as [|x l IH]; intros a; [done|].
  rewrite seqZ_cons by (simpl; lia). cbn [omap list_omap].
  replace (Z.to_nat (a - a)) with 0%nat by lia. cbn [lookup list_lookup].
  f_equal. replace (Z.pred (Z.of_nat (length (x :: l))))
    with (Z.of_nat (length l)) by (simpl; lia).
  rewrite <- (IH (Z.succ a)) at 2. apply omap_ext_in.
  intros v Hv%elem_of_seqZ.
  replace (Z.to_nat (v - a)) with (Datatypes.S (Z.to_nat (v - Z.succ a))) by lia.
  done.
Qed.

Lemma stations_all : stations S (range 1 (N + 1)) = S.
Proof.
  unfold stations, range. replace (N + 1 - 1) with N by lia.
  apply omap_lookup_seqZ.
Qed.

Lemma stations_sublist k W : cand S k W → stations S W `sublist_of` S.
Proof.
  intros [Hsub _]. rewrite <- stations_all at 2. by apply omap_sublist.
Qed.

Lemma length_stations W : (length (stations S W) ≤ length W)%nat.
Proof.
  unfold stations. induction W as [|v W IH]; [done|]. cbn [omap list_omap].
  destruct (S !! Z.to_nat (v - 1)); simpl; lia.
Qed.

(** On pairwise distinct locations between which the arithmetic does not
    raise, the feasibility test answers on every candidate. *)
Lemma forb_defined :
  NoDup S → pathloss_defined alpha S →
  ∀ k W, cand S k W → is_Ret (isForbidden (stations S W) alpha beta).
Proof.
  intros Hnd Hdef k W Hc. pose proof (stations_sublist k W Hc) as Hsub.
  destruct (isForbidden_from_spec alpha beta (stations S W) (stations S W))
    as (b & Hb & _).
  - by eapply sublist_NoDup.
  - intros w s Hw Hs. apply Hdef; by eapply sublist_subseteq.
  - done.
  - by exists b.
Qed.

(** The level sets when the second loop is over: every combination. *)
Definition candidates_E : gmap Z (list (list Z)) :=
  foldl (λ E1 k, <[k := combinations (range 1 (N + 1)) (Z.to_nat k)]> E1)
    (E (Hypergraph_init (loc:=point F) N)) (range 2 (N + 1)).

(** The level sets of the hypergraph that is returned. *)
Definition generated_E : gmap Z (list (list Z)) :=
  foldl (λ E1 k, level_pass S alpha beta k E1) candidates_E (range 2 (N + 1)).

Lemma candidates_E_lookup j :
  candidates_E !! j
  = if decide (2 ≤ j ≤ N)
    then Some (combinations (range 1 (N + 1)) (Z.to_nat j))
    else if decide (0 ≤ j ≤ N) then Some [] else None.
Proof.
  unfold candidates_E. rewrite candidates_lookup. cbn [E Hypergraph_init].
  rewrite init_lookup, lookup_empty.
  repeat case_decide; try done;
    repeat match goal with
           | Hx : _ ∈ range _ _ |- _ => apply elem_of_range in Hx
           | Hx : ¬ _ ∈ range _ _ |- _ => rewrite elem_of_range in Hx
           end; lia.
Qed.

(** The generator returns, and what it returns. *)
Lemma GenerateHypergraph_run (w0 : World (point F) F) :
  NoDup S → pathloss_defined alpha S →
  ∃ L, located S L ∧
    GenerateHypergraph S alpha beta w0
    = (Ret (mkHypergraph N (range 1 (N + 1)) generated_E L),
       mkWorld (mkHypergraph N (range 1 (N + 1)) generated_E L) (stdout w0)).
Proof.
  intros Hnd Hdef. destruct w0 as [H0 out]. cbn [stdout].
  destruct (setLocation_loop (range 0 N) (Hypergraph_init N) out)
    as (L & Hloop & HL).
  { intros i Hi%elem_of_range. lia. }
  assert (Hloc : located S L).
  { intros v Hv. rewrite HL. rewrite decide_True; [done|].
    apply elem_of_range. lia. }
  exists L. split; [done|]. unfold GenerateHypergraph.
  erewrite bind_Ret; [|done]. cbn [stdout].
  erewrite bind_Ret; [|apply Hloop].
  set (H1 := set_location (λ _, L) (Hypergraph_init N)).
  erewrite bind_Ret; cycle 1.
  { apply candidates_loop.
    - apply NoDup_range.
    - intros k Hk%elem_of_range. lia.
    - done.
    - intros k Hk%elem_of_range. cbn [E H1 set_location Hypergraph_init].
      rewrite init_lookup. rewrite decide_True; [done|]. apply elem_of_range. lia. }
  set (H2 := set_E _ H1).
  assert (HE2 : E H2 = candidates_E) by done.
  assert (Hgen : generating H2).
  { split; [|split; [done|split; [done|]]].
    - intros j. rewrite HE2, candidates_E_lookup. cbn [numVertices H2 set_E H1
        set_location Hypergraph_init].
      repeat case_decide; split; try done; try lia; by eauto.
    - intros j Ej e. rewrite HE2, candidates_E_lookup.
      repeat case_decide; try done.
      + intros [= <-] [Hsub Hlen]%elem_of_combinations. split; [done | lia].
      + by intros [= <-] ?%elem_of_nil. }
  erewrite bind_Ret; cycle 1.
  { apply pruning_loop; [done | by apply forb_defined|].
    intros k Hk%elem_of_range. lia. }
  erewrite bind_Ret; [|done]. done.
Qed.

(** [f] is an edge of level [j]. *)
Definition in_level (E0 : gmap Z (list (list Z))) (j : Z) f : Prop :=
  ∃ Ej, E0 !! j = Some Ej ∧ f ∈ Ej.

(** What holds of the level sets once the levels below [k] are done: the
    levels are [0..N]; every edge is a candidate of its level; the edges
    below [k] are forbidden and have no superset left above them; and a
    candidate that is gone either was tested and found not forbidden, or
    contains an edge of a lower, finished level. *)
Definition pruned (k : Z) (E0 : gmap Z (list (list Z))) : Prop :=
  (∀ j, is_Some (E0 !! j) ↔ 0 ≤ j ≤ N) ∧
  (∀ j f, in_level E0 j f → cand S j f ∧ 2 ≤ j) ∧
  (∀ j f, j < k → in_level E0 j f → forb S alpha beta f = true) ∧
  (∀ j e j' f, j < k → j < j' → in_level E0 j e → in_level E0 j' f → ¬ e ⊆ f) ∧
  (∀ j f, cand S j f → 2 ≤ j ≤ N → ¬ in_level E0 j f →
     (j < k ∧ forb S alpha beta f = false) ∨
     ∃ i d, i < j ∧ i < k ∧ in_level E0 i d ∧ d ⊆ f).

Lemma level_pass_in_level k E0 Ek j f :
  (∀ j, is_Some (E0 !! j) ↔ 0 ≤ j ≤ N) → E0 !! k = Some Ek →
  in_level (level_pass S alpha beta k E0) j f ↔
  in_level E0 j f ∧ (j = k → forb S alpha beta f = true) ∧
  (k < j → Forall (λ W, ¬ W ⊆ f) (filter (λ W, forb S alpha beta W = true) Ek)).
Proof.
  intros Hkeys HEk. unfold in_level.
  rewrite (level_pass_lookup _ _ Ek) by done.
  destruct (decide (j = k)) as [->|Hne].
  - split.
    + intros (Ej & [= <-] & [Hf Hin]%list_elem_of_filter).
      split; [by eauto|]. split; [done | lia].
    + intros ((Ej & HEj & Hin) & Hf & _). assert (Ej = Ek) as -> by congruence.
      eexists. split; [done|]. apply list_elem_of_filter. auto.
  - destruct (decide (j ∈ range (k + 1) (N + 1))) as [Hr|Hr];
      rewrite elem_of_range in Hr.
    + split.
      * intros (Ej' & HEj' & Hin). destruct (E0 !! j) as [Ej|]; [|done].
        injection HEj' as <-. apply list_elem_of_filter in Hin as [Hall Hin].
        split; [by eauto|]. split; [done | by intros _].
      * intros ((Ej & HEj & Hin) & _ & Hall). rewrite HEj. eexists.
        split; [done|]. apply list_elem_of_filter. split; [apply Hall; lia | done].
    + split.
      * intros (Ej & HEj & Hin). split; [by eauto|]. split; [done|].
        intros Hlt. assert (is_Some (E0 !! j)) as ?%Hkeys by eauto. lia.
      * by intros [? _].
Qed.

Lemma pruned_init : pruned 2 candidates_E.
Proof.
  assert (Hin : ∀ j f, in_level candidates_E j f ↔ 2 ≤ j ≤ N ∧ cand S j f).
  { intros j f. unfold in_level. rewrite candidates_E_lookup. split.
    - intros (Ej & HEj & Hf). repeat case_decide; try done.
      + injection HEj as <-. apply elem_of_combinations in Hf as [??].
        split; [done|]. split; [done | lia].
      + injection HEj as <-. by apply elem_of_nil in Hf.
    - intros [Hj [Hsub Hlen]]. rewrite decide_True by done. eexists.
      split; [done|]. apply elem_of_combinations. split; [done | lia]. }
  split; [|split; [|split; [|split]]].
  - intros j. rewrite candidates_E_lookup.
    repeat case_decide; split; try done; try lia; by eauto.
  - intros j f [? ?]%Hin. split; [done | lia].
  - intros j f Hj [? ?]%Hin. lia.
  - intros j e j' f Hj _ [? ?]%Hin. lia.
  - intros j f Hc Hj Hnot. destruct Hnot. by apply Hin.
Qed.

Lemma pruned_step k E0 :
  2 ≤ k ≤ N → pruned k E0 → pruned (k + 1) (level_pass S alpha beta k E0).
Proof.
  intros Hk (Hkeys & Hcand & Hforb & Hmin & Hgone).
  destruct (proj2 (Hkeys k)) as [Ek HEk]; [lia|].
  pose proof (level_pass_in_level k E0 Ek) as Hin.
  split; [|split; [|split; [|split]]].
  - intros j. rewrite <- Hkeys. rewrite (level_pass_lookup _ _ Ek) by done.
    destruct (decide (j = k)) as [->|]; [rewrite HEk; split; by eauto|].
    case_decide; [by rewrite fmap_is_Some | done].
  - intros j f (Hf & _)%Hin; [by apply Hcand | done..].
  - intros j f Hj (Hf & Hjk & _)%Hin; [|done..].
    destruct (decide (j = k)) as [->|]; [by apply Hjk|]. apply (Hforb j); [lia | done].
  - intros j e j' f Hj Hjj' (He & Hek & _)%Hin (Hf & _ & Hall)%Hin; try done.
    destruct (decide (j = k)) as [->|].
    + specialize (Hall Hjj'). rewrite Forall_forall in Hall. apply Hall.
      apply list_elem_of_filter. split; [by apply Hek|].
      destruct He as (Ej & HEj & ?). congruence.
    + apply (Hmin j e j' f); [lia | done..].
  - intros j f Hc Hj Hnot.
    assert (Hlow : ∀ i d, i < k → in_level E0 i d →
                          in_level (level_pass S alpha beta k E0) i d).
    { intros i d Hi Hd. apply Hin; [done..|]. split; [done|]. split; intros; lia. }
    destruct (proj2 (Hkeys j)) as [Ej HEj]; [lia|].
    destruct (decide (f ∈ Ej)) as [Hf|Hf]; cycle 1.
    { destruct (Hgone j f Hc Hj) as [[? ?]|(i & d & ? & ? & ? & ?)].
      - intros (Ej' & ? & ?). congruence.
      - left. split; [lia | done].
      - right. exists i, d. split; [done|]. split; [lia|]. split; [by apply Hlow | done]. }
    assert (Hf0 : in_level E0 j f) by (by exists Ej).
    destruct (decide (j = k)) as [->|Hne].
    { left. split; [lia|]. destruct (forb S alpha beta f) eqn:Hb; [|done].
      destruct Hnot. apply Hin; [done..|]. split; [done|]. split; [done | lia]. }
    destruct (decide (k < j)) as [Hlt|Hge]; cycle 1.
    { destruct Hnot. apply Hin; [done..|]. split; [done|]. split; intros; lia. }
    destruct (decide (Forall (λ W, ¬ W ⊆ f)
                (filter (λ W, forb S alpha beta W = true) Ek))) as [Hall|Hex].
    { destruct Hnot. apply Hin; [done..|]. split; [done|]. split; [lia | done]. }
    apply not_Forall_Exists in Hex; [|apply _].
    apply Exists_exists in Hex as (W & [HW HWin]%list_elem_of_filter & Hsub).
    right. exists k, W. split; [done|]. split; [lia|]. split.
    + apply Hin; [done..|]. split; [by exists Ek|]. split; [done | lia].
    + by apply dec_stable.
Qed.

Lemma pruned_generated : pruned (Z.max 2 (N + 1)) generated_E.
Proof.
  unfold generated_E, range.
  destruct (Z.le_gt_cases (N + 1 - 2) 0) as [Hle|Hgt].
  { rewrite seqZ_nil by done. replace (Z.max 2 (N + 1)) with 2 by lia.
    apply pruned_init. }
  replace (Z.max 2 (N + 1)) with (2 + (N + 1 - 2)) by lia.
  assert (Hn : N + 1 - 2 ≤ N - 1) by lia. revert Hn.
  rewrite <- (Z2Nat.id (N + 1 - 2)) by lia.
  generalize (Z.to_nat (N + 1 - 2)) as n. clear Hgt.
  induction n as [|n IH]; intros Hn.
  { rewrite seqZ_nil by done. apply pruned_init. }
  rewrite seqZ_S, foldl_app. cbn [foldl].
  replace (2 + Z.of_nat (Datatypes.S n)) with (2 + Z.of_nat n + 1) by lia.
  apply pruned_step; [lia|]. apply IH. lia.
Qed.

Lemma generated_facts k Ek e :
  generated_E !! k = Some Ek → e ∈ Ek →
  in_level generated_E k e ∧ cand S k e ∧ 2 ≤ k ≤ N ∧ k < Z.max 2 (N + 1).
Proof.
  intros HEk He. destruct pruned_generated as (Hkeys & Hcand & _).
  assert (Hin : in_level generated_E k e) by (by exists Ek).
  destruct (Hcand k e Hin) as [Hc Hk].
  assert (is_Some (generated_E !! k)) as ?%Hkeys by eauto.
  split; [done|]. split; [done|]. lia.
Qed.

Lemma forb_true W :
  forb S alpha beta W = true → isForbidden (stations S W) alpha beta = Ret true.
Proof. unfold forb. by destruct (isForbidden _ _ _) as [[]|]. Qed.

(** C1: on pairwise distinct locations between which the arithmetic does
    not raise, [GenerateHypergraph] returns a hypergraph in which no edge,
    of any level set, is a proper superset of another edge. *)
Theorem GenerateHypergraph_minimal (w0 : World (point F) F) :
  NoDup S → pathloss_defined alpha S →
  ∃ H, GenerateHypergraph S alpha beta w0 = (Ret H, mkWorld H (stdout w0)) ∧
       ∀ j Ej e j' Ej' f,
         E H !! j = Some Ej → e ∈ Ej → E H !! j' = Some Ej' → f ∈ Ej' →
         ¬ e ⊂ f.
Proof.
  intros Hnd Hdef.
  destruct (GenerateHypergraph_run w0 Hnd Hdef) as (L & _ & Hrun).
  eexists. split; [exact Hrun|]. cbn [E].
  intros j Ej e j' Ej' f HEj He HEj' Hf [Hsub Hnot].
  destruct (generated_facts j Ej e HEj He) as (Hine & Hce & Hj & HjK).
  destruct (generated_facts j' Ej' f HEj' Hf) as (Hinf & Hcf & Hj' & _).
  destruct (cand_facts j e Hce) as (_ & Hnde & _).
  destruct Hce as [_ Hle]. destruct Hcf as [_ Hlf].
  pose proof (NoDup_subseteq_length e f Hnde Hsub) as Hlen.
  destruct pruned_generated as (_ & _ & _ & Hmin & _).
  destruct (decide (j < j')) as [Hlt|Hge].
  - by apply (Hmin j e j' f).
  - apply Hnot. apply NoDup_subseteq_same_length; [done..|]. lia.
Qed.

(** C2, for a threshold above 0: on pairwise distinct locations between
    which the arithmetic does not raise, [GenerateHypergraph] returns a
    hypergraph that holds the location [S[v-1]] for every vertex [v]; on the
    locations of every edge [isForbidden] returns [True]; and on the
    locations of an edge without any one of its vertices it returns
    [False]. *)
Theorem GenerateHypergraph_sound (w0 : World (point F) F) :
  NoDup S → pathloss_defined alpha S → fgt beta (of_Z 0) = true →
  ∃ H, GenerateHypergraph S alpha beta w0 = (Ret H, mkWorld H (stdout w0)) ∧
       (∀ v, 1 ≤ v ≤ N → location H !! v = S !! Z.to_nat (v - 1)) ∧
       ∀ k Ek e,
         E H !! k = Some Ek → e ∈ Ek →
         isForbidden (stations S e) alpha beta = Ret true ∧
         ∀ w, w ∈ e →
              isForbidden (stations S (filter (λ v, v ≠ w) e)) alpha beta
              = Ret false.
Proof.
  intros Hnd Hdef Hpos.
  destruct (GenerateHypergraph_run w0 Hnd Hdef) as (L & Hloc & Hrun).
  eexists. split; [exact Hrun|]. split; [exact Hloc|]. cbn [E].
  intros k Ek e HEk He.
  destruct (generated_facts k Ek e HEk He) as (Hine & Hce & Hk & HkK).
  destruct pruned_generated as (Hkeys & _ & Hforb & Hmin & Hgone).
  split; [by apply forb_true, (Hforb k)|].
  intros w Hw. set (e' := filter (λ v, v ≠ w) e).
  destruct (cand_facts k e Hce) as (_ & Hnde & _).
  assert (Hsube : e' ⊆ e) by apply filter_subset.
  assert (Hce' : cand S (k - 1) e').
  { destruct Hce as [Hsub Hlen]. split.
    - etrans; [apply sublist_filter | done].
    - pose proof (length_filter_ne w e Hnde Hw). fold e' in H. lia. }
  destruct (forb_defined Hnd Hdef (k - 1) e' Hce') as [b Hb].
  rewrite Hb. f_equal. destruct b; [exfalso|done].
  assert (Hfe' : forb S alpha beta e' = true) by (unfold forb; by rewrite Hb).
  destruct (decide (k = 2)) as [->|Hne].
  - assert (Hshort : isForbidden (stations S e') alpha beta = Ret false);
      [|congruence].
    apply isForbidden_short; [| |done|].
    + eapply sublist_NoDup; [done | by eapply stations_sublist].
    + pose proof (sublist_subseteq _ _ (stations_sublist _ _ Hce')) as Hsub.
      intros p q Hp Hq. apply Hdef; by apply Hsub.
    + etrans; [apply length_stations|]. destruct Hce' as [_ Hlen]. lia.
  - destruct (proj2 (Hkeys (k - 1))) as [Ej HEj]; [lia|].
    destruct (decide (e' ∈ Ej)) as [Hin|Hnin].
    + apply (Hmin (k - 1) e' k e); [lia | lia | by exists Ej | done..].
    + destruct (Hgone (k - 1) e' Hce') as [[_ ?]|(i & d & ? & ? & Hd & Hsub)].
      * lia.
      * intros (Ej' & ? & ?). congruence.
      * congruence.
      * apply (Hmin i d k e); [lia | lia | done | done |].
        by etrans.
Qed.

End GeneratorProofs.

(** ** The feasibility predicate and the generator on concrete inputs *)

(** pairwise distinct points of a concrete list *)
Ltac concrete_NoDup := apply (bool_decide_unpack _); vm_compute; exact I.

(** the arithmetic on the pairs of a concrete list *)
Ltac concrete_pathloss :=
  let w := fresh "w" in let s := fresh "s" in
  let Hw := fresh "Hw" in let Hs := fresh "Hs" in let Hne := fresh "Hne" in
  intros w s Hw Hs Hne;
  repeat (apply elem_of_cons in Hw as [->|Hw]);
  try (by apply elem_of_nil in Hw);
  repeat (apply elem_of_cons in Hs as [->|Hs]);
  try (by apply elem_of_nil in Hs);
  try (exfalso; apply Hne; reflexivity);
  vm_compute; eexists; reflexivity.

Lemma isForbidden_correct_witness :
  let W := [(Exact.inj 3, Exact.inj 0); (Exact.inj 0, Exact.inj 0);
            (Exact.inj 1, Exact.inj 0)] in
  NoDup W ∧
  (∃ b, isForbidden W (Exact.inj 2) (Exact.inj 1) = Ret b ∧
        (b = true ↔ ∃ w, w ∈ W ∧ triggers (Exact.inj 2) (Exact.inj 1) W w)) ∧
  quiet (Exact.inj 2) (Exact.inj 1) W (Exact.inj 3, Exact.inj 0) ∧
  triggers (Exact.inj 2) (Exact.inj 1) W (Exact.inj 0, Exact.inj 0) ∧
  isForbidden W (Exact.inj 2) (Exact.inj 1) = Ret true.
Proof.
  intros W. assert (Hnd : NoDup W) by concrete_NoDup.
  destruct (isForbidden_correct (Exact.inj 2) (Exact.inj 1) W Hnd)
    as (Hiff & Hfirst & _).
  assert (Hq : quiet (Exact.inj 2) (Exact.inj 1) W (Exact.inj 3, Exact.inj 0)).
  { eexists. split; [vm_compute; reflexivity|]. vm_compute. reflexivity. }
  assert (Ht : triggers (Exact.inj 2) (Exact.inj 1) W (Exact.inj 0, Exact.inj 0)).
  { eexists. split; [vm_compute; reflexivity|]. vm_compute. reflexivity. }
  split; [exact Hnd|]. split; [|split; [exact Hq|split; [exact Ht|]]].
  - apply Hiff. concrete_pathloss.
  - apply (Hfirst [(Exact.inj 3, Exact.inj 0)] (Exact.inj 0, Exact.inj 0)
             [(Exact.inj 1, Exact.inj 0)] eq_refl); [|exact Ht].
    intros u ->%list_elem_of_singleton. exact Hq.
Defined.

(** C3, the arithmetic raises between distinct points: for the two points
    [(0, 0)] and [(0.5, 0)] with [alpha = 2000], the distance is [0.5] and
    [0.5 ** (-2000)] is beyond the doubles, so [isForbidden] raises
    [OverflowError] instead of returning. *)
Lemma isForbidden_overflow :
  NoDup [(Exact.inj 0, Exact.inj 0); (Q2Qc (1 # 2), Exact.inj 0)] ∧
  isForbidden (H:=Bounded.num)
    [(Exact.inj 0, Exact.inj 0); (Q2Qc (1 # 2), Exact.inj 0)]
    (Exact.inj 2000) (Exact.inj 1)
  = Raise OverflowError.
Proof. split; [concrete_NoDup | by vm_compute]. Qed.

Lemma GenerateHypergraph_minimal_witness :
  NoDup [(Exact.inj 0, Exact.inj 0); (Exact.inj 1, Exact.inj 0);
         (Exact.inj 3, Exact.inj 0)] ∧
  ∃ H,
    GenerateHypergraph
      [(Exact.inj 0, Exact.inj 0); (Exact.inj 1, Exact.inj 0);
       (Exact.inj 3, Exact.inj 0)] (Exact.inj 2) (Exact.inj 1)
      (mkWorld (Hypergraph_init 0) [])
    = (Ret H, mkWorld H []) ∧
    ∀ j Ej e j' Ej' f,
      E H !! j = Some Ej → e ∈ Ej → E H !! j' = Some Ej' → f ∈ Ej' → ¬ e ⊂ f.
Proof.
  assert (Hnd : NoDup [(Exact.inj 0, Exact.inj 0); (Exact.inj 1, Exact.inj 0);
                       (Exact.inj 3, Exact.inj 0)]) by concrete_NoDup.
  split; [exact Hnd|].
  apply (GenerateHypergraph_minimal _ (Exact.inj 2) (Exact.inj 1)
           (mkWorld (Hypergraph_init 0) []) Hnd).
  concrete_pathloss.
Defined.

Lemma GenerateHypergraph_sound_witness :
  NoDup [(Exact.inj 0, Exact.inj 0); (Q2Qc (6 # 5), Exact.inj 0);
         (Q2Qc (12 # 5), Exact.inj 0)] ∧
  fgt (Exact.inj 1) (of_Z 0) = true ∧
  ∃ H,
    GenerateHypergraph
      [(Exact.inj 0, Exact.inj 0); (Q2Qc (6 # 5), Exact.inj 0);
       (Q2Qc (12 # 5), Exact.inj 0)] (Exact.inj 2) (Exact.inj 1)
      (mkWorld (Hypergraph_init 0) [])
    = (Ret H, mkWorld H []) ∧
    (∀ v, 1 ≤ v ≤ 3 →
       location H !! v
       = [(Exact.inj 0, Exact.inj 0); (Q2Qc (6 # 5), Exact.inj 0);
          (Q2Qc (12 # 5), Exact.inj 0)] !! Z.to_nat (v - 1)) ∧
    ∀ k Ek e,
      E H !! k = Some Ek → e ∈ Ek →
      isForbidden
        (stations [(Exact.inj 0, Exact.inj 0); (Q2Qc (6 # 5), Exact.inj 0);
                   (Q2Qc (12 # 5), Exact.inj 0)] e) (Exact.inj 2) (Exact.inj 1)
      = Ret true ∧
      ∀ w, w ∈ e →
           isForbidden
             (stations [(Exact.inj 0, Exact.inj 0); (Q2Qc (6 # 5), Exact.inj 0);
                        (Q2Qc (12 # 5), Exact.inj 0)] (filter (λ v, v ≠ w) e))
             (Exact.inj 2) (Exact.inj 1)
           = Ret false.
Proof.
  assert (Hnd : NoDup [(Exact.inj 0, Exact.inj 0); (Q2Qc (6 # 5), Exact.inj 0);
                       (Q2Qc (12 # 5), Exact.inj 0)]) by concrete_NoDup.
  split; [exact Hnd|]. split; [reflexivity|].
  apply (GenerateHypergraph_sound _ (Exact.inj 2) (Exact.inj 1)
           (mkWorld (Hypergraph_init 0) []) Hnd); [concrete_pathloss | reflexivity].
Defined.

(** C2, a threshold of 0: two stations at distance 1 with [alpha = 2] and
    [beta = 0] give the edge [(1,2)], and [isForbidden] returns [True] on the
    location of station 1 alone. *)
Lemma GenerateHypergraph_zero_threshold :
  NoDup [(Exact.inj 0, Exact.inj 0); (Exact.inj 1, Exact.inj 0)] ∧
  (∃ H,
     GenerateHypergraph [(Exact.inj 0, Exact.inj 0); (Exact.inj 1, Exact.inj 0)]
       (Exact.inj 2) (Exact.inj 0) (mkWorld (Hypergraph_init 0) [])
     = (Ret H, mkWorld H []) ∧
     E H !! 2 = Some [[1; 2]]) ∧
  2 ∈ [1; 2] ∧
  isForbidden
    (stations [(Exact.inj 0, Exact.inj 0); (Exact.inj 1, Exact.inj 0)]
       (filter (λ v, v ≠ 2) [1; 2])) (Exact.inj 2) (Exact.inj 0)
  = Ret true.
Proof.
  split; [concrete_NoDup|]. split; [|split; [set_solver | by vm_compute]].
  eexists. split; [by vm_compute | by vm_compute].
Qed.

(** ** The interference degree: vocabulary *)

(** [Delta[a][b]], for indices from 0 *)
Definition entry {F : Type} (D : list (list F)) (a b : nat) : option F :=
  D !! a ≫= λ row, row !! b.

(** [x] is in the list of neighbours of [c]. *)
Definition neighbour (Adj : gmap Z (list Z)) (c x : Z) : Prop :=
  ∃ l, Adj !! c = Some l ∧ x ∈ l.

Section DegreeSpec.
Context {F : Type} {num : PyNum F}.
Implicit Types (H : Hypergraph (point F)) (D : list (list F)) (J : list Z).

(** [a <= b], that is, not [a > b] *)
Definition fle (a b : F) : Prop := fgt a b = false.

(** [r] is the largest of the numbers that satisfy [P], and 0 without any. *)
Definition max_or_zero (P : F → Prop) (r : F) : Prop :=
  (∀ x, P x → fle x r) ∧ ((∃ x, P x) → P r) ∧ (¬ (∃ x, P x) → r = of_Z 0).

(** [J] contains no edge of the level sets [1..|J|]. *)
Definition independent H J : Prop :=
  ∀ i Ei edge,
    1 ≤ i ≤ Z.of_nat (length J) → E H !! i = Some Ei → edge ∈ Ei → ¬ edge ⊆ J.

(** The ids of every edge are vertices. *)
Definition edges_in_range H : Prop :=
  ∀ k Ek e, E H !! k = Some Ek → e ∈ Ek →
            Forall (λ v, 1 ≤ v ≤ numVertices H) e.

(** The value that a non-empty independent sub-list [J] of the list
    [Adj_i] contributes to [Delta_i_p], as the program forms it from its
    matrix [D]. *)
Definition contributes_p H D (Adj_i : list Z) (i : Z) (x : F) : Prop :=
  ∃ J, J `sublist_of` Adj_i ∧ J ≠ [] ∧ independent H J ∧
       weight_sum D i (of_Z 0) J = Ret x.

(** The value that a non-empty sub-list [J] of the list [Adj_i], with
    [J ∪ {i}] independent, contributes to [Delta_i_pp], as the program
    forms it from its matrix [D]: 1 and then the entries, added in the
    order of [J]. *)
Definition contributes_pp H D (Adj_i : list Z) (i : Z) (x : F) : Prop :=
  ∃ J, J `sublist_of` Adj_i ∧ J ≠ [] ∧
       independent H (remove_dups (J ++ [i])) ∧
       weight_sum D i (of_Z 1) J = Ret x.

(** An [n] by [n] matrix of non-negative numbers. *)
Definition matrix_ok (n : Z) D : Prop :=
  Z.of_nat (length D) = n ∧
  Forall (λ row, Z.of_nat (length row) = n ∧ Forall (fle (of_Z 0)) row) D.

(** Every vertex has a list of neighbours, without repetition, of vertices. *)
Definition adj_ok (n : Z) (Adj : gmap Z (list Z)) : Prop :=
  ∀ i, 1 ≤ i ≤ n →
       ∃ l, Adj !! i = Some l ∧ NoDup l ∧ Forall (λ v, 1 ≤ v ≤ n) l.

(** the running maximum [m = max(m, v)] over the numbers [vs] *)
Definition run_max (r0 : F) (vs : list F) : F := foldl py_max2 r0 vs.

(** *** The interference degree in the words of the specification

    These definitions use neither the matrix of [Delta] nor the lists of
    [AdjacencyList]; [interferenceDegree] is compared with them. *)

(** [i] and [j] are two items of the edge [e], at different positions. *)
Definition together (e : list Z) (i j : Z) : Prop :=
  [i; j] `sublist_of` e ∨ [j; i] `sublist_of` e.

(** [j] is a neighbour of [i]: the two lie together in an edge. *)
Definition adjacent H (i j : Z) : Prop :=
  ∃ k Ek e, E H !! k = Some Ek ∧ e ∈ Ek ∧ together e i j.

(** The neighbour set of [i], listed without repetition. *)
Definition neighbours H (i : Z) (Ni : list Z) : Prop :=
  NoDup Ni ∧ ∀ j, j ∈ Ni ↔ adjacent H i j.

(** [x] is [1 / (|e| - 1)] for an edge [e] in which [i] and [j] lie
    together. *)
Definition edge_weight H (i j : Z) (x : F) : Prop :=
  ∃ k Ek e, E H !! k = Some Ek ∧ e ∈ Ek ∧ together e i j ∧
            fdiv (of_Z 1) (of_Z (Z.of_nat (length e) - 1)) = Ret x.

(** The weight [Delta(i,j)]: the largest [1 / (|e| - 1)] over the edges in
    which [i] and [j] lie together, and 0 when they share no edge. *)
Definition weight H (i j : Z) (x : F) : Prop :=
  max_or_zero (edge_weight H i j) x.

(** [x] is [s0] plus the weights [Delta(i,j)] for [j] in [J], added in the
    order of [J]. *)
Definition weights_sum H (i : Z) (s0 : F) J (x : F) : Prop :=
  ∃ ws, Forall2 (weight H i) J ws ∧ x = foldl fadd s0 ws.

(** The value that a non-empty independent subset [J] of the neighbours
    [Ni] of [i] contributes to [Delta'(i)]: the sum of its weights. *)
Definition degree_p H (Ni : list Z) (i : Z) (x : F) : Prop :=
  ∃ J, J `sublist_of` Ni ∧ J ≠ [] ∧ independent H J ∧
       weights_sum H i (of_Z 0) J x.

(** The value that a non-empty subset [J] of the neighbours [Ni] of [i],
    with [J ∪ {i}] independent, contributes to [Delta''(i)]: 1 plus the sum
    of its weights. *)
Definition degree_pp H (Ni : list Z) (i : Z) (x : F) : Prop :=
  ∃ J, J `sublist_of` Ni ∧ J ≠ [] ∧
       independent H (remove_dups (J ++ [i])) ∧
       weights_sum H i (of_Z 1) J x.

(** [dp] is [Delta'(i)] and [dpp] is [Delta''(i)]: the largest
    contributions, and 0 without any. *)
Definition vertex_degrees H (i : Z) (dp dpp : F) : Prop :=
  ∃ Ni, neighbours H i Ni ∧
        max_or_zero (degree_p H Ni i) dp ∧
        max_or_zero (degree_pp H Ni i) dpp.

End DegreeSpec.

(** ** The interference degree: proofs *)

Section DegreeProofs.
Context {F : Type} {num : PyNum F} {ord : PyNumOrder F}.
Implicit Types (H : Hypergraph (point F)) (D : list (list F)) (J : list Z).

Lemma fle_refl (a : F) : fle a a.
Proof. apply fgt_irrefl. Qed.

Lemma fgt_asym (a b : F) : fgt a b = true → fgt b a = false.
Proof.
  intros Hab. destruct (fgt b a) eqn:Hba; [|done].
  by rewrite <- (fgt_irrefl a), (fgt_trans a b a).
Qed.

Lemma fle_trans (a b c : F) : fle a b → fle b c → fle a c.
Proof.
  unfold fle. intros Hab Hbc. destruct (fgt a c) eqn:Hac; [|done].
  destruct (fgt b a) eqn:Hba.
  - by rewrite <- Hbc, (fgt_trans b a c).
  - assert (a = b) as -> by (by apply fgt_total). congruence.
Qed.

Lemma fle_max_l (a b : F) : fle a (py_max2 a b).
Proof.
  unfold py_max2, fle. destruct (fgt b a) eqn:Hba; [by apply fgt_asym|].
  apply fgt_irrefl.
Qed.

Lemma fle_max_r (a b : F) : fle b (py_max2 a b).
Proof.
  unfold py_max2, fle. destruct (fgt b a) eqn:Hba; [apply fgt_irrefl | done].
Qed.

Lemma py_max2_cases (a b : F) : py_max2 a b = a ∨ py_max2 a b = b.
Proof. unfold py_max2. destruct (fgt b a); auto. Qed.

(** The running maximum bounds its start and every number, and is one of
    them. *)
Lemma run_max_spec (r0 : F) (vs : list F) :
  fle r0 (run_max r0 vs) ∧
  (∀ v, v ∈ vs → fle v (run_max r0 vs)) ∧
  (run_max r0 vs = r0 ∨ run_max r0 vs ∈ vs).
Proof.
  unfold run_max. revert r0. induction vs as [|v vs IH]; intros r0; cbn [foldl].
  - split; [apply fle_refl|]. split; [by intros v ?%elem_of_nil | by left].
  - destruct (IH (py_max2 r0 v)) as (Hle & Hall & Hin).
    split; [eapply fle_trans; [apply fle_max_l | done]|]. split.
    + intros x [->|Hx]%elem_of_cons; [|by apply Hall].
      eapply fle_trans; [apply fle_max_r | done].
    + destruct Hin as [Heq|Hin]; [|right; by right].
      rewrite Heq. destruct (py_max2_cases r0 v) as [->| ->]; [by left|].
      right. by left.
Qed.

(** Over non-negative numbers the running maximum from 0 is their largest,
    and 0 when there is none. *)
Lemma run_max_zero (vs : list F) :
  Forall (fle (of_Z 0)) vs →
  max_or_zero (λ x, x ∈ vs) (run_max (of_Z 0) vs).
Proof.
  intros Hnn. destruct (run_max_spec (of_Z 0) vs) as (Hle & Hall & Hin).
  split; [done|]. split.
  - intros [x Hx]. destruct Hin as [Heq|Hin]; [|done].
    assert (x = of_Z 0) as Hx0; [|rewrite Heq; by rewrite <- Hx0].
    apply fgt_total.
    + rewrite <- Heq. by apply Hall.
    + rewrite Forall_forall in Hnn. by apply Hnn.
  - intros Hnone. destruct Hin as [Heq|Hin]; [done|]. destruct Hnone. eauto.
Qed.

Lemma fold_outcome_inv {A B} (I : B → Prop) (body : B → A → outcome B)
    (l : list A) (u0 : B) :
  I u0 →
  (∀ u x, x ∈ l → I u → ∃ u', body u x = Ret u' ∧ I u') →
  ∃ u', fold_outcome body l u0 = Ret u' ∧ I u'.
Proof.
  revert u0. induction l as [|x l IH]; intros u0 Hu0 Hstep; [by exists u0|].
  destruct (Hstep u0 x) as (u1 & Hu1 & HI1); [by left | done|].
  cbn [fold_outcome]. rewrite Hu1. simpl. apply IH; [done|].
  intros u y Hy. apply Hstep. by right.
Qed.

Lemma py_setitem_in_range {A} (l : list A) (i : Z) (a : A) :
  0 ≤ i < Z.of_nat (length l) → py_setitem l i a = Ret (<[Z.to_nat i := a]> l).
Proof.
  intros Hi. unfold py_setitem.
  destruct (Z.ltb_spec i 0); [lia|].
  destruct (Z.leb_spec 0 i); [|lia].
  by destruct (Z.ltb_spec i (Z.of_nat (length l))); [|lia].
Qed.

(** a row of [n] non-negative numbers *)
Definition row_ok (n : Z) (row : list F) : Prop :=
  Z.of_nat (length row) = n ∧ Forall (fle (of_Z 0)) row.

Lemma matrix_get n D i :
  matrix_ok n D → 1 ≤ i ≤ n → ∃ row, py_index D (i - 1) = Ret row ∧ row_ok n row.
Proof.
  intros [Hlen Hrows] Hi.
  destruct (py_index_in_range D (i - 1)) as (row & Hrow & Hpy); [lia|].
  exists row. split; [done|]. rewrite Forall_forall in Hrows. apply Hrows.
  by eapply list_elem_of_lookup_2.
Qed.

Lemma matrix_set n D i (row : list F) :
  matrix_ok n D → row_ok n row → 1 ≤ i ≤ n →
  ∃ D', py_setitem D (i - 1) row = Ret D' ∧ matrix_ok n D'.
Proof.
  intros [Hlen Hrows] Hrow Hi. eexists.
  split; [apply py_setitem_in_range; lia|]. split.
  - by rewrite length_insert.
  - by apply Forall_insert.
Qed.

Lemma row_get n (row : list F) j :
  row_ok n row → 1 ≤ j ≤ n → ∃ x, py_index row (j - 1) = Ret x ∧ fle (of_Z 0) x.
Proof.
  intros [Hlen Hnn] Hj.
  destruct (py_index_in_range row (j - 1)) as (x & Hx & Hpy); [lia|].
  exists x. split; [done|]. rewrite Forall_forall in Hnn. apply Hnn.
  by eapply list_elem_of_lookup_2.
Qed.

Lemma row_set n (row : list F) j x :
  row_ok n row → fle (of_Z 0) x → 1 ≤ j ≤ n →
  ∃ row', py_setitem row (j - 1) x = Ret row' ∧ row_ok n row'.
Proof.
  intros [Hlen Hnn] Hx Hj. eexists.
  split; [apply py_setitem_in_range; lia|]. split.
  - by rewrite length_insert.
  - by apply Forall_insert.
Qed.

Lemma fle_max_nonneg (a b : F) :
  fle (of_Z 0) a → fle (of_Z 0) (py_max2 a b).
Proof. intros Ha. eapply fle_trans; [done | apply fle_max_l]. Qed.

(** The two assignments of [Delta] for a pair of vertices of an edge of at
    least two ids keep the matrix. *)
Lemma Delta_step_ok n D (len_e i j : Z) :
  matrix_ok n D → 1 ≤ i ≤ n → 1 ≤ j ≤ n → 2 ≤ len_e →
  ∃ D', Delta_step len_e D [i; j] = Ret D' ∧ matrix_ok n D'.
Proof.
  intros HD Hi Hj Hlen. unfold Delta_step.
  destruct (matrix_get n D i HD Hi) as (row & -> & Hrow). simpl.
  destruct (row_get n row j Hrow Hj) as (old & -> & Hold). simpl.
  destruct (recip_defined (len_e - 1)) as [q Hq]; [lia|]. rewrite Hq. simpl.
  destruct (row_set n row j (py_max2 old q) Hrow) as (row' & -> & Hrow');
    [by apply fle_max_nonneg | done|]. simpl.
  destruct (matrix_set n D i row' HD Hrow' Hi) as (D1 & -> & HD1). simpl.
  destruct (matrix_get n D1 i HD1 Hi) as (row_i & -> & Hrow_i). simpl.
  destruct (row_get n row_i j Hrow_i Hj) as (v & -> & Hv). simpl.
  destruct (matrix_get n D1 j HD1 Hj) as (row_j & -> & Hrow_j). simpl.
  destruct (row_set n row_j i v Hrow_j Hv Hi) as (row_j' & -> & Hrow_j'). simpl.
  by apply matrix_set.
Qed.

Lemma combinations_2 (e p : list Z) :
  p ∈ combinations e 2 →
  ∃ i j, p = [i; j] ∧ i ∈ e ∧ j ∈ e ∧ (2 ≤ length e)%nat.
Proof.
  intros [Hsub Hlen]%elem_of_combinations.
  destruct p as [|i [|j [|??]]]; try done.
  exists i, j. split; [done|].
  pose proof (sublist_subseteq _ _ Hsub) as Hin.
  split; [apply Hin; by left|]. split; [apply Hin; right; by left|].
  by apply sublist_length in Hsub.
Qed.

Lemma zeros_matrix_ok n : 0 ≤ n → matrix_ok n (zeros_matrix n n).
Proof.
  intros Hn. unfold zeros_matrix. split.
  - rewrite length_replicate. lia.
  - apply Forall_replicate. split.
    + rewrite length_replicate. lia.
    + apply Forall_replicate, fle_refl.
Qed.

(** [Delta()] returns a matrix of [N] rows of [N] non-negative weights. *)
Lemma Delta_run H :
  levels_ok H → edges_in_range H → 0 ≤ numVertices H →
  ∃ D, Delta H = Ret D ∧ matrix_ok (numVertices H) D.
Proof.
  intros Hok Hrange HN. unfold Delta.
  apply fold_outcome_inv; [by apply zeros_matrix_ok|].
  intros D k Hk%elem_of_range HD.
  destruct (proj2 (Hok k)) as [Ek HEk]; [lia|]. rewrite HEk.
  apply fold_outcome_inv; [done|]. intros D1 e He HD1.
  apply fold_outcome_inv; [done|]. intros D2 p Hp HD2.
  destruct (combinations_2 e p Hp) as (i & j & -> & Hi & Hj & Hlen).
  pose proof (Hrange k Ek e HEk He) as Hin. rewrite Forall_forall in Hin.
  apply Delta_step_ok; [done | by apply Hin | by apply Hin | lia].
Qed.

Lemma Adj_add_ok n (a b' : Z) (Adj : gmap Z (list Z)) :
  adj_ok n Adj → 1 ≤ a ≤ n → 1 ≤ b' ≤ n →
  ∃ Adj', Adj_add a b' Adj = Ret Adj' ∧ adj_ok n Adj'.
Proof.
  intros Hadj Ha Hb. destruct (Hadj b' Hb) as (l & Hl & Hnd & Hin).
  unfold Adj_add. rewrite Hl. case_bool_decide as Hal; [by eauto|].
  eexists. split; [done|]. intros i Hi.
  destruct (decide (i = b')) as [->|Hne].
  - exists (l ++ [a]). split; [by rewrite lookup_insert_eq|]. split.
    + apply NoDup_app. split; [done|]. split; [|apply NoDup_singleton].
      by intros x Hx ->%list_elem_of_singleton.
    + apply Forall_app. split; [done|]. by apply Forall_singleton.
  - rewrite lookup_insert_ne by done. by apply Hadj.
Qed.

Lemma Adj_init_ok n :
  adj_ok n (foldl (λ Adj i, <[i := []]> Adj) ∅ (range 1 (n + 1))).
Proof.
  intros i Hi. exists []. split; [|split; [apply NoDup_nil_2 | done]].
  assert (Hgen : ∀ (l : list Z) (m : gmap Z (list Z)),
    i ∈ l → foldl (λ Adj i, <[i := []]> Adj) m l !! i = Some []).
  { induction l as [|x l IH]; intros m Hin; [by apply elem_of_nil in Hin|].
    cbn [foldl]. destruct (decide (i ∈ l)) as [?|Hnl]; [by apply IH|].
    apply elem_of_cons in Hin as [->|?]; [|done].
    clear IH. revert m. induction l as [|y l IH]; intros m; cbn [foldl].
    - by rewrite lookup_insert_eq.
    - apply not_elem_of_cons in Hnl as [Hxy Hnl].
      rewrite insert_insert_ne by done. by apply IH. }
  apply Hgen, elem_of_range. lia.
Qed.

(** [AdjacencyList()] returns, for every vertex, a list of vertices without
    repetition. *)
Lemma AdjacencyList_run H :
  levels_ok H → edges_in_range H →
  ∃ Adj, AdjacencyList H = Ret Adj ∧ adj_ok (numVertices H) Adj.
Proof.
  intros Hok Hrange. unfold AdjacencyList.
  apply fold_outcome_inv; [apply Adj_init_ok|].
  intros Adj k Hk%elem_of_range HAdj.
  destruct (proj2 (Hok k)) as [Ek HEk]; [lia|]. rewrite HEk.
  apply fold_outcome_inv; [done|]. intros Adj1 e He HAdj1.
  apply fold_outcome_inv; [done|]. intros Adj2 p Hp HAdj2.
  destruct (combinations_2 e p Hp) as (i & j & -> & Hi & Hj & Hlen).
  pose proof (Hrange k Ek e HEk He) as Hin. rewrite Forall_forall in Hin.
  destruct (Adj_add_ok _ i j Adj2 HAdj2) as (Adj3 & -> & HAdj3);
    [by apply Hin..|]. simpl.
  apply Adj_add_ok; [done | by apply Hin..].
Qed.

Lemma length_in_range n (l : list Z) :
  NoDup l → Forall (λ v, 1 ≤ v ≤ n) l → Z.of_nat (length l) ≤ Z.max 0 n.
Proof.
  intros Hnd Hin.
  assert (Hsub : l ⊆ range 1 (n + 1)).
  { intros v Hv. rewrite Forall_forall in Hin. apply elem_of_range.
    apply Hin in Hv. lia. }
  pose proof (NoDup_subseteq_length _ _ Hnd Hsub) as Hlen.
  unfold range in Hlen. rewrite length_seqZ in Hlen. lia.
Qed.

Lemma isIndependentSet_run H J :
  levels_ok H → Z.of_nat (length J) ≤ numVertices H →
  ∃ t : bool, isIndependentSet H J = Ret t ∧ (t = true ↔ independent H J).
Proof.
  intros Hok HJ. unfold isIndependentSet.
  destruct (isIndependentSet_levels_spec H J
              (range 1 (Z.of_nat (length J) + 1))) as (t & Ht & Hspec).
  { intros i Hi%elem_of_range. apply Hok. lia. }
  exists t. split; [done|]. rewrite Hspec. unfold independent. split.
  - intros Hall i Ei edge Hi. apply Hall. apply elem_of_range. lia.
  - intros Hall i Ei edge Hi%elem_of_range. apply Hall. lia.
Qed.

Lemma weight_sum_run n D i J (s0 : F) :
  matrix_ok n D → 1 ≤ i ≤ n → Forall (λ v, 1 ≤ v ≤ n) J → fle (of_Z 0) s0 →
  ∃ x, weight_sum D i s0 J = Ret x ∧ fle (of_Z 0) x.
Proof.
  intros HD Hi HJ Hs0. unfold weight_sum.
  apply fold_outcome_inv; [done|]. intros s j Hj Hs.
  rewrite Forall_forall in HJ.
  destruct (matrix_get n D i HD Hi) as (row & -> & Hrow). simpl.
  destruct (row_get n row j Hrow (HJ j Hj)) as (d & -> & Hd). simpl.
  eexists. split; [done|]. by apply fadd_nonneg.
Qed.

Lemma elem_of_powerset {A} (l J' : list A) :
  J' ∈ powerset l ↔ J' `sublist_of` l.
Proof.
  unfold powerset. rewrite list_elem_of_bind. split.
  - by intros (n & [? _]%elem_of_combinations & _).
  - intros Hsub. exists (length J'). split; [by apply elem_of_combinations|].
    apply elem_of_seq. apply sublist_length in Hsub. lia.
Qed.

Lemma max_or_zero_iff (P Q : F → Prop) (r : F) :
  (∀ x, P x ↔ Q x) → max_or_zero P r → max_or_zero Q r.
Proof.
  intros Hiff (Hub & Hin & Hnone). split; [|split].
  - intros x ?%Hiff. by apply Hub.
  - intros [x ?%Hiff]. apply Hiff, Hin. by exists x.
  - intros Hno. apply Hnone. intros [x ?%Hiff]. apply Hno. by exists x.
Qed.

(** One pass of [m = max(m, x)] for the subset [a], when it qualifies. *)
Definition contrib {A} (Q : A → F → Prop) (a : A) (m m' : F) : Prop :=
  (∃ x, Q a x ∧ fle (of_Z 0) x ∧ m' = py_max2 m x) ∨
  ((∀ x, ¬ Q a x) ∧ m' = m).

Lemma contrib_extend {A} (Q : A → F → Prop) (a : A) (rest : list A)
    (m m' : F) (ws : list F) :
  (∀ x y, Q a x → Q a y → x = y) → contrib Q a m m' →
  Forall (fle (of_Z 0)) ws → (∀ x, x ∈ ws ↔ ∃ a', a' ∈ rest ∧ Q a' x) →
  ∃ ws', run_max m ws' = run_max m' ws ∧ Forall (fle (of_Z 0)) ws' ∧
         ∀ x, x ∈ ws' ↔ ∃ a', a' ∈ a :: rest ∧ Q a' x.
Proof.
  intros Hfun [(x & HQ & Hx & ->)|[Hno ->]] Hnn Hws.
  - exists (x :: ws). split; [done|]. split; [by constructor|].
    intros y. rewrite elem_of_cons, Hws. split.
    + intros [->|(a' & ? & ?)]; [exists a; split; [by left | done]|].
      exists a'. split; [by right | done].
    + intros (a' & [->|?]%elem_of_cons & HQ'); [left; by eapply Hfun|].
      right. by exists a'.
  - exists ws. split; [done|]. split; [done|].
    intros y. rewrite Hws. split.
    + intros (a' & ? & ?). exists a'. split; [by right | done].
    + intros (a' & [->|?]%elem_of_cons & HQ'); [by destruct (Hno y)|].
      by exists a'.
Qed.

(** A loop that keeps two running maxima at once. *)
Lemma pair_fold {A} (body : F * F → A → outcome (F * F))
    (Q1 Q2 : A → F → Prop) (Js : list A) :
  (∀ a x y, Q1 a x → Q1 a y → x = y) → (∀ a x y, Q2 a x → Q2 a y → x = y) →
  (∀ a m1 m2, a ∈ Js →
     ∃ m1' m2', body (m1, m2) a = Ret (m1', m2') ∧
                contrib Q1 a m1 m1' ∧ contrib Q2 a m2 m2') →
  ∀ m1 m2, ∃ ws1 ws2,
    fold_outcome body Js (m1, m2) = Ret (run_max m1 ws1, run_max m2 ws2) ∧
    Forall (fle (of_Z 0)) ws1 ∧ Forall (fle (of_Z 0)) ws2 ∧
    (∀ x, x ∈ ws1 ↔ ∃ a, a ∈ Js ∧ Q1 a x) ∧
    (∀ x, x ∈ ws2 ↔ ∃ a, a ∈ Js ∧ Q2 a x).
Proof.
  intros Hf1 Hf2. induction Js as [|a Js IH]; intros Hstep m1 m2.
  - exists [], []. split; [done|]. split; [done|]. split; [done|].
    split; intros x; (split; [by intros ?%elem_of_nil|]);
      by intros (a & ?%elem_of_nil & _).
  - destruct (Hstep a m1 m2) as (m1' & m2' & Hbody & Hc1 & Hc2); [by left|].
    destruct (IH (λ a' n1 n2 Ha', Hstep a' n1 n2 (list_elem_of_further _ _ _ Ha'))
                m1' m2') as (ws1 & ws2 & Hfold & Hn1 & Hn2 & Hw1 & Hw2).
    destruct (contrib_extend Q1 a Js m1 m1' ws1 (Hf1 a) Hc1 Hn1 Hw1)
      as (ws1' & Hr1 & Hn1' & Hw1').
    destruct (contrib_extend Q2 a Js m2 m2' ws2 (Hf2 a) Hc2 Hn2 Hw2)
      as (ws2' & Hr2 & Hn2' & Hw2').
    exists ws1', ws2'. cbn [fold_outcome]. rewrite Hbody. simpl.
    rewrite Hfold, Hr1, Hr2. done.
Qed.

(** what the subset [J] adds to [Delta_i_p], and to [Delta_i_pp] *)
Definition adds_p H D (i : Z) J (x : F) : Prop :=
  J ≠ [] ∧ independent H J ∧ weight_sum D i (of_Z 0) J = Ret x.
Definition adds_pp H D (i : Z) J (x : F) : Prop :=
  J ≠ [] ∧ independent H (remove_dups (J ++ [i])) ∧
  weight_sum D i (of_Z 1) J = Ret x.

Lemma degree_step_ok H D i J (m1 m2 : F) :
  levels_ok H → matrix_ok (numVertices H) D → 1 ≤ i ≤ numVertices H →
  NoDup J → Forall (λ v, 1 ≤ v ≤ numVertices H) J →
  ∃ m1' m2', degree_step H D i (m1, m2) J = Ret (m1', m2') ∧
             contrib (adds_p H D i) J m1 m1' ∧ contrib (adds_pp H D i) J m2 m2'.
Proof.
  intros Hok HD Hi Hnd HJ. unfold degree_step.
  destruct J as [|j J'] eqn:HeqJ.
  { exists m1, m2. split; [done|]. split; right; (split; [|done]);
      by intros x [? _]. }
  rewrite <- HeqJ in *. assert (HJne : J ≠ []) by (by rewrite HeqJ).
  assert (Hlen1 : (1 <=? Z.of_nat (length J)) = true).
  { apply Z.leb_le. rewrite HeqJ. simpl. lia. }
  rewrite Hlen1.
  destruct (isIndependentSet_run H J Hok) as (t1 & -> & Ht1).
  { pose proof (length_in_range _ J Hnd HJ). lia. }
  destruct (weight_sum_run _ D i J (of_Z 0) HD Hi HJ (fle_refl _))
    as (x1 & Hx1 & Hn1).
  destruct (isIndependentSet_run H (remove_dups (J ++ [i])) Hok) as (t2 & Ht2run & Ht2).
  { pose proof (length_in_range (numVertices H) (remove_dups (J ++ [i]))
                  (NoDup_remove_dups _)) as Hl.
    assert (Forall (λ v, 1 ≤ v ≤ numVertices H) (remove_dups (J ++ [i]))).
    { apply Forall_forall. intros v Hv. rewrite elem_of_remove_dups in Hv.
      apply elem_of_app in Hv as [Hv| ->%list_elem_of_singleton]; [|done].
      rewrite Forall_forall in HJ. by apply HJ. }
    specialize (Hl ltac:(done)). lia. }
  destruct (weight_sum_run _ D i J (of_Z 1) HD Hi HJ one_nonneg)
    as (x2 & Hx2 & Hn2).
  exists (if t1 then py_max2 m1 x1 else m1), (if t2 then py_max2 m2 x2 else m2).
  split.
  - simpl. destruct t1; simpl; rewrite ?Hx1; simpl; rewrite Ht2run; simpl;
      destruct t2; simpl; rewrite ?Hx2; done.
  - split.
    + destruct t1.
      * left. exists x1. split; [|done]. split; [done|]. split; [by apply Ht1 | done].
      * right. split; [|done]. intros x (_ & Hind%Ht1 & _). done.
    + destruct t2.
      * left. exists x2. split; [|done]. split; [done|]. split; [by apply Ht2 | done].
      * right. split; [|done]. intros x (_ & Hind%Ht2 & _). done.
Qed.

Lemma weight_sum_fun D i J (s0 x y : F) :
  weight_sum D i s0 J = Ret x → weight_sum D i s0 J = Ret y → x = y.
Proof. congruence. Qed.

(** What [Delta_i_p] and [Delta_i_pp] are for vertex [i], in terms of the
    matrix and the lists of the program. *)
Definition vertex_maxima H D (Adj : gmap Z (list Z)) (i : Z) (dp dpp : F)
    : Prop :=
  ∃ Adj_i, Adj !! i = Some Adj_i ∧
           max_or_zero (contributes_p H D Adj_i i) dp ∧
           max_or_zero (contributes_pp H D Adj_i i) dpp.

Lemma degree_vertex_ok H D (Adj : gmap Z (list Z)) i (res : F)
    (Delta_p Delta_pp : list F) :
  levels_ok H → matrix_ok (numVertices H) D → adj_ok (numVertices H) Adj →
  1 ≤ i ≤ numVertices H →
  ∃ dp dpp,
    degree_vertex H D Adj (res, Delta_p, Delta_pp) i
    = Ret (py_max2 (py_max2 res dp) dpp, Delta_p ++ [dp], Delta_pp ++ [dpp]) ∧
    fle (of_Z 0) dp ∧ fle (of_Z 0) dpp ∧ vertex_maxima H D Adj i dp dpp.
Proof.
  intros Hok HD HAdj Hi. destruct (HAdj i Hi) as (Adj_i & HAi & Hnd & Hin).
  unfold degree_vertex. rewrite HAi.
  destruct (pair_fold (degree_step H D i) (adds_p H D i) (adds_pp H D i)
              (powerset Adj_i)) with (m1 := of_Z 0) (m2 := of_Z 0)
    as (ws1 & ws2 & Hfold & Hn1 & Hn2 & Hw1 & Hw2).
  { intros J x y (_ & _ & ?) (_ & _ & ?). by eapply weight_sum_fun. }
  { intros J x y (_ & _ & ?) (_ & _ & ?). by eapply weight_sum_fun. }
  { intros J m1 m2 HJ%elem_of_powerset.
    apply degree_step_ok; [done..| |].
    - by eapply sublist_NoDup.
    - eapply Forall_subset; [by apply sublist_subseteq | done]. }
  rewrite Hfold. simpl.
  exists (run_max (of_Z 0) ws1), (run_max (of_Z 0) ws2). split; [done|].
  split; [exact (proj1 (run_max_spec _ _))|].
  split; [exact (proj1 (run_max_spec _ _))|].
  exists Adj_i. split; [done|]. split.
  - eapply max_or_zero_iff; [|by apply run_max_zero].
    intros x. rewrite Hw1. unfold contributes_p, adds_p. split.
    + intros (J & HJ%elem_of_powerset & ? & ? & ?). by exists J.
    + intros (J & HJ%elem_of_powerset & ? & ? & ?). by exists J.
  - eapply max_or_zero_iff; [|by apply run_max_zero].
    intros x. rewrite Hw2. unfold contributes_pp, adds_pp. split.
    + intros (J & HJ%elem_of_powerset & ? & ? & ?). by exists J.
    + intros (J & HJ%elem_of_powerset & ? & ? & ?). by exists J.
Qed.

(** The loop of [interferenceDegree] over the vertices [vs]. *)
Lemma degree_loop H D (Adj : gmap Z (list Z)) (vs : list Z) :
  levels_ok H → matrix_ok (numVertices H) D → adj_ok (numVertices H) Adj →
  Forall (λ i, 1 ≤ i ≤ numVertices H) vs →
  ∀ (res : F) (Delta_p Delta_pp : list F),
  ∃ (dps dpps vals : list F),
    fold_outcome (degree_vertex H D Adj) vs (res, Delta_p, Delta_pp)
    = Ret (run_max res vals, Delta_p ++ dps, Delta_pp ++ dpps) ∧
    Forall (fle (of_Z 0)) vals ∧
    (∀ x, x ∈ vals ↔ x ∈ dps ∨ x ∈ dpps) ∧
    Forall2 (λ i '(dp, dpp), vertex_maxima H D Adj i dp dpp) vs (zip dps dpps) ∧
    length dps = length vs ∧ length dpps = length vs.
Proof.
  intros Hok HD HAdj. induction 1 as [|i vs Hi Hvs IH]; intros res Delta_p Delta_pp.
  - exists [], [], []. rewrite !app_nil_r. split; [done|]. split; [done|].
    split; [|by repeat split]. intros x. split; [by intros ?%elem_of_nil|].
    by intros [?%elem_of_nil|?%elem_of_nil].
  - destruct (degree_vertex_ok H D Adj i res Delta_p Delta_pp Hok HD HAdj Hi)
      as (dp & dpp & Hstep & Hdp & Hdpp & Hmax).
    destruct (IH (py_max2 (py_max2 res dp) dpp) (Delta_p ++ [dp]) (Delta_pp ++ [dpp]))
      as (dps & dpps & vals & Hfold & Hnn & Hvals & Hall & Hl1 & Hl2).
    exists (dp :: dps), (dpp :: dpps), (dp :: dpp :: vals).
    cbn [fold_outcome]. rewrite Hstep. simpl. rewrite Hfold.
    rewrite <- !app_assoc. split; [done|].
    split; [by repeat constructor|]. split; [|split; [by constructor|simpl; lia]].
    intros x. rewrite !elem_of_cons, Hvals. tauto.
Qed.

Lemma entry_insert D (a0 : nat) (row' : list F) (a b : nat) :
  (a0 < length D)%nat →
  entry (<[a0 := row']> D) a b
  = if decide (a = a0) then row' !! b else entry D a b.
Proof.
  intros Ha0. unfold entry. rewrite list_lookup_insert.
  repeat case_decide; try done; naive_solver.
Qed.

Lemma py_index_lookup {A} (l : list A) (i : Z) (x : A) :
  0 ≤ i → l !! Z.to_nat i = Some x → py_index l i = Ret x.
Proof.
  intros Hi Hx. destruct (py_index_in_range l i) as (y & Hy & ->).
  - apply lookup_lt_Some in Hx. lia.
  - congruence.
Qed.

(** The two assignments of [Delta] for the pair [(i, j)] write one number
    at [(i-1, j-1)] and at [(j-1, i-1)] and leave the other entries. *)
Lemma Delta_step_entry n D (len_e i j : Z) :
  matrix_ok n D → 1 ≤ i ≤ n → 1 ≤ j ≤ n → 2 ≤ len_e →
  ∃ D' old q,
    Delta_step len_e D [i; j] = Ret D' ∧ matrix_ok n D' ∧
    entry D (Z.to_nat (i - 1)) (Z.to_nat (j - 1)) = Some old ∧
    fdiv (of_Z 1) (of_Z (len_e - 1)) = Ret q ∧
    ∀ a b, entry D' a b
           = if decide ((a = Z.to_nat (i - 1) ∧ b = Z.to_nat (j - 1)) ∨
                        (a = Z.to_nat (j - 1) ∧ b = Z.to_nat (i - 1)))
             then Some (py_max2 old q) else entry D a b.
Proof.
  intros HD Hi Hj Hlen. pose proof HD as [HlenD Hrows].
  rewrite Forall_forall in Hrows.
  set (a0 := Z.to_nat (i - 1)). set (b0 := Z.to_nat (j - 1)).
  destruct (lookup_lt_is_Some_2 D a0) as [row Hrow]; [lia|].
  destruct (lookup_lt_is_Some_2 D b0) as [rowj Hrowj]; [lia|].
  destruct (Hrows row) as [Hlrow _]; [by eapply list_elem_of_lookup_2|].
  destruct (Hrows rowj) as [Hlrowj _]; [by eapply list_elem_of_lookup_2|].
  destruct (lookup_lt_is_Some_2 row b0) as [old Hold]; [lia|].
  destruct (recip_defined (len_e - 1)) as [q Hq]; [lia|].
  set (v := py_max2 old q). set (row' := <[b0 := v]> row).
  set (D1 := <[a0 := row']> D).
  set (row_j := if decide (a0 = b0) then row' else rowj).
  assert (Hrow_j : D1 !! b0 = Some row_j).
  { unfold D1, row_j. rewrite list_lookup_insert.
    repeat case_decide; try done; naive_solver lia. }
  assert (Hlrow' : length row' = length row) by apply length_insert.
  assert (Hlrow_j : Z.of_nat (length row_j) = n).
  { unfold row_j. case_decide; lia. }
  destruct (Delta_step_ok n D len_e i j HD Hi Hj Hlen) as (D' & HD' & HokD').
  exists D', old, q. split; [done|]. split; [done|].
  split; [unfold entry; fold a0 b0; by rewrite Hrow|]. split; [done|].
  fold v.
  assert (HD2 : D' = <[b0 := <[a0 := v]> row_j]> D1).
  { unfold Delta_step in HD'.
    rewrite (py_index_lookup D (i - 1) row) in HD' by (done || lia). simpl in HD'.
    rewrite (py_index_lookup row (j - 1) old) in HD' by (done || lia). simpl in HD'.
    rewrite Hq in HD'. simpl in HD'.
    rewrite py_setitem_in_range in HD' by lia. simpl in HD'.
    rewrite py_setitem_in_range in HD' by lia. simpl in HD'.
    fold a0 b0 v row' D1 in HD'.
    rewrite (py_index_lookup D1 (i - 1) row') in HD'; [|lia|]; cycle 1.
    { unfold D1. apply list_lookup_insert_eq. lia. }
    simpl in HD'.
    rewrite (py_index_lookup row' (j - 1) v) in HD'; [|lia|]; cycle 1.
    { unfold row'. apply list_lookup_insert_eq. lia. }
    simpl in HD'.
    rewrite (py_index_lookup D1 (j - 1) row_j) in HD' by (done || lia).
    simpl in HD'.
    rewrite py_setitem_in_range in HD' by lia. simpl in HD'.
    rewrite py_setitem_in_range in HD'
      by (unfold D1; rewrite length_insert; lia).
    by injection HD' as <-. }
  intros a b. rewrite HD2.
  rewrite entry_insert by (unfold D1; rewrite length_insert; lia).
  unfold D1 at 1. rewrite entry_insert by lia.
  destruct (decide (a = b0)) as [->|Hab].
  - unfold row_j. destruct (decide (a0 = b0)) as [Heq|Hne].
    + unfold row'. rewrite <- Heq. destruct (decide (b = a0)) as [->|Hb].
      * rewrite list_lookup_insert_eq by (rewrite length_insert; lia).
        by rewrite decide_True by auto.
      * rewrite !list_lookup_insert_ne by done.
        rewrite decide_False by (intros [[? ?]|[? ?]]; congruence).
        unfold entry. by rewrite Hrow.
    + destruct (decide (b = a0)) as [->|Hb].
      * rewrite list_lookup_insert_eq by lia. by rewrite decide_True by auto.
      * rewrite list_lookup_insert_ne by done.
        rewrite decide_False by (intros [[? ?]|[? ?]]; congruence).
        unfold entry. by rewrite Hrowj.
  - destruct (decide (a = a0)) as [->|Ha].
    + unfold row'. destruct (decide (b = b0)) as [->|Hb].
      * rewrite list_lookup_insert_eq by lia. by rewrite decide_True by auto.
      * rewrite list_lookup_insert_ne by done.
        rewrite decide_False by (intros [[? ?]|[? ?]]; congruence).
        unfold entry. by rewrite Hrow.
    + by rewrite decide_False by (intros [[? ?]|[? ?]]; congruence).
Qed.

Lemma Adj_add_neighbour (a b : Z) Adj Adj' :
  Adj_add a b Adj = Ret Adj' →
  ∀ c x, neighbour Adj' c x ↔ neighbour Adj c x ∨ (c = b ∧ x = a).
Proof.
  unfold Adj_add, neighbour. destruct (Adj !! b) as [l|] eqn:Hl; [|done].
  case_bool_decide as Hal.
  - intros [= <-] c x. split; [by left|].
    intros [?|[-> ->]]; [done | by exists l].
  - intros [= <-] c x. rewrite lookup_insert. case_decide as Hc.
    + subst c. split.
      * intros (l' & [= <-] & [?| ->%list_elem_of_singleton]%elem_of_app).
        -- left. by exists l.
        -- by right.
      * intros [(l' & Hl' & Hx)|[_ ->]].
        -- assert (l' = l) as -> by congruence.
           eexists. split; [done|]. apply elem_of_app. by left.
        -- eexists. split; [done|]. apply elem_of_app. right. by left.
    + split; [by left|]. by intros [?|[-> _]].
Qed.

Lemma Adj_init_empty (ks : list Z) (m : gmap Z (list Z)) :
  (∀ i l, m !! i = Some l → l = []) →
  ∀ i l, foldl (λ Adj i, <[i := []]> Adj) m ks !! i = Some l → l = [].
Proof.
  revert m. induction ks as [|k ks IH]; intros m Hm; [done|]. cbn [foldl].
  apply IH. intros i l. rewrite lookup_insert. case_decide; [by intros [= <-]|].
  apply Hm.
Qed.


(** *** The matrix and the lists against the specification *)

(** [x] is the largest number that satisfies [P], or 0 and no number
    satisfies [P]: the alternative is decided. *)
Definition largest (P : F → Prop) (x : F) : Prop :=
  (P x ∧ ∀ y, P y → fle y x) ∨ (x = of_Z 0 ∧ ∀ y, ¬ P y).

Lemma largest_max_or_zero (P : F → Prop) (x : F) :
  largest P x → max_or_zero P x.
Proof.
  intros [[HP Hub]|[-> Hno]].
  - split; [done|]. split; [done|]. intros Hnone. destruct Hnone. by exists x.
  - split; [intros y Hy; by destruct (Hno y)|].
    split; [intros [y Hy]; by destruct (Hno y) | done].
Qed.

Lemma largest_unique (P : F → Prop) (x r : F) :
  largest P x → max_or_zero P r → r = x.
Proof.
  intros [[HP Hub]|[-> Hno]] (Hub' & Hin & Hnone).
  - assert (HPr : P r) by (apply Hin; by exists x).
    apply fgt_total; [by apply Hub | by apply Hub'].
  - apply Hnone. intros [y Hy]. by destruct (Hno y).
Qed.

Lemma largest_iff (P Q : F → Prop) (x : F) :
  (∀ y, P y ↔ Q y) → largest P x → largest Q x.
Proof.
  intros Hiff [[HP Hub]|[-> Hno]].
  - left. split; [by apply Hiff|]. intros y ?%Hiff. by apply Hub.
  - right. split; [done|]. intros y ?%Hiff. by destruct (Hno y).
Qed.

(** One assignment [x = max(x, q)] with a non-negative [q]. *)
Lemma largest_step (P : F → Prop) (old q : F) :
  largest P old → fle (of_Z 0) q →
  largest (λ y, P y ∨ y = q) (py_max2 old q).
Proof.
  intros Hold Hq. left.
  assert (Hub : ∀ y, P y ∨ y = q → fle y (py_max2 old q)).
  { intros y [Hy| ->]; [|apply fle_max_r].
    destruct Hold as [[_ Hub]|[_ Hno]]; [|by destruct (Hno y)].
    eapply fle_trans; [by apply Hub | apply fle_max_l]. }
  split; [|done].
  destruct (py_max2_cases old q) as [Heq|Heq]; rewrite Heq; [|by right].
  destruct Hold as [[HP _]|[-> _]]; [by left|]. right.
  apply fgt_total; [exact Hq|].
  pose proof (fle_max_r (of_Z 0) q) as Hle. rewrite Heq in Hle. exact Hle.
Qed.

(** [p] is the pair [(i, j)] or the pair [(j, i)]. *)
Definition pair_of (p : list Z) (i j : Z) : Prop := p = [i; j] ∨ p = [j; i].

Lemma pair_of_sym (p : list Z) (i j : Z) : pair_of p i j ↔ pair_of p j i.
Proof. unfold pair_of. tauto. Qed.

(** The pairs of the edges, in the order in which [Delta] and
    [AdjacencyList] visit them. *)
Definition edge_pairs H : list (list Z * list Z) :=
  k ← range 0 (numVertices H + 1);
  e ← default [] (E H !! k);
  (λ p, (e, p)) <$> combinations e 2.

Lemma elem_of_edge_pairs H (e p : list Z) :
  levels_ok H →
  (e, p) ∈ edge_pairs H ↔
  ∃ k Ek, E H !! k = Some Ek ∧ e ∈ Ek ∧ p ∈ combinations e 2.
Proof.
  intros Hok. unfold edge_pairs. rewrite list_elem_of_bind. split.
  - intros (k & Hin & Hk). apply list_elem_of_bind in Hin as (e' & Hin & He').
    apply list_elem_of_fmap in Hin as (p' & [= -> ->] & Hp').
    destruct (E H !! k) as [Ek|] eqn:HEk; simpl in He';
      [|by apply elem_of_nil in He'].
    by exists k, Ek.
  - intros (k & Ek & HEk & He & Hp). exists k. split.
    + apply list_elem_of_bind. exists e. rewrite HEk. split; [|done].
      apply list_elem_of_fmap. by exists p.
    + apply elem_of_range. assert (is_Some (E H !! k)) as ?%Hok by eauto. lia.
Qed.

Lemma singleton_sublist {A} (x : A) (l : list A) : x ∈ l → [x] `sublist_of` l.
Proof.
  intros (l1 & l2 & ->)%list_elem_of_split.
  apply sublist_inserts_l, sublist_skip, sublist_nil_l.
Qed.

(** In an edge without repeated ids, two ids lie together when they differ
    and both are in the edge. *)
Lemma together_NoDup (e : list Z) (i j : Z) :
  NoDup e → together e i j ↔ i ≠ j ∧ i ∈ e ∧ j ∈ e.
Proof.
  intros Hnd. unfold together. split.
  - intros [Hs|Hs]; pose proof (sublist_NoDup _ _ Hnd Hs) as Hij;
      pose proof (sublist_subseteq _ _ Hs) as Hin;
      apply NoDup_cons in Hij as [Hij _];
      (split; [intros ->; apply Hij; by left|]);
      split; apply Hin; set_solver.
  - intros (Hne & (l1 & l2 & ->)%list_elem_of_split & Hj).
    apply elem_of_app in Hj as [Hj|[?|Hj]%elem_of_cons]; [|done|].
    + right. apply list_elem_of_split in Hj as (l3 & l4 & ->).
      rewrite <- app_assoc. apply sublist_inserts_l. cbn [app].
      apply sublist_skip, singleton_sublist. set_solver.
    + left. apply sublist_inserts_l, sublist_skip. by apply singleton_sublist.
Qed.

Lemma together_pairs (e : list Z) (i j : Z) :
  together e i j ↔ ∃ p, p ∈ combinations e 2 ∧ pair_of p i j.
Proof.
  unfold together, pair_of. split.
  - intros [Hs|Hs]; eexists; (split; [by apply elem_of_combinations|]); auto.
  - intros (p & [Hs _]%elem_of_combinations & [-> | ->]); auto.
Qed.

Lemma fold_outcome_prefix {A B} (I : list A → B → Prop)
    (body : B → A → outcome B) (l : list A) :
  (∀ pre x u, x ∈ l → I pre u → ∃ u', body u x = Ret u' ∧ I (pre ++ [x]) u') →
  ∀ pre u0, I pre u0 →
            ∃ u', fold_outcome body l u0 = Ret u' ∧ I (pre ++ l) u'.
Proof.
  induction l as [|x l IH]; intros Hstep pre u0 Hu0.
  - exists u0. by rewrite app_nil_r.
  - destruct (Hstep pre x u0) as (u1 & Hu1 & HI1); [by left | done|].
    cbn [fold_outcome]. rewrite Hu1. simpl.
    destruct (IH (λ pre' y u Hy, Hstep pre' y u (list_elem_of_further _ _ _ Hy))
                (pre ++ [x]) u1 HI1) as (u' & Hu' & HI').
    exists u'. split; [done|]. by rewrite <- app_assoc in HI'.
Qed.

(** The three nested loops of [Delta] and of [AdjacencyList], with what
    holds after the pairs visited so far. *)
Lemma edge_pairs_fold {B} (f : list Z → B → list Z → outcome B)
    (I : list (list Z * list Z) → B → Prop) H (u0 : B) :
  levels_ok H → I [] u0 →
  (∀ visited e p u k Ek,
     E H !! k = Some Ek → e ∈ Ek → p ∈ combinations e 2 → I visited u →
     ∃ u', f e u p = Ret u' ∧ I (visited ++ [(e, p)]) u') →
  ∃ u',
    fold_outcome (λ u k,
      match E H !! k with
      | None => Raise KeyError
      | Some Ek =>
          fold_outcome (λ u e, fold_outcome (f e) (combinations e 2) u) Ek u
      end) (range 0 (numVertices H + 1)) u0 = Ret u' ∧
    I (edge_pairs H) u'.
Proof.
  intros Hok H0 Hstep. unfold edge_pairs.
  set (g2 := λ e : list Z, (λ p, (e, p)) <$> combinations e 2).
  set (g1 := λ k : Z, default [] (E H !! k) ≫= g2).
  apply (fold_outcome_prefix (λ ks u, I (ks ≫= g1) u) _ _) with (pre := []);
    [|done].
  intros ks k u Hk%elem_of_range HI.
  destruct (proj2 (Hok k)) as [Ek HEk]; [lia|]. rewrite HEk.
  rewrite bind_app. cbn [mbind list_bind]. rewrite app_nil_r.
  unfold g1 at 2. rewrite HEk. cbn [default].
  destruct (fold_outcome_prefix (λ es u, I ((ks ≫= g1) ++ (es ≫= g2)) u)
              (λ u e, fold_outcome (f e) (combinations e 2) u) Ek)
    with (pre := @nil (list Z)) (u0 := u) as (u' & Hu' & HI');
    [|by rewrite app_nil_r|by exists u'].
  intros es e u1 He HI1.
  rewrite bind_app. cbn [mbind list_bind]. rewrite app_nil_r.
  destruct (fold_outcome_prefix
              (λ ps u, I (((ks ≫= g1) ++ (es ≫= g2)) ++ ((λ p, (e, p)) <$> ps)) u)
              (f e) (combinations e 2))
    with (pre := @nil (list Z)) (u0 := u1) as (u' & Hu' & HI');
    [|by rewrite app_nil_r|].
  - intros ps p' u2 Hp HI2.
    destruct (Hstep _ e p' u2 k Ek HEk He Hp HI2) as (u' & Hu' & HI').
    exists u'. split; [done|]. by rewrite fmap_app, app_assoc.
  - exists u'. split; [done|]. by rewrite <- app_assoc in HI'.
Qed.

(** The weights that the visited pairs entered for [(i, j)]. *)
Definition entered (visited : list (list Z * list Z)) (i j : Z) (x : F)
    : Prop :=
  ∃ e p, (e, p) ∈ visited ∧ pair_of p i j ∧
         fdiv (of_Z 1) (of_Z (Z.of_nat (length e) - 1)) = Ret x.

Definition Delta_inv (n : Z) (visited : list (list Z * list Z)) D : Prop :=
  matrix_ok n D ∧
  ∀ i j, 1 ≤ i ≤ n → 1 ≤ j ≤ n →
         ∃ x, entry D (Z.to_nat (i - 1)) (Z.to_nat (j - 1)) = Some x ∧
              largest (entered visited i j) x.

Lemma Delta_step_inv n visited D (e : list Z) (i0 j0 : Z) :
  Delta_inv n visited D → 1 ≤ i0 ≤ n → 1 ≤ j0 ≤ n → (2 ≤ length e)%nat →
  ∃ D', Delta_step (Z.of_nat (length e)) D [i0; j0] = Ret D' ∧
        Delta_inv n (visited ++ [(e, [i0; j0])]) D'.
Proof.
  intros [HD Hent] Hi0 Hj0 Hlen.
  destruct (Delta_step_entry n D (Z.of_nat (length e)) i0 j0)
    as (D' & old & q & HD' & HokD' & Hold & Hq & Hnew); [done | done | done | lia|].
  exists D'. split; [done|]. split; [done|]. intros i j Hi Hj.
  assert (Hqnn : fle (of_Z 0) q).
  { apply (recip_nonneg (Z.of_nat (length e) - 1)); [lia | done]. }
  rewrite Hnew. case_decide as Hd.
  - assert (Hij : pair_of [i0; j0] i j).
    { unfold pair_of. destruct Hd as [[? ?]|[? ?]];
        [left | right]; f_equal; [|f_equal| |f_equal]; lia. }
    eexists. split; [done|].
    destruct (Hent i0 j0 Hi0 Hj0) as (old' & Hold' & Hlargest).
    assert (old' = old) as -> by congruence.
    eapply largest_iff; [|by apply largest_step]. intros y. split.
    + intros [(e' & p & Hin & Hp & Hy)| ->].
      * exists e', p. split; [apply elem_of_app; by left|]. split; [|done].
        destruct Hij as [[= -> ->]|[= -> ->]]; [done | by apply pair_of_sym].
      * exists e, [i0; j0]. split; [apply elem_of_app; right; by left|].
        done.
    + intros (e' & p & [Hin|[= -> ->]%list_elem_of_singleton]%elem_of_app & Hp & Hy).
      * left. exists e', p. split; [done|]. split; [|done].
        destruct Hij as [[= -> ->]|[= -> ->]]; [done | by apply pair_of_sym].
      * right. congruence.
  - destruct (Hent i j Hi Hj) as (x & Hx & Hlargest). exists x. split; [done|].
    eapply largest_iff; [|done]. intros y. split.
    + intros (e' & p & Hin & Hp & Hy). exists e', p.
      split; [apply elem_of_app; by left | done].
    + intros (e' & p & [Hin|[= -> ->]%list_elem_of_singleton]%elem_of_app & Hp & Hy).
      * by exists e', p.
      * destruct Hd. destruct Hp as [[= -> ->]|[= -> ->]]; auto.
Qed.

Lemma entered_edge_weight H (i j : Z) (x : F) :
  levels_ok H → entered (edge_pairs H) i j x ↔ edge_weight H i j x.
Proof.
  intros Hok. unfold entered, edge_weight. split.
  - intros (e & p & (k & Ek & HEk & He & Hp)%elem_of_edge_pairs & Hij & Hx);
      [|done].
    exists k, Ek, e. split; [done|]. split; [done|]. split; [|done].
    apply together_pairs. by exists p.
  - intros (k & Ek & e & HEk & He & (p & Hp & Hij)%together_pairs & Hx).
    exists e, p. split; [|done]. apply elem_of_edge_pairs; [done|].
    by exists k, Ek.
Qed.

(** [Delta()] returns the matrix of the weights: [Delta[i-1][j-1]] is the
    largest [1 / (|e| - 1)] over the edges that hold [i] and [j] together,
    and 0 without such an edge. *)
Lemma Delta_weights H :
  levels_ok H → edges_in_range H → 0 ≤ numVertices H →
  ∃ D, Delta H = Ret D ∧ matrix_ok (numVertices H) D ∧
       ∀ i j, 1 ≤ i ≤ numVertices H → 1 ≤ j ≤ numVertices H →
              ∃ x, entry D (Z.to_nat (i - 1)) (Z.to_nat (j - 1)) = Some x ∧
                   largest (edge_weight H i j) x.
Proof.
  intros Hok Hrange HN. unfold Delta.
  destruct (edge_pairs_fold (λ e, Delta_step (Z.of_nat (length e)))
              (Delta_inv (numVertices H)) H
              (zeros_matrix (numVertices H) (numVertices H)) Hok)
    as (D & HD & [HDok Hent]).
  - split; [by apply zeros_matrix_ok|]. intros i j Hi Hj. exists (of_Z 0).
    split.
    + unfold entry, zeros_matrix. rewrite lookup_replicate_2 by lia. simpl.
      by rewrite lookup_replicate_2 by lia.
    + right. split; [done|]. by intros y (e & p & ?%elem_of_nil & _).
  - intros visited e p D1 k Ek HEk He Hp HD1.
    destruct (combinations_2 e p Hp) as (i & j & -> & Hi & Hj & Hlen).
    pose proof (Hrange k Ek e HEk He) as Hin. rewrite Forall_forall in Hin.
    apply Delta_step_inv; [done | by apply Hin | by apply Hin | done].
  - exists D. split; [done|]. split; [done|]. intros i j Hi Hj.
    destruct (Hent i j Hi Hj) as (x & Hx & Hl). exists x. split; [done|].
    eapply largest_iff; [|done]. intros y. by apply entered_edge_weight.
Qed.

Definition Adj_inv (n : Z) (visited : list (list Z * list Z))
    (Adj : gmap Z (list Z)) : Prop :=
  adj_ok n Adj ∧
  ∀ c x, neighbour Adj c x ↔ ∃ e p, (e, p) ∈ visited ∧ pair_of p c x.

(** [AdjacencyList()] returns the neighbour sets: [Adj[i]] lists, without
    repetition, the vertices that lie together with [i] in an edge. *)
Lemma AdjacencyList_adjacent H :
  levels_ok H → edges_in_range H →
  ∃ Adj, AdjacencyList H = Ret Adj ∧ adj_ok (numVertices H) Adj ∧
         ∀ c x, neighbour Adj c x ↔ adjacent H c x.
Proof.
  intros Hok Hrange. unfold AdjacencyList.
  destruct (edge_pairs_fold
              (λ (e : list Z) (Adj : gmap Z (list Z)) (p : list Z),
                 match p with
                 | [i; j] => Adj' ← Adj_add i j Adj; Adj_add j i Adj'
                 | _ => Raise ValueError
                 end)
              (Adj_inv (numVertices H)) H
              (foldl (λ Adj i, <[i := []]> Adj) ∅ (range 1 (numVertices H + 1)))
              Hok)
    as (Adj & HAdj & [Hadj Hn]).
  - split; [apply Adj_init_ok|]. intros c x. split.
    + intros (l & Hl & Hx).
      apply Adj_init_empty in Hl as ->; [by apply elem_of_nil in Hx|].
      intros i' l'. by rewrite lookup_empty.
    + by intros (e & p & ?%elem_of_nil & _).
  - intros visited e p Adj1 k Ek HEk He Hp [Hadj1 Hn1].
    destruct (combinations_2 e p Hp) as (i & j & -> & Hi & Hj & Hlen).
    pose proof (Hrange k Ek e HEk He) as Hin. rewrite Forall_forall in Hin.
    destruct (Adj_add_ok _ i j Adj1 Hadj1) as (Adj2 & H2 & Hadj2);
      [by apply Hin..|].
    destruct (Adj_add_ok _ j i Adj2 Hadj2) as (Adj3 & H3 & Hadj3);
      [by apply Hin..|].
    exists Adj3. rewrite H2. simpl. split; [done|]. split; [done|].
    intros c x. rewrite (Adj_add_neighbour _ _ _ _ H3 c x).
    rewrite (Adj_add_neighbour _ _ _ _ H2 c x), Hn1. split.
    + intros [[(e' & p' & Hin' & Hp')|[-> ->]]|[-> ->]].
      * exists e', p'. split; [apply elem_of_app; by left | done].
      * exists e, [i; j]. split; [apply elem_of_app; right; by left|].
        by right.
      * exists e, [i; j]. split; [apply elem_of_app; right; by left|].
        by left.
    + intros (e' & p' & [Hin'|[= -> ->]%list_elem_of_singleton]%elem_of_app & Hp').
      * left. left. by exists e', p'.
      * destruct Hp' as [[= -> ->]|[= -> ->]]; auto.
  - exists Adj. split; [done|]. split; [done|]. intros c x. rewrite Hn.
    unfold adjacent. split.
    + intros (e & p & (k & Ek & HEk & He & Hp)%elem_of_edge_pairs & Hcx); [|done].
      exists k, Ek, e. split; [done|]. split; [done|].
      apply together_pairs. by exists p.
    + intros (k & Ek & e & HEk & He & (p & Hp & Hcx)%together_pairs).
      exists e, p. split; [|done]. apply elem_of_edge_pairs; [done|].
      by exists k, Ek.
Qed.

(** The sum that the program forms from the matrix is the sum of the
    weights. *)
Lemma weight_sum_spec H D (i : Z) J (s0 : F) :
  (∀ i j, 1 ≤ i ≤ numVertices H → 1 ≤ j ≤ numVertices H →
          ∃ x, entry D (Z.to_nat (i - 1)) (Z.to_nat (j - 1)) = Some x ∧
               largest (edge_weight H i j) x) →
  1 ≤ i ≤ numVertices H → Forall (λ v, 1 ≤ v ≤ numVertices H) J →
  ∃ ws, weight_sum D i s0 J = Ret (foldl fadd s0 ws) ∧
        Forall2 (λ j x, largest (edge_weight H i j) x) J ws.
Proof.
  intros Hent Hi HJ. revert s0. unfold weight_sum.
  induction HJ as [|j J Hj HJ IH]; intros s0; [by exists []|].
  destruct (Hent i j Hi Hj) as (x & Hx & Hl).
  unfold entry in Hx.
  destruct (D !! Z.to_nat (i - 1)) as [row|] eqn:Hrow; [|done]. simpl in Hx.
  destruct (IH (fadd s0 x)) as (ws & Hws & Hall).
  exists (x :: ws). split; [|by constructor].
  cbn [fold_outcome]. rewrite (py_index_lookup D (i - 1) row) by (done || lia).
  simpl. rewrite (py_index_lookup row (j - 1) x) by (done || lia). simpl.
  rewrite (py_index_lookup D (i - 1) row) in Hws by (done || lia).
  exact Hws.
Qed.

Lemma weights_unique H (i : Z) J (ws ws' : list F) :
  Forall2 (λ j x, largest (edge_weight H i j) x) J ws →
  Forall2 (weight H i) J ws' → ws' = ws.
Proof.
  intros Hl. revert ws'. induction Hl as [|j x J ws Hx Hl IH]; intros ws' Hw.
  - by apply Forall2_nil_inv_l in Hw.
  - apply Forall2_cons_inv_l in Hw as (x' & ws'' & Hx' & Hw & ->).
    f_equal; [by eapply largest_unique | by apply IH].
Qed.

(** The maxima that the program forms from its matrix and its lists are
    [Delta'(i)] and [Delta''(i)]. *)
Lemma vertex_maxima_spec H D (Adj : gmap Z (list Z)) (i : Z) (dp dpp : F) :
  (∀ i j, 1 ≤ i ≤ numVertices H → 1 ≤ j ≤ numVertices H →
          ∃ x, entry D (Z.to_nat (i - 1)) (Z.to_nat (j - 1)) = Some x ∧
               largest (edge_weight H i j) x) →
  adj_ok (numVertices H) Adj → (∀ c x, neighbour Adj c x ↔ adjacent H c x) →
  1 ≤ i ≤ numVertices H →
  vertex_maxima H D Adj i dp dpp → vertex_degrees H i dp dpp.
Proof.
  intros Hent Hadj Hn Hi (Adj_i & HAi & Hp & Hpp).
  destruct (Hadj i Hi) as (l & Hl & Hnd & Hin).
  assert (l = Adj_i) as -> by congruence.
  assert (Hsum : ∀ J (s0 x : F), J `sublist_of` Adj_i →
            weight_sum D i s0 J = Ret x ↔ weights_sum H i s0 J x).
  { intros J s0 x HJ.
    destruct (weight_sum_spec H D i J s0 Hent Hi) as (ws & Hws & Hall).
    { eapply Forall_subset; [by apply sublist_subseteq | done]. }
    rewrite Hws. split.
    - intros [= <-]. exists ws. split; [|done].
      eapply Forall2_impl; [done|]. intros j y. apply largest_max_or_zero.
    - intros (ws' & Hw' & ->). by rewrite (weights_unique H i J ws ws'). }
  exists Adj_i. split; [|split].
  - split; [done|]. intros j. rewrite <- Hn. unfold neighbour. split.
    + intros Hj. by exists Adj_i.
    + intros (l & Hl' & Hj). congruence.
  - eapply max_or_zero_iff; [|done]. intros x.
    unfold contributes_p, degree_p. split.
    + intros (J & HJ & ? & ? & Hs). exists J. by rewrite <- Hsum.
    + intros (J & HJ & ? & ? & Hs). exists J. by rewrite Hsum.
  - eapply max_or_zero_iff; [|done]. intros x.
    unfold contributes_pp, degree_pp. split.
    + intros (J & HJ & ? & ? & Hs). exists J. by rewrite <- Hsum.
    + intros (J & HJ & ? & ? & Hs). exists J. by rewrite Hsum.
Qed.

(** C6: on a hypergraph of [N >= 0] vertices whose level sets are [0..N]
    and whose edges hold vertices, [interferenceDegree()] returns.  With
    the neighbours of [i] the vertices that lie together with [i] in an
    edge, and the weight [Delta(i,j)] the largest [1 / (|e| - 1)] over the
    edges [e] that hold [i] and [j] together (0 without such an edge): the
    list printed as [Delta_p] holds for each vertex [i] the largest sum of
    the weights [Delta(i,j)], [j] in [J], over the non-empty subsets [J] of
    the neighbours of [i] that are independent sets, and 0 without any; the
    list printed as [Delta_pp] holds the largest of 1 plus that sum over
    the non-empty subsets [J] with [J ∪ {i}] independent, and 0 without
    any; and the result is the largest of all these numbers, 0 when
    [N = 0]. *)
Theorem interferenceDegree_correct H (out : list (line F)) :
  levels_ok H → edges_in_range H → 0 ≤ numVertices H →
  ∃ (Delta_p Delta_pp : list F) (res : F),
    interferenceDegree (mkWorld H out)
    = (Ret res,
       mkWorld H ((out ++ [PrintDelta_p Delta_p]) ++ [PrintDelta_pp Delta_pp])) ∧
    Forall2 (λ i '(dp, dpp), vertex_degrees H i dp dpp)
      (range 1 (numVertices H + 1)) (zip Delta_p Delta_pp) ∧
    Z.of_nat (length Delta_p) = numVertices H ∧
    Z.of_nat (length Delta_pp) = numVertices H ∧
    max_or_zero (λ x, x ∈ Delta_p ∨ x ∈ Delta_pp) res ∧
    (numVertices H = 0 → res = of_Z 0).
Proof.
  intros Hok Hrange HN.
  destruct (Delta_weights H Hok Hrange HN) as (D & HDrun & HD & Hent).
  destruct (AdjacencyList_adjacent H Hok Hrange) as (Adj & HAdjrun & HAdj & Hn).
  assert (Hvs : Forall (λ i, 1 ≤ i ≤ numVertices H) (range 1 (numVertices H + 1))).
  { apply Forall_forall. intros i Hi%elem_of_range. lia. }
  destruct (degree_loop H D Adj (range 1 (numVertices H + 1)) Hok HD HAdj Hvs)
    with (res := of_Z 0) (Delta_p := @nil F) (Delta_pp := @nil F)
    as (dps & dpps & vals & Hfold & Hnn & Hvals & Hall & Hl1 & Hl2).
  assert (Hlen : Z.of_nat (length (range 1 (numVertices H + 1))) = numVertices H).
  { unfold range. rewrite length_seqZ. lia. }
  assert (Hmax : max_or_zero (λ x, x ∈ dps ∨ x ∈ dpps) (run_max (of_Z 0) vals)).
  { eapply max_or_zero_iff; [exact Hvals | by apply run_max_zero]. }
  assert (Hspec : Forall2 (λ i '(dp, dpp), vertex_degrees H i dp dpp)
                    (range 1 (numVertices H + 1)) (zip dps dpps)).
  { clear Hfold Hlen Hl1 Hl2. revert Hvs.
    induction Hall as [|i [dp dpp] vs ps Hv Hall IH]; intros Hvs; [constructor|].
    apply Forall_cons in Hvs as [Hi Hvs]. constructor; [|by apply IH].
    by apply (vertex_maxima_spec H D Adj). }
  exists dps, dpps, (run_max (of_Z 0) vals). split.
  - unfold interferenceDegree. erewrite bind_Ret; [|done]. cbn [self].
    erewrite bind_Ret; [|unfold lift; by rewrite HDrun].
    erewrite bind_Ret; [|unfold lift; by rewrite HAdjrun].
    erewrite bind_Ret; [|unfold lift; by rewrite Hfold]. done.
  - split; [done|]. split; [lia|]. split; [lia|]. split; [done|].
    intros HN0. destruct Hmax as (_ & _ & Hnone). apply Hnone.
    destruct dps; [|simpl in Hl1; lia]. destruct dpps; [|simpl in Hl2; lia].
    by intros [x [?%elem_of_nil|?%elem_of_nil]].
Qed.

End DegreeProofs.

(** ** The order of the exact rationals *)

Module ExactOrder.

Local Open Scope Qc_scope.

Lemma gt_true (a b : Qc) : Exact.gt a b = true ↔ b < a.
Proof.
  unfold Exact.gt. rewrite negb_true_iff, <- not_true_iff_false, Qle_bool_iff.
  split; [apply Qnot_le_lt | apply Qlt_not_le].
Qed.

Lemma gt_false (a b : Qc) : Exact.gt a b = false ↔ a <= b.
Proof. unfold Exact.gt. by rewrite negb_false_iff, Qle_bool_iff. Qed.

Lemma inj_pos (n : Z) : (0 < n)%Z → 0 < Exact.inj n.
Proof.
  intros Hn. unfold Exact.inj, Qclt. cbn [this Q2Qc].
  setoid_rewrite Qred_correct. unfold Qlt, inject_Z; simpl. lia.
Qed.

Lemma recip_nonneg_Qc (n : Z) : (0 < n)%Z → 0 <= Exact.inj 1 / Exact.inj n.
Proof.
  intros Hn. unfold Qcle, Qcdiv, Qcmult, Qcinv, Exact.inj. cbn [this Q2Qc].
  rewrite !Qred_correct. apply Qmult_le_0_compat; [done|].
  apply Qinv_le_0_compat. unfold Qle, inject_Z; simpl. lia.
Qed.

Lemma recip (n : Z) :
  (0 < n)%Z → fdiv (of_Z 1) (of_Z n) = Ret (Exact.inj 1 / Exact.inj n).
Proof.
  intros Hn. simpl. unfold Exact.div. case_decide as Heq; [|done].
  pose proof (inj_pos n Hn) as Hpos. rewrite Heq in Hpos.
  by apply Qclt_not_eq in Hpos.
Qed.

Lemma Qcpower_inv (x : Qc) (n : nat) : Qcpower (/ x) n = / Qcpower x n.
Proof.
  induction n as [|n IH]; [by apply Qc_is_canon|].
  simpl. by rewrite IH, Qcinv_mult_distr.
Qed.

Lemma Qcpower_nonzero (x : Qc) (n : nat) : x ≠ 0 → Qcpower x n ≠ 0.
Proof.
  intros Hx. induction n as [|n IH]; [done|]. simpl.
  intros [?|?]%Qcmult_integral; done.
Qed.

Lemma this_inj (n : Z) : this (Exact.inj n) = inject_Z n.
Proof.
  unfold Exact.inj. cbn [this Q2Qc]. apply Qred_identity. simpl.
  apply Z.gcd_1_r.
Qed.

Lemma this_opp_inj (n : Z) : this (- Exact.inj n) = inject_Z (- n).
Proof.
  unfold Qcopp. cbn [this Q2Qc]. rewrite this_inj.
  apply Qred_identity. simpl. apply Z.gcd_1_r.
Qed.

(** In exact arithmetic the power [d ** (-n)] of [received] is the
    reciprocal [1 / d ** n] of the specification. *)
Lemma pow_neg_recip (d : Qc) (n : Z) :
  d ≠ 0 → (0 ≤ n)%Z →
  fpow d (fneg (of_Z n)) = (p ← fpow d (of_Z n); fdiv (of_Z 1) p).
Proof.
  intros Hd Hn. cbn [fpow fneg of_Z fdiv Exact.num]. unfold Exact.pow.
  rewrite this_opp_inj, this_inj. simpl.
  destruct (Z.leb_spec 0 n); [|lia].
  destruct (Z.leb_spec 0 (- n)).
  - assert (n = 0%Z) as -> by lia. simpl. unfold Exact.div.
    destruct (decide (1 = Q2Qc 0)) as [Heq|_]; [by apply (f_equal this) in Heq|].
    done.
  - rewrite decide_False by done. simpl. unfold Exact.div.
    rewrite decide_False by (by apply Qcpower_nonzero).
    rewrite Z.opp_involutive, Qcpower_inv. f_equal.
    unfold Qcdiv. replace (Exact.inj 1) with 1 by (by apply Qc_is_canon).
    by rewrite Qcmult_1_l.
Qed.

Global Instance order : PyNumOrder Qc.
Proof.
  split.
  - intros a. apply gt_false, Qcle_refl.
  - intros a b c Hab%gt_true Hbc%gt_true. apply gt_true. by eapply Qclt_trans.
  - intros a b Hab%gt_false Hba%gt_false. by apply Qcle_antisym.
  - intros a b Ha%gt_false Hb%gt_false. apply gt_false.
    replace (of_Z 0) with (of_Z 0 + of_Z 0) by (by apply Qc_is_canon).
    by apply Qcplus_le_compat.
  - by apply gt_false.
  - intros n q Hn. rewrite recip by done. intros [= <-]. apply gt_false.
    by apply recip_nonneg_Qc.
  - intros n Hn. rewrite recip by done. by eexists.
Qed.

End ExactOrder.

(** ** The interference degree on a concrete input *)

Lemma Hypergraph_init_in_range {F : Type} {num : PyNum F} (n : Z) :
  edges_in_range (Hypergraph_init (loc:=point F) n).
Proof. intros k Ek e ->%Hypergraph_init_lookup. by intros ?%elem_of_nil. Qed.

Lemma E_addEdge_in_range {F : Type} {num : PyNum F}
    (H : Hypergraph (point F)) (e : list Z) :
  Forall (λ v, 1 ≤ v ≤ numVertices H) e →
  edges_in_range H → edges_in_range (set_E (E_addEdge e) H).
Proof.
  intros He Hr k Ek f. cbn [E numVertices set_E]. unfold E_addEdge.
  destruct (E H !! Z.of_nat (length e)) as [El|] eqn:HEl; [|by apply Hr].
  case_decide as Hin; [by apply Hr|]. rewrite lookup_insert.
  case_decide as Hk; [|by apply Hr]. intros [= <-]. subst k.
  intros [Hf| ->%list_elem_of_singleton]%elem_of_app; [by eapply Hr|].
  unfold sorted. by rewrite merge_sort_Permutation.
Qed.

Lemma interferenceDegree_correct_witness :
  let H := set_E (E_addEdge [1; 2; 3]) (Hypergraph_init (loc:=point Qc) 3) in
  levels_ok H ∧ edges_in_range H ∧
  ∃ (Delta_p Delta_pp : list Qc) (res : Qc),
    interferenceDegree (mkWorld H [])
    = (Ret res, mkWorld H [PrintDelta_p Delta_p; PrintDelta_pp Delta_pp]) ∧
    Forall2 (λ i '(dp, dpp), vertex_degrees H i dp dpp) [1; 2; 3]
      (zip Delta_p Delta_pp) ∧
    max_or_zero (λ x, x ∈ Delta_p ∨ x ∈ Delta_pp) res ∧
    res = Q2Qc (3 # 2).
Proof.
  intros H.
  assert (Hok : levels_ok H).
  { apply set_E_levels_ok; [apply E_addEdge_keys | apply Hypergraph_init_levels]. }
  assert (Hr : edges_in_range H).
  { apply E_addEdge_in_range; [|apply Hypergraph_init_in_range].
    repeat constructor; simpl; lia. }
  split; [exact Hok|]. split; [exact Hr|].
  destruct (interferenceDegree_correct H [] Hok Hr)
    as (dp & dpp & res & Hrun & Hall & _ & _ & Hmax & _); [simpl; lia|].
  exists dp, dpp, res. split; [exact Hrun|]. split; [exact Hall|].
  split; [exact Hmax|].
  pose proof (f_equal fst Hrun) as Hres. vm_compute in Hres.
  injection Hres as <-. by apply Qc_is_canon.
Defined.

(** ** Further properties of the store *)

(** [getNumEdges] *)
Definition getNumEdges {loc : Type} (H : Hypergraph loc) : outcome Z :=
  fold_outcome (λ res i,
    match E H !! i with
    | Some Ei => Ret (res + Z.of_nat (length Ei))
    | None => Raise KeyError
    end) (range 0 (numVertices H + 1)) 0.

Section StoreExtras.
Context {loc F : Type}.
Implicit Types (H : Hypergraph loc) (w : World loc F) (e f : list Z)
  (out : list (line F)).

Lemma remove_first_NoDup {A} `{EqDecision A} (x : A) (l : list A) :
  NoDup l → remove_first x l = filter (λ y, y ≠ x) l.
Proof.
  intros Hnd. destruct (decide (x ∈ l)) as [Hin|Hin].
  - pose proof (py_remove_elem x l Hin) as H1.
    pose proof (py_remove_NoDup x l Hnd Hin) as H2. congruence.
  - clear Hnd. induction l as [|y l IH]; [done|].
    apply not_elem_of_cons in Hin as [Hne Hin]. simpl.
    rewrite decide_False by done. rewrite filter_cons_True by done.
    f_equal. by apply IH.
Qed.

Lemma filter_ne_absent {A} `{EqDecision A} (x : A) (l : list A) :
  x ∉ l → filter (λ y, y ≠ x) l = l.
Proof.
  induction l as [|y l IH]; [done|]. intros [Hne Hin]%not_elem_of_cons.
  rewrite filter_cons_True by done. f_equal. by apply IH.
Qed.

(** X1: [removeEdge(e)] on a level set without repeated tuples: the sorted tuple
    of [e] is gone from [E[len(e)]], the other tuples keep their order, and
    nothing else changes. *)
Theorem removeEdge_post H out e Ek :
  E H !! Z.of_nat (length e) = Some Ek → NoDup Ek →
  removeEdge e (mkWorld H out)
  = (Ret tt,
     mkWorld (set_E (insert (Z.of_nat (length e))
                       (filter (λ f, f ≠ sorted e) Ek)) H) out).
Proof.
  intros HEk Hnd. rewrite removeEdge_run, HEk. do 2 f_equal.
  unfold set_E, E_removeEdge. rewrite HEk. f_equal.
  case_decide as Hin.
  - by rewrite remove_first_NoDup.
  - rewrite filter_ne_absent by done. by rewrite insert_id.
Qed.

(** X2: [removeEdge(e)] for a list longer than [N] raises [KeyError] and leaves
    the hypergraph and the console as they were. *)
Theorem removeEdge_missing_level H out e :
  levels_ok H → numVertices H < Z.of_nat (length e) →
  removeEdge e (mkWorld H out) = (Raise KeyError, mkWorld H out).
Proof.
  intros Hok Hlen. rewrite removeEdge_run.
  assert (HEk : E H !! Z.of_nat (length e) = None).
  { apply eq_None_not_Some. intros ?%Hok. lia. }
  rewrite HEk. do 2 f_equal. unfold set_E, E_removeEdge. rewrite HEk.
  by destruct H.
Qed.

Lemma remove_first_snoc {A} `{EqDecision A} (x : A) (l : list A) :
  x ∉ l → remove_first x (l ++ [x]) = l.
Proof.
  induction l as [|y l IH]; intros Hin; simpl.
  - by rewrite decide_True.
  - apply not_elem_of_cons in Hin as [Hne Hin].
    rewrite decide_False by done. f_equal. by apply IH.
Qed.

(** X3: Adding a new edge and removing it again gives the hypergraph back (the
    console keeps the error line, if one was printed). *)
Theorem addEdge_removeEdge H out e Ek :
  e ≠ [] → E H !! Z.of_nat (length e) = Some Ek → sorted e ∉ Ek →
  (addEdge e ≫= λ _, removeEdge e) (mkWorld H out)
  = (Ret tt, mkWorld H (out_addEdge (numVertices H) e out)).
Proof.
  intros Hne HEk Hin. erewrite bind_Ret; [|apply addEdge_run; by eauto].
  rewrite removeEdge_run.
  assert (HE1 : E_addEdge e (E H)
                = <[Z.of_nat (length e) := Ek ++ [sorted e]]> (E H)).
  { unfold E_addEdge. rewrite HEk. by rewrite decide_False. }
  cbn [E set_E]. rewrite HE1, lookup_insert_eq. do 2 f_equal.
  unfold set_E, E_removeEdge. cbn [numVertices V E location].
  rewrite HE1, lookup_insert_eq.
  rewrite decide_True by (apply elem_of_app; right; by left).
  rewrite remove_first_snoc by done. rewrite insert_insert_eq, insert_id by done.
  by destruct H.
Qed.

(** X4: A second [addEdge(e)] right after the first leaves the hypergraph
    as the first call left it; only the error line is printed again when an
    id is above [N]. *)
Theorem addEdge_idempotent H out e :
  e ≠ [] → is_Some (E H !! Z.of_nat (length e)) →
  ∃ H1 out1,
    addEdge e (mkWorld H out) = (Ret tt, mkWorld H1 out1) ∧
    addEdge e (mkWorld H1 out1)
    = (Ret tt, mkWorld H1 (out_addEdge (numVertices H) e out1)).
Proof.
  intros Hne [Ek HEk]. eexists _, _. split; [apply addEdge_run; by eauto|].
  assert (Hin : sorted e ∈ default [] (E_addEdge e (E H) !! Z.of_nat (length e))).
  { unfold E_addEdge. rewrite HEk. case_decide; [by rewrite HEk|].
    rewrite lookup_insert_eq. simpl. apply elem_of_app. right. by left. }
  assert (Hsome : is_Some (E_addEdge e (E H) !! Z.of_nat (length e))).
  { apply E_addEdge_keys. by eauto. }
  destruct Hsome as [Ek1 HEk1]. rewrite HEk1 in Hin. simpl in Hin.
  rewrite addEdge_run; [|done | cbn [E set_E]; by eauto].
  do 2 f_equal. unfold set_E at 1. cbn [numVertices V E location set_E].
  unfold E_addEdge at 1. rewrite HEk1. by rewrite decide_True.
Qed.

Lemma sorted_Permutation e f : e ≡ₚ f → sorted e = sorted f.
Proof.
  intros Hp. unfold sorted. apply (Sorted_unique Z.le).
  - apply (Sorted_merge_sort Z.le).
  - apply (Sorted_merge_sort Z.le).
  - by rewrite !merge_sort_Permutation.
Qed.

Lemma py_max_Permutation e f : e ≡ₚ f → py_max e = py_max f.
Proof.
  intros Hp. destruct e as [|x e].
  { apply Permutation_nil_l in Hp. by subst. }
  destruct f as [|y f]; [by apply Permutation_nil_r in Hp|].
  destruct (py_max_nonempty (x :: e)) as [m Hm]; [done|].
  destruct (py_max_nonempty (y :: f)) as [m' Hm']; [done|].
  rewrite Hm, Hm'. f_equal.
  apply py_max_spec in Hm as [Hin Hmax]. apply py_max_spec in Hm' as [Hin' Hmax'].
  rewrite Hp in Hin. apply Hmax' in Hin.
  rewrite <- Hp in Hin'. apply Hmax in Hin'. lia.
Qed.

(** X5: [addEdge] does not depend on the order in which the ids are given. *)
Theorem addEdge_Permutation w e f : e ≡ₚ f → addEdge e w = addEdge f w.
Proof.
  intros Hp. unfold addEdge.
  by rewrite (sorted_Permutation e f Hp), (py_max_Permutation e f Hp).
Qed.

(** X6: Two prunings can be done in either order. *)
Theorem removeSupersetsOf_comm H out e f :
  levels_ok H →
  (removeSupersetsOf e ≫= λ _, removeSupersetsOf f) (mkWorld H out)
  = (removeSupersetsOf f ≫= λ _, removeSupersetsOf e) (mkWorld H out).
Proof.
  intros Hok.
  erewrite bind_Ret; [|by apply removeSupersetsOf_run].
  erewrite (bind_Ret (removeSupersetsOf f)); [|by apply removeSupersetsOf_run].
  rewrite !removeSupersetsOf_run by by apply E_prune_levels_ok.
  do 2 f_equal. unfold set_E. cbn [numVertices V E location]. f_equal.
  apply map_eq. intros i. rewrite !E_prune_lookup by apply NoDup_range.
  repeat case_decide; try done.
  rewrite <- !option_fmap_compose. apply option_fmap_ext. intros l. simpl.
  rewrite !list_filter_filter. apply list_filter_iff. tauto.
Qed.

Lemma getNumEdges_run H :
  levels_ok H →
  ∃ n, getNumEdges H = Ret n ∧ 0 ≤ n ∧
       (n = 0 ↔ ∀ k Ek, E H !! k = Some Ek → Ek = []).
Proof.
  intros Hok. unfold getNumEdges.
  assert (Hgen : ∀ (ks : list Z) (r0 : Z),
    0 ≤ r0 → (∀ k, k ∈ ks → is_Some (E H !! k)) →
    ∃ n, fold_outcome (λ res i,
           match E H !! i with
           | Some Ei => Ret (res + Z.of_nat (length Ei))
           | None => Raise KeyError
           end) ks r0 = Ret n ∧ r0 ≤ n ∧
         (n = r0 ↔ ∀ k Ek, k ∈ ks → E H !! k = Some Ek → Ek = [])).
  { induction ks as [|k ks IH]; intros r0 Hr0 Hkeys.
    - exists r0. split; [done|]. split; [lia|]. split; [|done].
      intros _ k Ek Hk. by apply elem_of_nil in Hk.
    - destruct (Hkeys k) as [Ek HEk]; [by left|]. cbn [fold_outcome].
      rewrite HEk. simpl.
      destruct (IH (r0 + Z.of_nat (length Ek))) as (n & Hn & Hle & Hiff);
        [lia | intros; apply Hkeys; by right|].
      exists n. split; [done|]. split; [lia|]. split.
      + intros Heq j Ej Hj HEj.
        assert (Hlen0 : Z.of_nat (length Ek) = 0) by lia.
        apply elem_of_cons in Hj as [->|Hj].
        * assert (Ej = Ek) as -> by congruence.
          destruct Ek; [done | simpl in Hlen0; lia].
        * eapply (proj1 Hiff); [lia | exact Hj | exact HEj].
      + intros Hall. assert (Ek = []) as -> by (apply (Hall k); [by left | done]).
        assert (Hn0 : n = r0 + Z.of_nat (length (@nil (list Z)))); [|simpl in Hn0; lia].
        apply Hiff. intros j Ej Hj. apply Hall. by right. }
  destruct (Hgen (range 0 (numVertices H + 1)) 0) as (n & Hn & Hle & Hiff);
    [lia | intros k Hk%elem_of_range; apply Hok; lia|].
  exists n. split; [done|]. split; [done|]. rewrite Hiff. split.
  - intros Hall k Ek HEk. apply (Hall k); [|done].
    apply elem_of_range. assert (is_Some (E H !! k)) as ?%Hok by eauto. lia.
  - intros Hall k Ek _. apply Hall.
Qed.

(** X7: [getNumEdges()] on a hypergraph with the level sets [0..N] returns
    a count that is never negative, and that is 0 exactly when every level
    set is empty. *)
Theorem getNumEdges_zero H :
  levels_ok H →
  ∃ n, getNumEdges H = Ret n ∧ 0 ≤ n ∧
       (n = 0 ↔ ∀ k Ek, E H !! k = Some Ek → Ek = []).
Proof. apply getNumEdges_run. Qed.

End StoreExtras.

(** ** Further properties of the generator *)

Section GeneratorExtras.
Context {F : Type} {num : PyNum F}.
Variables (S : list (point F)) (alpha beta : F).
Implicit Types (H : Hypergraph (point F)) (e f : list Z).

(** X8: Every forbidden set of at least two stations contains an edge of the
    generated hypergraph (itself, when it is minimal), and every edge is a
    set of [k >= 2] vertices in increasing order, stored at level [k]. *)
Theorem GenerateHypergraph_complete (w0 : World (point F) F) :
  NoDup S → pathloss_defined alpha S →
  ∃ H, GenerateHypergraph S alpha beta w0 = (Ret H, mkWorld H (stdout w0)) ∧
       (∀ k Ek e, E H !! k = Some Ek → e ∈ Ek → 2 ≤ k ∧ cand S k e) ∧
       ∀ k f, 2 ≤ k → cand S k f →
              isForbidden (stations S f) alpha beta = Ret true →
              ∃ j Ej d, E H !! j = Some Ej ∧ d ∈ Ej ∧ d ⊆ f.
Proof.
  intros Hnd Hdef.
  destruct (GenerateHypergraph_run S alpha beta w0 Hnd Hdef) as (L & _ & Hrun).
  eexists. split; [exact Hrun|]. cbn [E].
  destruct (pruned_generated S alpha beta) as (Hkeys & Hcand & _ & _ & Hgone).
  split.
  - intros k Ek e HEk He. destruct (Hcand k e) as [? ?]; [by exists Ek | done].
  - intros k f Hk Hc Hforb.
    assert (HkN : k ≤ Z.of_nat (length S)).
    { destruct Hc as [Hsub <-]. apply sublist_length in Hsub.
      unfold range in Hsub. rewrite length_seqZ in Hsub. lia. }
    destruct (proj2 (Hkeys k)) as [Ek HEk]; [lia|].
    destruct (decide (f ∈ Ek)) as [Hin|Hnin]; [by exists k, Ek, f|].
    destruct (Hgone k f Hc) as [[_ Hf]|(i & d & _ & _ & (Ei & HEi & Hd) & Hsub)].
    + lia.
    + intros (Ek' & ? & ?). congruence.
    + unfold forb in Hf. by rewrite Hforb in Hf.
    + by exists i, Ei, d.
Qed.

Lemma GenerateHypergraph_small_run (w0 : World (point F) F) :
  (length S ≤ 1)%nat →
  ∃ H, GenerateHypergraph S alpha beta w0 = (Ret H, mkWorld H (stdout w0)) ∧
       numVertices H = Z.of_nat (length S) ∧ levels_ok H ∧
       (∀ k Ek, E H !! k = Some Ek → Ek = []).
Proof.
  intros Hlen. destruct S as [|p [|q S']]; [| |simpl in Hlen; lia].
  - eexists. split; [reflexivity|]. split; [done|].
    split; [apply Hypergraph_init_levels|].
    intros k Ek. apply Hypergraph_init_lookup.
  - eexists. split; [reflexivity|]. split; [done|].
    split; [apply (Hypergraph_init_levels (loc:=point F) 1)|].
    intros k Ek. apply (Hypergraph_init_lookup (loc:=point F) 1).
Qed.

End GeneratorExtras.

(** ** Further properties of the interference degree *)

Section DegreeExtras.
Context {F : Type} {num : PyNum F}.
Implicit Types (H : Hypergraph (point F)) (out : list (line F)).

Lemma fold_outcome_id {A B} (body : B → A → outcome B) (l : list A) (u : B) :
  (∀ x, x ∈ l → body u x = Ret u) → fold_outcome body l u = Ret u.
Proof.
  induction l as [|x l IH]; intros Hid; [done|]. cbn [fold_outcome].
  rewrite Hid by (by left). simpl. apply IH. intros. apply Hid. by right.
Qed.

Lemma py_max2_same (a : F) : py_max2 a a = a.
Proof. unfold py_max2. by destruct (fgt a a). Qed.

Lemma Adj_init_lookup (ks : list Z) (i : Z) :
  i ∈ ks →
  foldl (λ (Adj : gmap Z (list Z)) i, <[i := []]> Adj) ∅ ks !! i = Some [].
Proof.
  generalize (∅ : gmap Z (list Z)).
  induction ks as [|k ks IH]; intros m Hin; [by apply elem_of_nil in Hin|].
  cbn [foldl]. destruct (decide (i ∈ ks)) as [?|Hnin]; [by apply IH|].
  apply elem_of_cons in Hin as [->|?]; [|done].
  clear IH. revert m. induction ks as [|y ks IH]; intros m; cbn [foldl].
  - by rewrite lookup_insert_eq.
  - apply not_elem_of_cons in Hnin as [Hxy Hnin].
    rewrite insert_insert_ne by done. by apply IH.
Qed.

Lemma interferenceDegree_no_edges_run H out :
  levels_ok H → (∀ k Ek, E H !! k = Some Ek → Ek = []) →
  interferenceDegree (mkWorld H out)
  = (Ret (of_Z 0),
     mkWorld H
       ((out ++ [PrintDelta_p (replicate (Z.to_nat (numVertices H)) (of_Z 0))])
            ++ [PrintDelta_pp (replicate (Z.to_nat (numVertices H)) (of_Z 0))])).
Proof.
  intros Hok Hempty.
  assert (Hlevel : ∀ k, k ∈ range 0 (numVertices H + 1) → E H !! k = Some []).
  { intros k Hk%elem_of_range. destruct (proj2 (Hok k)) as [Ek HEk]; [lia|].
    by rewrite HEk, (Hempty k Ek HEk). }
  assert (HD : Delta H = Ret (zeros_matrix (numVertices H) (numVertices H))).
  { unfold Delta. apply fold_outcome_id. intros k Hk. by rewrite Hlevel. }
  assert (HA : AdjacencyList H
               = Ret (foldl (λ Adj i, <[i := []]> Adj) ∅
                        (range 1 (numVertices H + 1)))).
  { unfold AdjacencyList. apply fold_outcome_id. intros k Hk. by rewrite Hlevel. }
  assert (Hloop : ∀ (vs : list Z) (Dp Dpp : list F),
    vs ⊆ range 1 (numVertices H + 1) →
    fold_outcome
      (degree_vertex H (zeros_matrix (numVertices H) (numVertices H))
         (foldl (λ Adj i, <[i := []]> Adj) ∅ (range 1 (numVertices H + 1))))
      vs (of_Z 0, Dp, Dpp)
    = Ret (of_Z 0, Dp ++ replicate (length vs) (of_Z 0),
           Dpp ++ replicate (length vs) (of_Z 0))).
  { assert (Hstep : ∀ (i : Z) (Dp Dpp : list F),
      i ∈ range 1 (numVertices H + 1) →
      degree_vertex H (zeros_matrix (numVertices H) (numVertices H))
        (foldl (λ Adj i, <[i := []]> Adj) ∅ (range 1 (numVertices H + 1)))
        (of_Z 0, Dp, Dpp) i
      = Ret (of_Z 0, Dp ++ [of_Z 0], Dpp ++ [of_Z 0])).
    { intros i Dp Dpp Hi. unfold degree_vertex. rewrite Adj_init_lookup by done.
      cbn -[py_max2]. change (1 <=? Z.of_nat 0) with false. cbn -[py_max2].
      by rewrite !py_max2_same. }
    induction vs as [|i vs IH]; intros Dp Dpp Hvs.
    - simpl. by rewrite !app_nil_r.
    - cbn [fold_outcome]. rewrite Hstep by (apply Hvs; by left). simpl.
      rewrite IH.
      + by rewrite <- !app_assoc.
      + intros j Hj. apply Hvs. by right. }
  unfold interferenceDegree. erewrite bind_Ret; [|done]. cbn [self].
  erewrite bind_Ret; [|unfold lift; by rewrite HD].
  erewrite bind_Ret; [|unfold lift; by rewrite HA].
  erewrite bind_Ret; [|unfold lift; by rewrite (Hloop _ [] [])].
  unfold range. rewrite length_seqZ. simpl.
  by replace (numVertices H + 1 - 1) with (numVertices H) by lia.
Qed.

Lemma getNumEdges_empty H :
  levels_ok H → (∀ k Ek, E H !! k = Some Ek → Ek = []) → getNumEdges H = Ret 0.
Proof.
  intros Hok Hempty. unfold getNumEdges. apply fold_outcome_id.
  intros k Hk%elem_of_range. destruct (proj2 (Hok k)) as [Ek HEk]; [lia|].
  by rewrite HEk, (Hempty k Ek HEk).
Qed.

(** X9: Without edges the interference degree is 0: [interferenceDegree()]
    returns 0 and prints two lists of [N] zeros, for any arithmetic. *)
Theorem interferenceDegree_no_edges H out :
  levels_ok H → (∀ k Ek, E H !! k = Some Ek → Ek = []) →
  interferenceDegree (mkWorld H out)
  = (Ret (of_Z 0),
     mkWorld H
       ((out ++ [PrintDelta_p (replicate (Z.to_nat (numVertices H)) (of_Z 0))])
            ++ [PrintDelta_pp (replicate (Z.to_nat (numVertices H)) (of_Z 0))])).
Proof. apply interferenceDegree_no_edges_run. Qed.

(** X10: With at most one station the generator tests nothing: for any
    arithmetic it returns a hypergraph without edges, on which
    [getNumEdges()] is 0 and [interferenceDegree()] returns 0. *)
Theorem GenerateHypergraph_small (S : list (point F)) (alpha beta : F)
    (w0 : World (point F) F) :
  (length S ≤ 1)%nat →
  ∃ H, GenerateHypergraph S alpha beta w0 = (Ret H, mkWorld H (stdout w0)) ∧
       numVertices H = Z.of_nat (length S) ∧
       (∀ k Ek, E H !! k = Some Ek → Ek = []) ∧
       getNumEdges H = Ret 0 ∧
       (interferenceDegree (mkWorld H (stdout w0))).1 = Ret (of_Z 0).
Proof.
  intros Hlen.
  destruct (GenerateHypergraph_small_run S alpha beta w0 Hlen)
    as (H & Hrun & HN & Hok & Hempty).
  exists H. split; [done|]. split; [done|]. split; [done|].
  split; [by apply getNumEdges_empty|].
  by rewrite interferenceDegree_no_edges_run.
Qed.

End DegreeExtras.

(** ** Further properties of the adjacency lists *)

Section AdjacencyExtras.
Context {F : Type} {num : PyNum F}.
Implicit Types (H : Hypergraph (point F)) (Adj : gmap Z (list Z)).

(** What [AdjacencyList()] keeps true while it runs. *)
Definition adjacency_ok H Adj : Prop :=
  adj_ok (numVertices H) Adj ∧
  (∀ i j, neighbour Adj i j → neighbour Adj j i) ∧
  (edges_distinct H → ∀ i, ¬ neighbour Adj i i).

Lemma adjacency_ok_pair H Adj (i j : Z) :
  adjacency_ok H Adj → 1 ≤ i ≤ numVertices H → 1 ≤ j ≤ numVertices H →
  (edges_distinct H → i ≠ j) →
  ∃ Adj', (Adj1 ← Adj_add i j Adj; Adj_add j i Adj1) = Ret Adj' ∧
          adjacency_ok H Adj'.
Proof.
  intros (Hadj & Hsym & Hirr) Hi Hj Hne.
  destruct (Adj_add_ok _ i j Adj Hadj Hi Hj) as (Adj1 & H1 & Hadj1).
  destruct (Adj_add_ok _ j i Adj1 Hadj1 Hj Hi) as (Adj2 & H2 & Hadj2).
  exists Adj2. rewrite H1. simpl. split; [done|].
  pose proof (Adj_add_neighbour _ _ _ _ H1) as Hn1.
  pose proof (Adj_add_neighbour _ _ _ _ H2) as Hn2.
  split; [done|]. split.
  - intros c x. rewrite !Hn2, !Hn1.
    intros [[?|[-> ->]]|[-> ->]]; auto.
  - intros Hd c. rewrite Hn2, Hn1. specialize (Hne Hd). specialize (Hirr Hd c).
    intros [[?|[-> ?]]|[-> ?]]; congruence.
Qed.

(** X11: [AdjacencyList()] on a hypergraph whose edges hold vertices returns, for
    every vertex, a list of vertices without repetition; the relation is
    symmetric; and no vertex is its own neighbour when no edge repeats an
    id. *)
Theorem AdjacencyList_symmetric H :
  levels_ok H → edges_in_range H →
  ∃ Adj, AdjacencyList H = Ret Adj ∧
         (∀ i, 1 ≤ i ≤ numVertices H →
               ∃ l, Adj !! i = Some l ∧ NoDup l ∧
                    Forall (λ v, 1 ≤ v ≤ numVertices H) l) ∧
         (∀ i j, neighbour Adj i j → neighbour Adj j i) ∧
         (edges_distinct H → ∀ i, ¬ neighbour Adj i i).
Proof.
  intros Hok Hrange. unfold AdjacencyList.
  apply (fold_outcome_inv (adjacency_ok H)).
  { assert (Hnone : ∀ i j,
      ¬ neighbour (foldl (λ Adj i, <[i := []]> Adj) ∅
                     (range 1 (numVertices H + 1))) i j).
    { intros i j (l & Hl & Hj).
      apply Adj_init_empty in Hl as ->; [by apply elem_of_nil in Hj|].
      intros i' l'. by rewrite lookup_empty. }
    split; [apply Adj_init_ok|]. split.
    - intros i j Hn. by destruct (Hnone i j).
    - intros _ i Hn. by destruct (Hnone i i). }
  intros Adj k Hk%elem_of_range HAdj.
  destruct (proj2 (Hok k)) as [Ek HEk]; [lia|]. rewrite HEk.
  apply fold_outcome_inv; [done|]. intros Adj1 e He HAdj1.
  apply fold_outcome_inv; [done|]. intros Adj2 p Hp HAdj2.
  destruct (combinations_2 e p Hp) as (i & j & -> & Hi & Hj & Hlen).
  pose proof (Hrange k Ek e HEk He) as Hin. rewrite Forall_forall in Hin.
  apply adjacency_ok_pair; [done | by apply Hin | by apply Hin|].
  intros Hd. apply elem_of_combinations in Hp as [Hsub _].
  pose proof (sublist_NoDup _ _ (Hd k Ek e HEk He) Hsub) as Hnd.
  apply NoDup_cons in Hnd as [Hnd _]. intros ->. apply Hnd. by left.
Qed.

End AdjacencyExtras.

(** ** Further properties of the feasibility predicate and of [powerset] *)

Section ForbiddenExtras.
Context {F : Type} {num : PyNum F}.
Implicit Types (W pre post : list (point F)) (alpha beta : F).

Lemma isForbidden_from_first alpha beta W pre post (w : point F) :
  (∀ u, u ∈ pre →
        u ∈ W ∧ ∃ en, Energy alpha (remove_first u W) u = Ret en ∧
                      fge (round3 en) beta = false) →
  w ∈ W →
  (∃ en, Energy alpha (remove_first w W) w = Ret en ∧
         fge (round3 en) beta = true) →
  isForbidden_from W (pre ++ w :: post) alpha beta = Ret true.
Proof.
  intros Hpre Hw (en & Hen & Hge). induction pre as [|u pre IH].
  - cbn [app isForbidden_from]. rewrite py_remove_elem by done. simpl.
    rewrite Hen. simpl. by rewrite Hge.
  - destruct (Hpre u) as (Hu & en' & Hen' & Hge'); [by left|].
    cbn [app isForbidden_from]. rewrite py_remove_elem by done. simpl.
    rewrite Hen'. simpl. rewrite Hge'. apply IH.
    intros v Hv. apply Hpre. by right.
Qed.

(** X12: [isForbidden] returns [True] at the first receiver whose rounded
    interference reaches [beta], whatever comes after it in the list: later
    receivers are not evaluated, so coincident points after it do not make
    the call raise. *)
Theorem isForbidden_first_trigger alpha beta pre post (w : point F) :
  (∀ u, u ∈ pre →
        ∃ en, Energy alpha (remove_first u (pre ++ w :: post)) u = Ret en ∧
              fge (round3 en) beta = false) →
  (∃ en, Energy alpha (remove_first w (pre ++ w :: post)) w = Ret en ∧
         fge (round3 en) beta = true) →
  isForbidden (pre ++ w :: post) alpha beta = Ret true.
Proof.
  intros Hpre Hw. unfold isForbidden. apply isForbidden_from_first; [|set_solver|done].
  intros u Hu. split; [set_solver | by apply Hpre].
Qed.

Lemma isForbidden_from_raises alpha beta W pre post (w : point F) (x : exn) :
  (∀ u, u ∈ pre →
        u ∈ W ∧ ∃ en, Energy alpha (remove_first u W) u = Ret en ∧
                      fge (round3 en) beta = false) →
  w ∈ W → Energy alpha (remove_first w W) w = Raise x →
  isForbidden_from W (pre ++ w :: post) alpha beta = Raise x.
Proof.
  intros Hpre Hw Hen. induction pre as [|u pre IH].
  - cbn [app isForbidden_from]. rewrite py_remove_elem by done. simpl.
    by rewrite Hen.
  - destruct (Hpre u) as (Hu & en' & Hen' & Hge'); [by left|].
    cbn [app isForbidden_from]. rewrite py_remove_elem by done. simpl.
    rewrite Hen'. simpl. rewrite Hge'. apply IH.
    intros v Hv. apply Hpre. by right.
Qed.

(** X13: [isForbidden] raises what the arithmetic raises at the first receiver
    it cannot evaluate, when no earlier receiver triggers. *)
Theorem isForbidden_raises alpha beta pre post (w : point F) (x : exn) :
  (∀ u, u ∈ pre →
        ∃ en, Energy alpha (remove_first u (pre ++ w :: post)) u = Ret en ∧
              fge (round3 en) beta = false) →
  Energy alpha (remove_first w (pre ++ w :: post)) w = Raise x →
  isForbidden (pre ++ w :: post) alpha beta = Raise x.
Proof.
  intros Hpre Hw. unfold isForbidden. apply isForbidden_from_raises; [|set_solver|done].
  intros u Hu. split; [set_solver | by apply Hpre].
Qed.

End ForbiddenExtras.

(** X14: [powerset(l)] lists exactly the sub-sequences of [l], the shorter ones
    first, and lists none twice when [l] has no repeated item. *)
Theorem powerset_sublists {A} (l : list A) :
  (∀ J, J ∈ powerset l ↔ J `sublist_of` l) ∧
  (∀ J1 J2 i1 i2, powerset l !! i1 = Some J1 → powerset l !! i2 = Some J2 →
                  (i1 ≤ i2)%nat → (length J1 ≤ length J2)%nat) ∧
  (NoDup l → NoDup (powerset l)).
Proof.
  split; [apply elem_of_powerset|]. split.
  - unfold powerset. generalize (length l + 1)%nat as n.
    assert (Hgen : ∀ n a J1 J2 i1 i2,
      (seq a n ≫= combinations l) !! i1 = Some J1 →
      (seq a n ≫= combinations l) !! i2 = Some J2 →
      (i1 ≤ i2)%nat →
      (a ≤ length J1 ≤ length J2)%nat ∧ (length J2 < a + n)%nat).
    { induction n as [|n IH]; intros a J1 J2 i1 i2; [done|].
      cbn [seq]. rewrite bind_cons. intros H1 H2 Hle.
      assert (Hlen : ∀ i J, combinations l a !! i = Some J → length J = a).
      { intros i J HJ%list_elem_of_lookup_2.
        by apply elem_of_combinations in HJ as [_ ?]. }
      assert (Hrest : ∀ i J, (seq (Datatypes.S a) n ≫= combinations l) !! i = Some J →
                             (Datatypes.S a ≤ length J < a + Datatypes.S n)%nat).
      { intros i J HJ. destruct (IH _ _ _ _ _ HJ HJ); lia. }
      apply lookup_app_Some in H1 as [H1|[Hge1 H1]];
        apply lookup_app_Some in H2 as [H2|[Hge2 H2]].
      - apply Hlen in H1, H2. lia.
      - apply Hlen in H1. apply Hrest in H2. lia.
      - apply lookup_lt_Some in H2. lia.
      - destruct (IH _ _ _ _ _ H1 H2); lia. }
    intros n J1 J2 i1 i2 H1 H2 Hle.
    destruct (Hgen n 0%nat J1 J2 i1 i2 H1 H2 Hle). lia.
  - intros Hnd. unfold powerset. apply NoDup_bind.
    + intros n1 n2 J _ _ [_ <-]%elem_of_combinations [_ <-]%elem_of_combinations.
      done.
    + intros n _. by apply NoDup_combinations.
    + apply NoDup_seq.
Qed.

(** ** The generator followed by the interference degree *)

Section PipelineExtras.
Context {F : Type} {num : PyNum F} {ord : PyNumOrder F}.
Implicit Types (H : Hypergraph (point F)) (out : list (line F)).

Lemma interferenceDegree_returns H out :
  levels_ok H → edges_in_range H → 0 ≤ numVertices H →
  ∃ (Delta_p Delta_pp : list F) (res : F),
    interferenceDegree (mkWorld H out)
    = (Ret res,
       mkWorld H ((out ++ [PrintDelta_p Delta_p]) ++ [PrintDelta_pp Delta_pp])) ∧
    fle (of_Z 0) res ∧
    Z.of_nat (length Delta_p) = numVertices H ∧
    Z.of_nat (length Delta_pp) = numVertices H.
Proof.
  intros Hok Hrange HN.
  destruct (Delta_run H Hok Hrange HN) as (D & HDrun & HD).
  destruct (AdjacencyList_run H Hok Hrange) as (Adj & HAdjrun & HAdj).
  destruct (degree_loop H D Adj (range 1 (numVertices H + 1)) Hok HD HAdj)
    with (res := of_Z 0) (Delta_p := @nil F) (Delta_pp := @nil F)
    as (dps & dpps & vals & Hfold & Hnn & Hvals & Hall & Hl1 & Hl2).
  { apply Forall_forall. intros i Hi%elem_of_range. lia. }
  assert (Hlen : Z.of_nat (length (range 1 (numVertices H + 1))) = numVertices H).
  { unfold range. rewrite length_seqZ. lia. }
  exists dps, dpps, (run_max (of_Z 0) vals). split.
  - unfold interferenceDegree. erewrite bind_Ret; [|done]. cbn [self].
    erewrite bind_Ret; [|unfold lift; by rewrite HDrun].
    erewrite bind_Ret; [|unfold lift; by rewrite HAdjrun].
    erewrite bind_Ret; [|unfold lift; by rewrite Hfold]. done.
  - split; [exact (proj1 (run_max_spec _ _))|]. lia.
Qed.

(** X15: On pairwise distinct locations between which the arithmetic does not
    raise, [GenerateHypergraph] followed by [interferenceDegree] on its
    result returns: the generated hypergraph has the level sets and the
    vertex ids that the analyser needs, and the degree is not negative. *)
Theorem GenerateHypergraph_then_interferenceDegree
    (S : list (point F)) (alpha beta : F) (w0 : World (point F) F) :
  NoDup S → pathloss_defined alpha S →
  ∃ H (Delta_p Delta_pp : list F) (res : F),
    GenerateHypergraph S alpha beta w0 = (Ret H, mkWorld H (stdout w0)) ∧
    levels_ok H ∧ edges_in_range H ∧
    (GenerateHypergraph S alpha beta ≫= λ H', interferenceDegree) w0
    = (Ret res,
       mkWorld H ((stdout w0 ++ [PrintDelta_p Delta_p])
                    ++ [PrintDelta_pp Delta_pp])) ∧
    fle (of_Z 0) res ∧
    length Delta_p = length S ∧ length Delta_pp = length S.
Proof.
  intros Hnd Hdef.
  destruct (GenerateHypergraph_run S alpha beta w0 Hnd Hdef) as (L & _ & Hrun).
  set (H := mkHypergraph _ _ _ L) in *.
  destruct (pruned_generated S alpha beta) as (Hkeys & Hcand & _).
  assert (Hok : levels_ok H) by exact Hkeys.
  assert (Hr : edges_in_range H).
  { intros k Ek e HEk He. destruct (Hcand k e) as [Hc _]; [by exists Ek|].
    by destruct (cand_facts S k e Hc) as (_ & _ & ?). }
  destruct (interferenceDegree_returns H (stdout w0) Hok Hr)
    as (dp & dpp & res & Hdeg & Hres & Hl1 & Hl2); [simpl; lia|].
  exists H, dp, dpp, res. split; [done|]. split; [done|]. split; [done|].
  split; [by erewrite bind_Ret|]. split; [done|]. simpl in Hl1, Hl2. lia.
Qed.

End PipelineExtras.

(** ** The matrix of weights is symmetric *)

Section DeltaExtras.
Context {F : Type} {num : PyNum F} {ord : PyNumOrder F}.
Implicit Types (H : Hypergraph (point F)) (D : list (list F)).

Lemma entry_zeros (n : Z) (a b : nat) :
  entry (zeros_matrix n n) a b = entry (zeros_matrix n n) b a.
Proof.
  unfold entry, zeros_matrix.
  assert (Hin : ∀ {A} (x : A) (c : nat),
            (c < Z.to_nat n)%nat → replicate (Z.to_nat n) x !! c = Some x).
  { intros A x c Hc. by apply lookup_replicate_2. }
  assert (Hout : ∀ {A} (x : A) (c : nat),
            ¬ (c < Z.to_nat n)%nat → replicate (Z.to_nat n) x !! c = None).
  { intros A x c Hc. apply lookup_replicate_None. lia. }
  destruct (decide (a < Z.to_nat n)%nat) as [Ha|Ha];
    destruct (decide (b < Z.to_nat n)%nat) as [Hb|Hb].
  - rewrite !Hin by done. simpl. by rewrite !Hin.
  - rewrite (Hin _ _ a) by done. simpl. by rewrite !(Hout _ _ b).
  - rewrite (Hin _ _ b) by done. simpl. by rewrite !(Hout _ _ a).
  - by rewrite (Hout _ _ a), (Hout _ _ b).
Qed.

(** X16: [Delta()] returns a symmetric matrix: on a hypergraph with every
    level set present and every id in an edge between 1 and [N], the call
    returns [N] rows of [N] weights with [Delta[a][b]] equal to
    [Delta[b][a]] at every pair of indices. *)
Theorem Delta_symmetric H :
  levels_ok H → edges_in_range H → 0 ≤ numVertices H →
  ∃ D, Delta H = Ret D ∧ matrix_ok (numVertices H) D ∧
       ∀ a b, entry D a b = entry D b a.
Proof.
  intros Hok Hrange HN. unfold Delta.
  set (I := λ D, matrix_ok (numVertices H) D ∧
                 ∀ a b : nat, entry D a b = entry D b a).
  apply (fold_outcome_inv I).
  { split; [by apply zeros_matrix_ok | apply entry_zeros]. }
  intros D k Hk%elem_of_range HD.
  destruct (proj2 (Hok k)) as [Ek HEk]; [lia|]. rewrite HEk.
  apply (fold_outcome_inv I); [done|]. intros D1 e He HD1.
  apply (fold_outcome_inv I); [done|]. intros D2 p Hp [HD2 Hsym].
  destruct (combinations_2 e p Hp) as (i & j & -> & Hi & Hj & Hlen).
  pose proof (Hrange k Ek e HEk He) as Hin. rewrite Forall_forall in Hin.
  destruct (Delta_step_entry (numVertices H) D2 (Z.of_nat (length e)) i j)
    as (D' & old & q & HD' & HokD' & _ & _ & Hent);
    [done | by apply Hin | by apply Hin | lia |].
  exists D'. split; [done|]. split; [done|]. intros a b.
  rewrite !Hent, Hsym.
  destruct (decide ((a = Z.to_nat (i - 1) ∧ b = Z.to_nat (j - 1)) ∨
                    (a = Z.to_nat (j - 1) ∧ b = Z.to_nat (i - 1)))) as [Hd|Hd].
  - by rewrite decide_True by tauto.
  - by rewrite decide_False by tauto.
Qed.

End DeltaExtras.

(** ** The feasibility test of [smallest_gamma.py] *)

Section Feasibility.
Context {F : Type} {num : PyNum F}.

(** [uniformly_on_circle] computes its points with [math.cos] and
    [math.sin], which are outside the arithmetic of [PyNum]: the test takes
    the function as it is given. *)
Variable uniformly_on_circle : Z → outcome (list (point F)).

Definition is_Ur_feasible (alpha : F) (r : Z) (beta : F)
    : M (World (point F) F) bool :=
  S ← lift (uniformly_on_circle r);
  H ← GenerateHypergraph S alpha beta;
  m ← lift (getNumEdges H);
  mret (if 1 <=? m then false else true).

(** X17: [is_Ur_feasible] answers [True] exactly when [isForbidden] returns
    [False] on every set of two or more of the stations: on pairwise
    distinct points between which the arithmetic does not raise, the test
    returns, and prints nothing. *)
Theorem is_Ur_feasible_correct (alpha beta : F) (r : Z) (S : list (point F))
    (w0 : World (point F) F) :
  uniformly_on_circle r = Ret S → NoDup S → pathloss_defined alpha S →
  ∃ (t : bool) H,
    is_Ur_feasible alpha r beta w0 = (Ret t, mkWorld H (stdout w0)) ∧
    (t = true ↔
     ∀ k f, 2 ≤ k → cand S k f →
            isForbidden (stations S f) alpha beta = Ret false).
Proof.
  intros HS Hnd Hdef.
  destruct (GenerateHypergraph_run S alpha beta w0 Hnd Hdef) as (L & _ & Hrun).
  set (H := mkHypergraph _ _ _ L) in *.
  destruct (pruned_generated S alpha beta)
    as (Hkeys & Hcand & Hforb & _ & Hgone).
  assert (Hok : levels_ok H) by exact Hkeys.
  destruct (getNumEdges_run H Hok) as (n & Hn & Hn0 & Hiff).
  exists (if 1 <=? n then false else true), H. split.
  { unfold is_Ur_feasible. erewrite bind_Ret; [|unfold lift; by rewrite HS].
    erewrite bind_Ret; [|exact Hrun].
    erewrite bind_Ret; [|unfold lift; by rewrite Hn]. done. }
  assert (Ht : (if 1 <=? n then false else true) = true ↔ n = 0).
  { destruct (Z.leb_spec 1 n); split; (done || lia). }
  rewrite Ht, Hiff. cbn [E H]. split.
  - intros Hempty k f Hk Hc.
    destruct (forb_defined S alpha beta Hnd Hdef k f Hc) as [[] Hb]; [|done].
    exfalso.
    assert (HkN : k ≤ Z.of_nat (length S)).
    { destruct Hc as [Hsub <-]. apply sublist_length in Hsub.
      unfold range in Hsub. rewrite length_seqZ in Hsub. lia. }
    assert (Hnone : ∀ j d, ¬ in_level (generated_E S alpha beta) j d).
    { intros j d (Ej & HEj & Hd). rewrite (Hempty j Ej HEj) in Hd.
      by apply elem_of_nil in Hd. }
    destruct (Hgone k f Hc) as [[_ Hf]|(i & d & _ & _ & Hin & _)].
    + lia.
    + apply Hnone.
    + unfold forb in Hf. by rewrite Hb in Hf.
    + by apply (Hnone i d).
  - intros Hall k Ek HEk. destruct Ek as [|e Ek]; [done|]. exfalso.
    assert (Hin : in_level (generated_E S alpha beta) k (e)).
    { exists (e :: Ek). split; [done | by left]. }
    destruct (Hcand k e Hin) as [Hc Hk].
    assert (is_Some (generated_E S alpha beta !! k)) as HkN%Hkeys by eauto.
    assert (Hf : forb S alpha beta e = true) by (apply (Hforb k); [lia | done]).
    apply forb_true in Hf. rewrite (Hall k e Hk Hc) in Hf. done.
Qed.

End Feasibility.

(** ** Independent sets *)

Section IndependenceExtras.
Context {loc F : Type}.
Implicit Types (H : Hypergraph loc) (J e : list Z) (out : list (line F)).

Lemma isIndependentSet_levels_true H J (levels : list Z) :
  isIndependentSet_levels H J levels = Ret true ↔
  ∀ i, i ∈ levels →
       ∃ Ei, E H !! i = Some Ei ∧ ∀ edge, edge ∈ Ei → ¬ edge ⊆ J.
Proof.
  induction levels as [|i levels IH]; cbn [isIndependentSet_levels].
  { split; [|done]. intros _ i Hi. by apply elem_of_nil in Hi. }
  destruct (E H !! i) as [Ei|] eqn:HEi.
  - destruct (existsb (λ edge, issubset edge J) Ei) eqn:Hex.
    + split; [done|]. intros Hall. exfalso.
      destruct (Hall i) as (Ei' & HEi' & Hno); [by left|].
      assert (Ei' = Ei) as -> by congruence.
      apply existsb_exists in Hex as (edge & Hin%list_elem_of_In & Hsub).
      by apply (Hno edge Hin), issubset_spec.
    + rewrite IH. split.
      * intros Hall j [->|Hj]%elem_of_cons; [|by apply Hall].
        exists Ei. split; [done|]. intros edge Hin Hsub%issubset_spec.
        assert (existsb (λ edge, issubset edge J) Ei = true); [|congruence].
        apply existsb_exists. exists edge. by rewrite <- list_elem_of_In.
      * intros Hall j Hj. apply Hall. by right.
  - split; [done|]. intros Hall. destruct (Hall i) as (? & ? & _); [by left|].
    congruence.
Qed.

Lemma isIndependentSet_levels_false H J (i : Z) (n : nat) :
  ∀ a, a ≤ i < a + Z.of_nat n →
       (∀ j, a ≤ j ≤ i → is_Some (E H !! j)) →
       (∃ Ei edge, E H !! i = Some Ei ∧ edge ∈ Ei ∧ edge ⊆ J) →
       isIndependentSet_levels H J (seqZ a (Z.of_nat n)) = Ret false.
Proof.
  induction n as [|n IH]; intros a Ha Hkeys Hedge; [lia|].
  rewrite Nat2Z.inj_succ, seqZ_cons by lia. cbn [isIndependentSet_levels].
  destruct (Hkeys a) as [Ea HEa]; [lia|]. rewrite HEa.
  destruct (existsb (λ edge, issubset edge J) Ea) eqn:Hex; [done|].
  replace (Z.pred (Z.succ (Z.of_nat n))) with (Z.of_nat n) by lia.
  destruct (decide (a = i)) as [->|Hne].
  - destruct Hedge as (Ei & edge & HEi & Hin & Hsub).
    assert (Ei = Ea) as -> by congruence.
    assert (existsb (λ edge, issubset edge J) Ea = true); [|congruence].
    apply existsb_exists. exists edge. split; [by apply list_elem_of_In|].
    by apply issubset_spec.
  - apply IH; [lia | intros; apply Hkeys; lia | done].
Qed.

(** X18: A sub-list of an independent set is independent: when
    [isIndependentSet(J)] returns [True], so does [isIndependentSet(J')] for
    every [J'] with items of [J] only that is not longer than [J]. *)
Theorem isIndependentSet_subset H J J' :
  isIndependentSet H J = Ret true → J' ⊆ J → (length J' ≤ length J)%nat →
  isIndependentSet H J' = Ret true.
Proof.
  unfold isIndependentSet. rewrite !isIndependentSet_levels_true.
  intros Hall Hsub Hlen i Hi%elem_of_range.
  destruct (Hall i) as (Ei & HEi & Hno); [apply elem_of_range; lia|].
  exists Ei. split; [done|]. intros edge Hin Hedge.
  apply (Hno edge Hin). by etrans.
Qed.

(** X19: After [addEdge(e)], a list that holds the ids of [e] and is not shorter
    than [e] is not independent: [isIndependentSet] returns [False] on it,
    also when the list is longer than [N]. *)
Theorem addEdge_then_dependent H out e J :
  levels_ok H → e ≠ [] → Z.of_nat (length e) ≤ numVertices H →
  e ⊆ J → (length e ≤ length J)%nat →
  ∃ H1 out1,
    addEdge e (mkWorld H out) = (Ret tt, mkWorld H1 out1) ∧
    isIndependentSet H1 J = Ret false.
Proof.
  intros Hok Hne HeN Hsub Hlen.
  assert (Hk : is_Some (E H !! Z.of_nat (length e))) by (apply Hok; lia).
  eexists _, _. split; [by apply addEdge_run|].
  unfold isIndependentSet, range.
  replace (Z.of_nat (length J) + 1 - 1) with (Z.of_nat (length J)) by lia.
  apply (isIndependentSet_levels_false _ _ (Z.of_nat (length e))).
  - destruct e; [done | simpl in *; lia].
  - intros j Hj. cbn [E set_E]. apply E_addEdge_keys, Hok. lia.
  - exists (default [] (E_addEdge e (E H) !! Z.of_nat (length e))), (sorted e).
    cbn [E set_E]. destruct Hk as [Ek HEk]. unfold E_addEdge. rewrite HEk.
    case_decide as Hin.
    + rewrite HEk. simpl. split; [done|]. split; [done|].
      intros v Hv. apply Hsub. unfold sorted in Hv.
      by rewrite merge_sort_Permutation in Hv.
    + rewrite lookup_insert_eq. simpl. split; [done|].
      split; [apply elem_of_app; right; by left|].
      intros v Hv. apply Hsub. unfold sorted in Hv.
      by rewrite merge_sort_Permutation in Hv.
Qed.

End IndependenceExtras.

Section GeneratedIndependence.
Context {F : Type} {num : PyNum F}.
Variables (S : list (point F)) (alpha beta : F).

(** X20: The independent sets of the generated hypergraph are the sets of
    stations without a forbidden subset: on a list [J] of at most [N] ids,
    [isIndependentSet] returns [True] exactly when [isForbidden] returns
    [False] on every set of two or more stations with ids in [J]. *)
Theorem GenerateHypergraph_independent (w0 : World (point F) F) (J : list Z) :
  NoDup S → pathloss_defined alpha S → (length J ≤ length S)%nat →
  ∃ H (t : bool),
    GenerateHypergraph S alpha beta w0 = (Ret H, mkWorld H (stdout w0)) ∧
    isIndependentSet H J = Ret t ∧
    (t = true ↔
     ∀ k f, 2 ≤ k → cand S k f → f ⊆ J →
            isForbidden (stations S f) alpha beta = Ret false).
Proof.
  intros Hnd Hdef HJ.
  destruct (GenerateHypergraph_run S alpha beta w0 Hnd Hdef) as (L & _ & Hrun).
  set (H := mkHypergraph _ _ _ L) in *.
  destruct (pruned_generated S alpha beta)
    as (Hkeys & Hcand & Hforb & _ & Hgone).
  assert (Hok : levels_ok H) by exact Hkeys.
  destruct (isIndependentSet_levels_spec H J
              (range 1 (Z.of_nat (length J) + 1))) as (t & Ht & Hspec).
  { intros i Hi%elem_of_range. apply Hok. cbn [numVertices H]. lia. }
  exists H, t. split; [exact Hrun|]. split; [exact Ht|].
  rewrite Hspec. cbn [E H]. split.
  - intros Hind k f Hk Hc HfJ.
    destruct (forb_defined S alpha beta Hnd Hdef k f Hc) as [[] Hb]; [|done].
    exfalso.
    assert (HkN : k ≤ Z.of_nat (length S)).
    { destruct Hc as [Hsub <-]. apply sublist_length in Hsub.
      unfold range in Hsub. rewrite length_seqZ in Hsub. lia. }
    assert (Hedge : ∃ j Ej d, generated_E S alpha beta !! j = Some Ej ∧
                              d ∈ Ej ∧ d ⊆ f).
    { destruct (proj2 (Hkeys k)) as [Ek HEk]; [lia|].
      destruct (decide (f ∈ Ek)) as [Hin|Hnin]; [by exists k, Ek, f|].
      destruct (Hgone k f Hc) as [[_ Hf]|(i & d & _ & _ & (Ei & HEi & Hd) & Hsub)].
      - lia.
      - intros (Ek' & ? & ?). congruence.
      - unfold forb in Hf. by rewrite Hb in Hf.
      - by exists i, Ei, d. }
    destruct Hedge as (j & Ej & d & HEj & Hd & Hdf).
    destruct (Hcand j d) as [Hcd Hj]; [by exists Ej|].
    destruct (cand_facts S j d Hcd) as (_ & Hndd & _).
    assert (Hlen : (length d ≤ length J)%nat).
    { apply NoDup_subseteq_length; [done | by etrans]. }
    apply (Hind j Ej d); [|done | done | by etrans].
    apply elem_of_range. destruct Hcd as [_ <-]. lia.
  - intros Hall i Ei edge Hi%elem_of_range HEi Hin Hsub.
    destruct (Hcand i edge) as [Hc Hi2]; [by exists Ei|].
    assert (is_Some (generated_E S alpha beta !! i)) as HiN%Hkeys by eauto.
    assert (Hf : forb S alpha beta edge = true).
    { apply (Hforb i); [lia | by exists Ei]. }
    apply forb_true in Hf. rewrite (Hall i edge Hi2 Hc Hsub) in Hf. done.
Qed.

End GeneratedIndependence.

(** ** The further properties on concrete inputs *)

Lemma removeEdge_post_witness :
  let H := set_E (E_addEdge [1; 2]) (Hypergraph_init (loc:=unit) 2) in
  E H !! Z.of_nat (length [2; 1]) = Some [[1; 2]] ∧ NoDup [[1; 2]] ∧
  removeEdge [2; 1] (mkWorld H ([] : list (line unit)))
  = (Ret tt,
     mkWorld (set_E (insert (Z.of_nat (length [2; 1]))
                       (filter (λ f, f ≠ sorted [2; 1]) [[1; 2]])) H) []).
Proof.
  intros H.
  assert (HEk : E H !! Z.of_nat (length [2; 1]) = Some [[1; 2]])
    by (vm_compute; reflexivity).
  assert (Hnd : NoDup [[1; 2]]) by apply NoDup_singleton.
  split; [exact HEk|]. split; [exact Hnd|].
  apply (removeEdge_post H [] [2; 1] [[1; 2]] HEk Hnd).
Defined.

Lemma removeEdge_missing_level_witness :
  levels_ok (Hypergraph_init (loc:=unit) 1) ∧
  removeEdge [1; 2] (mkWorld (Hypergraph_init (loc:=unit) 1)
                             ([] : list (line unit)))
  = (Raise KeyError, mkWorld (Hypergraph_init 1) []).
Proof.
  split; [apply Hypergraph_init_levels|].
  apply (removeEdge_missing_level (Hypergraph_init 1) [] [1; 2]
           (Hypergraph_init_levels 1)).
  simpl. lia.
Defined.

Lemma addEdge_removeEdge_witness :
  (addEdge [2; 1] ≫= λ _, removeEdge [2; 1])
    (mkWorld (Hypergraph_init (loc:=unit) 2) ([] : list (line unit)))
  = (Ret tt, mkWorld (Hypergraph_init 2) []).
Proof.
  apply (addEdge_removeEdge (Hypergraph_init 2) [] [2; 1] []).
  - done.
  - vm_compute. reflexivity.
  - apply not_elem_of_nil.
Defined.

Lemma addEdge_idempotent_witness :
  ∃ (H1 : Hypergraph unit) (out1 : list (line unit)),
    addEdge [1; 2] (mkWorld (Hypergraph_init 2) []) = (Ret tt, mkWorld H1 out1) ∧
    addEdge [1; 2] (mkWorld H1 out1) = (Ret tt, mkWorld H1 out1).
Proof.
  apply (addEdge_idempotent (Hypergraph_init (loc:=unit) 2)
           ([] : list (line unit)) [1; 2]).
  - done.
  - apply Hypergraph_init_levels. simpl. lia.
Defined.

Lemma addEdge_Permutation_witness :
  addEdge [3; 1; 2] (mkWorld (Hypergraph_init (loc:=unit) 3)
                             ([] : list (line unit)))
  = addEdge [1; 2; 3] (mkWorld (Hypergraph_init 3) []).
Proof.
  apply (addEdge_Permutation (mkWorld (Hypergraph_init 3) []) [3; 1; 2] [1; 2; 3]).
  apply (Permutation_cons_append [1; 2] 3).
Defined.

Lemma removeSupersetsOf_comm_witness :
  let H := set_E (E_addEdge [1; 2]) (Hypergraph_init (loc:=unit) 2) in
  levels_ok H ∧
  (removeSupersetsOf [1] ≫= λ _, removeSupersetsOf [2])
    (mkWorld H ([] : list (line unit)))
  = (removeSupersetsOf [2] ≫= λ _, removeSupersetsOf [1]) (mkWorld H []).
Proof.
  intros H.
  assert (Hok : levels_ok H).
  { apply set_E_levels_ok; [apply E_addEdge_keys | apply Hypergraph_init_levels]. }
  split; [exact Hok|].
  apply (removeSupersetsOf_comm H [] [1] [2] Hok).
Defined.

Lemma getNumEdges_zero_witness :
  let H := set_E (E_addEdge [1; 2]) (Hypergraph_init (loc:=unit) 2) in
  levels_ok H ∧
  ∃ n, getNumEdges H = Ret n ∧ 0 ≤ n ∧
       (n = 0 ↔ ∀ k Ek, E H !! k = Some Ek → Ek = []).
Proof.
  intros H.
  assert (Hok : levels_ok H).
  { apply set_E_levels_ok; [apply E_addEdge_keys | apply Hypergraph_init_levels]. }
  split; [exact Hok|]. apply (getNumEdges_zero H Hok).
Defined.

Lemma GenerateHypergraph_complete_witness :
  let S := [(Exact.inj 0, Exact.inj 0); (Exact.inj 1, Exact.inj 0);
            (Exact.inj 3, Exact.inj 0)] in
  NoDup S ∧
  ∃ H,
    GenerateHypergraph S (Exact.inj 2) (Exact.inj 1)
      (mkWorld (Hypergraph_init 0) [])
    = (Ret H, mkWorld H []) ∧
    (∀ k Ek e, E H !! k = Some Ek → e ∈ Ek → 2 ≤ k ∧ cand S k e) ∧
    ∀ k f, 2 ≤ k → cand S k f →
           isForbidden (stations S f) (Exact.inj 2) (Exact.inj 1) = Ret true →
           ∃ j Ej d, E H !! j = Some Ej ∧ d ∈ Ej ∧ d ⊆ f.
Proof.
  intros S. assert (Hnd : NoDup S) by concrete_NoDup.
  split; [exact Hnd|].
  apply (GenerateHypergraph_complete S (Exact.inj 2) (Exact.inj 1)
           (mkWorld (Hypergraph_init 0) []) Hnd).
  concrete_pathloss.
Defined.

Lemma interferenceDegree_no_edges_witness :
  levels_ok (Hypergraph_init (loc:=point Qc) 2) ∧
  interferenceDegree (mkWorld (Hypergraph_init (loc:=point Qc) 2) [])
  = (Ret (Exact.inj 0),
     mkWorld (Hypergraph_init 2)
       [PrintDelta_p [Exact.inj 0; Exact.inj 0];
        PrintDelta_pp [Exact.inj 0; Exact.inj 0]]).
Proof.
  split; [apply Hypergraph_init_levels|].
  exact (interferenceDegree_no_edges (Hypergraph_init (loc:=point Qc) 2) []
           (Hypergraph_init_levels 2) (Hypergraph_init_lookup 2)).
Defined.

Lemma GenerateHypergraph_small_witness :
  ∃ H,
    GenerateHypergraph [(Exact.inj 0, Exact.inj 0)] (Exact.inj 2) (Exact.inj 1)
      (mkWorld (Hypergraph_init 0) [])
    = (Ret H, mkWorld H []) ∧
    numVertices H = 1 ∧
    (∀ k Ek, E H !! k = Some Ek → Ek = []) ∧
    getNumEdges H = Ret 0 ∧
    (interferenceDegree (mkWorld H [])).1 = Ret (Exact.inj 0).
Proof.
  refine (GenerateHypergraph_small [(Exact.inj 0, Exact.inj 0)]
            (Exact.inj 2) (Exact.inj 1) (mkWorld (Hypergraph_init 0) []) _).
  simpl. lia.
Defined.

Lemma AdjacencyList_symmetric_witness :
  let H := set_E (E_addEdge [1; 2]) (Hypergraph_init (loc:=point Qc) 3) in
  levels_ok H ∧ edges_in_range H ∧
  ∃ Adj, AdjacencyList H = Ret Adj ∧
         (∀ i, 1 ≤ i ≤ numVertices H →
               ∃ l, Adj !! i = Some l ∧ NoDup l ∧
                    Forall (λ v, 1 ≤ v ≤ numVertices H) l) ∧
         (∀ i j, neighbour Adj i j → neighbour Adj j i) ∧
         (edges_distinct H → ∀ i, ¬ neighbour Adj i i).
Proof.
  intros H.
  assert (Hok : levels_ok H).
  { apply set_E_levels_ok; [apply E_addEdge_keys | apply Hypergraph_init_levels]. }
  assert (Hr : edges_in_range H).
  { apply E_addEdge_in_range; [|apply Hypergraph_init_in_range].
    repeat constructor; simpl; lia. }
  split; [exact Hok|]. split; [exact Hr|].
  apply (AdjacencyList_symmetric H Hok Hr).
Defined.

Lemma isForbidden_first_trigger_witness :
  isForbidden [(Exact.inj 3, Exact.inj 0); (Exact.inj 0, Exact.inj 0);
               (Exact.inj 1, Exact.inj 0); (Exact.inj 1, Exact.inj 0)]
    (Exact.inj 2) (Exact.inj 1)
  = Ret true.
Proof.
  apply (isForbidden_first_trigger (Exact.inj 2) (Exact.inj 1)
           [(Exact.inj 3, Exact.inj 0)]
           [(Exact.inj 1, Exact.inj 0); (Exact.inj 1, Exact.inj 0)]
           (Exact.inj 0, Exact.inj 0)).
  - intros u ->%list_elem_of_singleton. eexists.
    split; [vm_compute; reflexivity|]. vm_compute. reflexivity.
  - eexists. split; [vm_compute; reflexivity|]. vm_compute. reflexivity.
Defined.

Lemma isForbidden_raises_witness :
  isForbidden [(Exact.inj 3, Exact.inj 0); (Exact.inj 0, Exact.inj 0);
               (Exact.inj 0, Exact.inj 0)]
    (Exact.inj 2) (Exact.inj 1)
  = Raise ZeroDivisionError.
Proof.
  apply (isForbidden_raises (Exact.inj 2) (Exact.inj 1)
           [(Exact.inj 3, Exact.inj 0)] [(Exact.inj 0, Exact.inj 0)]
           (Exact.inj 0, Exact.inj 0) ZeroDivisionError).
  - intros u ->%list_elem_of_singleton. eexists.
    split; [vm_compute; reflexivity|]. vm_compute. reflexivity.
  - vm_compute. reflexivity.
Defined.

Lemma GenerateHypergraph_then_interferenceDegree_witness :
  let S := [(Exact.inj 0, Exact.inj 0); (Exact.inj 1, Exact.inj 0);
            (Exact.inj 3, Exact.inj 0)] in
  NoDup S ∧
  ∃ H (Delta_p Delta_pp : list Qc) (res : Qc),
    GenerateHypergraph S (Exact.inj 2) (Exact.inj 1)
      (mkWorld (Hypergraph_init 0) [])
    = (Ret H, mkWorld H []) ∧
    levels_ok H ∧ edges_in_range H ∧
    (GenerateHypergraph S (Exact.inj 2) (Exact.inj 1) ≫= λ H', interferenceDegree)
      (mkWorld (Hypergraph_init 0) [])
    = (Ret res, mkWorld H [PrintDelta_p Delta_p; PrintDelta_pp Delta_pp]) ∧
    fle (of_Z 0) res ∧
    length Delta_p = length S ∧ length Delta_pp = length S.
Proof.
  intros S. assert (Hnd : NoDup S) by concrete_NoDup.
  split; [exact Hnd|].
  apply (GenerateHypergraph_then_interferenceDegree S (Exact.inj 2) (Exact.inj 1)
           (mkWorld (Hypergraph_init 0) []) Hnd).
  concrete_pathloss.
Defined.

Lemma Delta_symmetric_witness :
  let H := set_E (E_addEdge [1; 2]) (Hypergraph_init (loc:=point Qc) 3) in
  levels_ok H ∧ edges_in_range H ∧
  ∃ D, Delta H = Ret D ∧ matrix_ok (numVertices H) D ∧
       ∀ a b, entry D a b = entry D b a.
Proof.
  intros H.
  assert (Hok : levels_ok H).
  { apply set_E_levels_ok; [apply E_addEdge_keys | apply Hypergraph_init_levels]. }
  assert (Hr : edges_in_range H).
  { apply E_addEdge_in_range; [|apply Hypergraph_init_in_range].
    repeat constructor; simpl; lia. }
  split; [exact Hok|]. split; [exact Hr|].
  apply (Delta_symmetric H Hok Hr). simpl. lia.
Defined.

Lemma is_Ur_feasible_correct_witness :
  let S := [(Exact.inj 0, Exact.inj 0); (Exact.inj 1, Exact.inj 0);
            (Exact.inj 3, Exact.inj 0)] in
  NoDup S ∧
  ∃ (t : bool) H,
    is_Ur_feasible (λ _, Ret S) (Exact.inj 2) 3 (Exact.inj 1)
      (mkWorld (Hypergraph_init 0) [])
    = (Ret t, mkWorld H []) ∧
    (t = true ↔
     ∀ k f, 2 ≤ k → cand S k f →
            isForbidden (stations S f) (Exact.inj 2) (Exact.inj 1) = Ret false).
Proof.
  intros S. assert (Hnd : NoDup S) by concrete_NoDup.
  split; [exact Hnd|].
  apply (is_Ur_feasible_correct (λ _, Ret S) (Exact.inj 2) (Exact.inj 1) 3 S
           (mkWorld (Hypergraph_init 0) []) eq_refl Hnd).
  concrete_pathloss.
Defined.

Lemma isIndependentSet_subset_witness :
  let H := set_E (E_addEdge [1; 2]) (Hypergraph_init (loc:=unit) 3) in
  isIndependentSet H [1; 3] = Ret true ∧ isIndependentSet H [3] = Ret true.
Proof.
  intros H.
  assert (HJ : isIndependentSet H [1; 3] = Ret true) by (vm_compute; reflexivity).
  split; [exact HJ|].
  apply (isIndependentSet_subset H [1; 3] [3] HJ).
  - intros v ->%list_elem_of_singleton. right. by left.
  - simpl. lia.
Defined.

Lemma addEdge_then_dependent_witness :
  levels_ok (Hypergraph_init (loc:=unit) 3) ∧
  ∃ (H1 : Hypergraph unit) (out1 : list (line unit)),
    addEdge [2; 1] (mkWorld (Hypergraph_init 3) []) = (Ret tt, mkWorld H1 out1) ∧
    isIndependentSet H1 [1; 2; 3] = Ret false.
Proof.
  split; [apply Hypergraph_init_levels|].
  apply (addEdge_then_dependent (Hypergraph_init (loc:=unit) 3)
           ([] : list (line unit)) [2; 1] [1; 2; 3] (Hypergraph_init_levels 3)).
  - done.
  - simpl. lia.
  - set_solver.
  - simpl. lia.
Defined.

Lemma GenerateHypergraph_independent_witness :
  let S := [(Exact.inj 0, Exact.inj 0); (Exact.inj 1, Exact.inj 0);
            (Exact.inj 3, Exact.inj 0)] in
  NoDup S ∧
  ∃ H (t : bool),
    GenerateHypergraph S (Exact.inj 2) (Exact.inj 1)
      (mkWorld (Hypergraph_init 0) [])
    = (Ret H, mkWorld H []) ∧
    isIndependentSet H [2; 3] = Ret t ∧
    (t = true ↔
     ∀ k f, 2 ≤ k → cand S k f → f ⊆ [2; 3] →
            isForbidden (stations S f) (Exact.inj 2) (Exact.inj 1) = Ret false).
Proof.
  intros S. assert (Hnd : NoDup S) by concrete_NoDup.
  split; [exact Hnd|].
  apply (GenerateHypergraph_independent S (Exact.inj 2) (Exact.inj 1)
           (mkWorld (Hypergraph_init 0) []) [2; 3] Hnd); [concrete_pathloss|].
  simpl. lia.
Defined.

Lemma powerset_sublists_witness :
  [1; 3] ∈ powerset [1; 2; 3] ∧ NoDup (powerset [1; 2; 3]).
Proof.
  destruct (powerset_sublists [1; 2; 3]) as (Hin & _ & Hnd).
  split.
  - apply Hin. apply sublist_skip, sublist_cons, sublist_skip, sublist_nil.
  - apply Hnd. concrete_NoDup.
Defined.
